(** * zarr.hierarchy: groups over a flat key-value store

    A shallow embedding of [zarr/hierarchy.py] (class [Group]) and the
    properties of its namespace engine: member iteration, traversal,
    the mutation guard, deletion, handle construction and
    [require_dataset]. *)

From Stdlib Require Import Ascii String ZArith List Sorted Permutation.
From stdpp Require Import base gmap strings list sorting fin_maps.

Set Default Proof Using "Type".

Open Scope Z_scope.
Open Scope nat_scope.

(** * Strings as Python uses them *)

Module Str.

Definition is_sep (c : ascii) : bool := Ascii.eqb c "/".

(** [s.split('/')]: never the empty list, [split "" = [""]]. *)
Fixpoint split (s : string) : list string :=
  match s with
  | EmptyString => [EmptyString]
  | String c s' =>
      if is_sep c then EmptyString :: split s'
      else match split s' with
           | [] => [String c EmptyString]
           | seg :: rest => String c seg :: rest
           end
  end.

(** ['/'.join(segs)]. *)
Definition join (segs : list string) : string := String.concat "/" segs.

(** [s.startswith(p)], returning what follows the prefix. *)
Fixpoint strip_prefix (p s : string) : option string :=
  match p, s with
  | EmptyString, _ => Some s
  | String a p', String b s' =>
      if Ascii.eqb a b then strip_prefix p' s' else None
  | String _ _, EmptyString => None
  end.

(** [s[n:]]. *)
Fixpoint drop (n : nat) (s : string) : string :=
  match n, s with
  | O, _ => s
  | S n', String _ s' => drop n' s'
  | S _, EmptyString => EmptyString
  end.

(** [s.lstrip('/')]. *)
Fixpoint lstrip (s : string) : string :=
  match s with
  | String c s' => if is_sep c then lstrip s' else s
  | EmptyString => EmptyString
  end.

(** Truthiness of a string: [if s:]. *)
Definition nonempty (s : string) : bool :=
  match s with EmptyString => false | String _ _ => true end.

(** [s and s[0] == '/']. *)
Definition starts_with_sep (s : string) : bool :=
  match s with String c _ => is_sep c | EmptyString => false end.

(** Whether a separator occurs in a string. *)
Fixpoint has_sep (s : string) : bool :=
  match s with
  | String c s' => is_sep c || has_sep s'
  | EmptyString => false
  end.

(** [s.endswith(suffix)]. *)
Fixpoint has_suffix (suffix s : string) : bool :=
  bool_decide (s = suffix) ||
  match s with
  | String _ s' => has_suffix suffix s'
  | EmptyString => false
  end.

(** What precedes a suffix, when the string ends with it. *)
Fixpoint cut_suffix (suffix s : string) : option string :=
  if bool_decide (s = suffix) then Some EmptyString
  else match s with
       | String c s' => String c <$> cut_suffix suffix s'
       | EmptyString => None
       end.

(** The strict order that goes with [String.le]. *)
Definition lt (s1 s2 : string) : Prop := String.le s1 s2 ∧ s1 ≠ s2.

(** [sorted(names)] on strings: the order is the lexicographic order
    on character codes, and the sort is a merge sort. *)
Definition sorted (names : list string) : list string :=
  merge_sort String.le names.

(** [s.rstrip('/')]. *)
Fixpoint rstrip (s : string) : string :=
  match s with
  | EmptyString => EmptyString
  | String c s' =>
      match rstrip s' with
      | EmptyString => if is_sep c then EmptyString else String c EmptyString
      | r => String c r
      end
  end.

(** [s.strip('/')]. *)
Definition strip (s : string) : string := rstrip (lstrip s).

End Str.

(** * The store and the helpers of [zarr.storage] and [zarr.util] *)

Definition bytes := list Byte.byte.

Module Storage.
Section Helpers.

(** The reserved key names [group_meta_key], [array_meta_key] and
    [attrs_key] are constants of [zarr.storage]; the functions below
    hold for any choice of them. *)
Context (group_meta_key array_meta_key attrs_key : string).

(** Modelled from the spec: [zarr.util.normalize_storage_path] is not
    part of [hierarchy.py].  Spec 4.1: strip leading and trailing
    separators and collapse empty segments (the silent-collapse
    choice), so the result has no empty segment. *)
Definition normalize_storage_path (path : string) : string :=
  Str.join (filter (λ seg, seg ≠ EmptyString) (Str.split path)).

(** Modelled from the spec: the key prefix of a path, as
    [Group.__init__] computes [_key_prefix] (path + separator, or
    empty for the root). *)
Definition _path_to_prefix (path : string) : string :=
  if Str.nonempty path then path +:+ "/" else "".

(** Modelled from the spec: [zarr.storage.contains_array]. Spec 4.2: a
    single existence check against the array sentinel key at the
    path. *)
Definition contains_array (store : gmap string bytes) (path : string) : bool :=
  bool_decide (is_Some (store !! (_path_to_prefix path +:+ array_meta_key))).

(** Modelled from the spec: [zarr.storage.contains_group]. Spec 4.2: a
    single existence check against the group sentinel key at the
    path. *)
Definition contains_group (store : gmap string bytes) (path : string) : bool :=
  bool_decide (is_Some (store !! (_path_to_prefix path +:+ group_meta_key))).

(** The next-level segment of a key below a prefix, when the key lies
    strictly below it. *)
Definition child_of (prefix key : string) : option string :=
  match Str.strip_prefix prefix key with
  | Some (String c rest) => head (Str.split (String c rest))
  | _ => None
  end.

(** Modelled from the spec: [zarr.storage.listdir]. Spec 3 and 6:
    list-immediate-children(prefix), the set of next-level segment
    names of the keys below the prefix (not full descendants). *)
Definition listdir (store : gmap string bytes) (path : string) : gset string :=
  set_omap (child_of (_path_to_prefix path)) (dom store).

(** Modelled from the spec: [zarr.storage.rmdir]. Spec 3 and 6:
    delete-by-prefix, every key below the prefix of the path is
    removed. *)
Definition rmdir (store : gmap string bytes) (path : string) : gmap string bytes :=
  filter (λ kv, Str.strip_prefix (_path_to_prefix path) kv.1 = None) store.

End Helpers.
End Storage.

Export Storage.

(** * numpy dtypes and shapes *)

(** The boolean, integer and floating-point dtypes, by their array
    protocol type strings. *)
Inductive dtype := b1 | i1 | i2 | i4 | i8 | u1 | u2 | u4 | u8 | f2 | f4 | f8.

Global Instance dtype_eq_dec : EqDecision dtype.
Proof. solve_decision. Defined.

Inductive dkind := KBool | KInt | KUInt | KFloat.

Definition kind (d : dtype) : dkind :=
  match d with
  | b1 => KBool
  | i1 | i2 | i4 | i8 => KInt
  | u1 | u2 | u4 | u8 => KUInt
  | f2 | f4 | f8 => KFloat
  end.

Definition itemsize (d : dtype) : nat :=
  match d with
  | b1 | i1 | u1 => 1
  | i2 | u2 | f2 => 2
  | i4 | u4 | f4 => 4
  | i8 | u8 | f8 => 8
  end.

(** [np.can_cast(from_, to)] under numpy's default ['safe'] rule: the
    cast preserves every value. *)
Definition np_can_cast (from_ to : dtype) : bool :=
  match kind from_, kind to with
  | KBool, _ => true
  | KInt, KInt | KUInt, KUInt | KFloat, KFloat =>
      bool_decide (itemsize from_ ≤ itemsize to)
  | KUInt, KInt => bool_decide (itemsize from_ < itemsize to)
  | KInt, KFloat | KUInt, KFloat =>
      bool_decide (Nat.min 8 (2 * itemsize from_) ≤ itemsize to)
  | _, _ => false
  end.

(** The check on dtypes that [_require_dataset_nosync] makes once the
    shapes agree: [dtype != a.dtype] must fail when [exact], and
    [np.can_cast(dtype, a.dtype)] must hold otherwise. *)
Definition dtype_guard (exact : bool) (requested stored : dtype) : bool :=
  if exact then bool_decide (requested = stored)
  else np_can_cast requested stored.

(** [np.dtype(dtype)]: [None] stands for the default, float64. *)
Definition np_dtype (dt : option dtype) : dtype := default f8 dt.

(** A [shape] argument: an int or a tuple of ints. *)
Inductive shape_arg := ShapeInt (n : Z) | ShapeTuple (dims : list Z).

(** * Errors, handles and the world *)

Inductive exn :=
| ReadOnlyError                      (* err_read_only() *)
| ContainsArrayError (path : string) (* err_contains_array(path) *)
| ContainsGroupError (path : string) (* err_contains_group(path) *)
| GroupNotFoundError (path : string) (* err_group_not_found(path) *)
| KeyError (item : string)
| TypeError (msg : string)
| RecursionError
| CollaboratorError (msg : string).  (* raised by an external collaborator *)

Inductive result (A : Type) := Ok (a : A) | Raise (e : exn).
Arguments Ok {A} a.
Arguments Raise {A} e.

Definition result_map {A B} (f : A → B) (r : result A) : result B :=
  match r with Ok a => Ok (f a) | Raise e => Raise e end.

(** A synchronizer is known by its identity; it hands out one lock per
    key. *)
Definition Sync := nat.

Inductive lock_event :=
| Acquire (sync : Sync) (key : string)
| Release (sync : Sync) (key : string).

(** The store a handle is opened on, the separate chunk store (when one
    is used) and the history of lock operations. *)
Record World := mkWorld {
  w_store : gmap string bytes;
  w_chunk_store : gmap string bytes;
  w_trace : list lock_event
}.

Definition log (ev : lock_event) (w : World) : World :=
  mkWorld (w_store w) (w_chunk_store w) (w_trace w ++ [ev]).

(** Computations that read and write the world and may raise. *)
Definition M (A : Type) : Type := World → result A * World.

Global Instance M_ret : MRet M := λ A a w, (Ok a, w).
Global Instance M_bind : MBind M := λ A B f m w,
  match m w with
  | (Ok a, w') => f a w'
  | (Raise e, w') => (Raise e, w')
  end.

Definition raise {A} (e : exn) : M A := λ w, (Raise e, w).
Definition lift {A} (r : result A) : M A := λ w, (r, w).
Definition get_store : M (gmap string bytes) := λ w, (Ok (w_store w), w).
Definition put_store (store : gmap string bytes) : M unit :=
  λ w, (Ok (), mkWorld store (w_chunk_store w) (w_trace w)).

(** [with lock: body]: the lock is taken on entry and given back on
    every way out of the body. *)
Definition with_lock {A} (sync : Sync) (key : string) (body : M A) : M A :=
  λ w, let '(r, w') := body (log (Acquire sync key) w) in
       (r, log (Release sync key) w').

(** A group handle. [_chunk_store] tells whether a separate chunk store
    was given ([None] in the source when not). *)
Record Group := mkGroup {
  _path : string;
  _key_prefix : string;
  _read_only : bool;
  _chunk_store : bool;
  _synchronizer : option Sync;
  _meta : Z;
  _attrs : string
}.

(** An array handle of [zarr.core], with the accessors the hierarchy
    uses. *)
Record Array := mkArray {
  a_path : string;
  a_read_only : bool;
  a_chunk_store : bool;
  a_synchronizer : option Sync;
  a_cache_metadata : bool;
  a_shape : list Z;
  a_dtype : dtype
}.

Inductive Node := NArray (a : Array) | NGroup (g : Group).

Global Instance Group_eq_dec : EqDecision Group.
Proof. solve_decision. Defined.
Global Instance Array_eq_dec : EqDecision Array.
Proof. solve_decision. Defined.
Global Instance Node_eq_dec : EqDecision Node.
Proof. solve_decision. Defined.

(** Keyword arguments: the keys the hierarchy looks at, and the rest. *)
Record kwargs := mkKwargs {
  kw_shape : option shape_arg;
  kw_dtype : option (option dtype);
  kw_data : option (list Z);
  kw_synchronizer : option (option Sync);
  kw_cache_metadata : option bool;
  kw_overwrite : option bool;
  kw_rest : list (string * Z)
}.

Definition no_kwargs : kwargs := mkKwargs None None None None None None [].

(** [kwargs.setdefault('synchronizer', sync)]. *)
Definition setdefault_synchronizer (sync : option Sync) (kw : kwargs) : kwargs :=
  match kw_synchronizer kw with
  | Some _ => kw
  | None =>
      mkKwargs (kw_shape kw) (kw_dtype kw) (kw_data kw) (Some sync)
        (kw_cache_metadata kw) (kw_overwrite kw) (kw_rest kw)
  end.

Definition set_shape_dtype (shape : shape_arg) (dt : option dtype)
    (kw : kwargs) : kwargs :=
  mkKwargs (Some shape) (Some dt) (kw_data kw) (kw_synchronizer kw)
    (kw_cache_metadata kw) (kw_overwrite kw) (kw_rest kw).

Definition pop_data (kw : kwargs) : kwargs :=
  mkKwargs (kw_shape kw) (kw_dtype kw) None (kw_synchronizer kw)
    (kw_cache_metadata kw) (kw_overwrite kw) (kw_rest kw).

Definition set_overwrite (b : bool) (kw : kwargs) : kwargs :=
  mkKwargs (kw_shape kw) (kw_dtype kw) (kw_data kw) (kw_synchronizer kw)
    (kw_cache_metadata kw) (Some b) (kw_rest kw).

(** The array factories of [zarr.creation]. *)
Inductive factory :=
| F_create | F_array | F_empty | F_zeros | F_ones | F_full
| F_empty_like | F_zeros_like | F_ones_like | F_full_like.

(** What a factory is called with: [store] is the world's, the rest is
    passed by keyword. *)
Record creation_args := mkCreationArgs {
  ca_data : option (list Z);
  ca_path : string;
  ca_chunk_store : bool;
  ca_fill_value : option Z;
  ca_kwargs : kwargs
}.

(** What a generator does when run to its end: the values it yields, in
    order, and the exception that ends it, if one does. *)
Record gen (A : Type) := Gen { yields : list A; raised : option exn }.
Arguments Gen {A} yields raised.
Arguments yields {A} g.
Arguments raised {A} g.

(** Running one generator after another: the second is not reached when
    the first one raises. *)
Definition gen_app {A} (g1 g2 : gen A) : gen A :=
  match raised g1 with
  | Some e => g1
  | None => Gen (yields g1 ++ yields g2) (raised g2)
  end.

Definition gen_cons {A} (a : A) (g : gen A) : gen A :=
  Gen (a :: yields g) (raised g).

(** Bytes compare by value, and so do stores. *)
Global Instance byte_eq_dec : EqDecision Byte.byte :=
  Stdlib.Strings.Byte.byte_eq_dec.

(** * Nested ordered mappings *)

Module OrderedDict.

(** An [OrderedDict] whose values are [OrderedDict]s, as [Group.tree]
    builds: the items in the order of their insertion. *)
Inductive odict := ODict (items : list (string * odict)).

Definition items (d : odict) : list (string * odict) :=
  match d with ODict items => items end.

(** [d[e]], the value of the first item with key [e]. *)
Fixpoint getitem (e : string) (items : list (string * odict)) : option odict :=
  match items with
  | [] => None
  | (k, v) :: rest => if decide (k = e) then Some v else getitem e rest
  end.

(** [d.setdefault(e, OrderedDict())] followed by an update [f] of the
    mapping it returns, which is the value stored under [e]: an
    existing item is updated in place, a new one is added at the end. *)
Fixpoint setdefault (e : string) (f : odict → odict)
    (items : list (string * odict)) : list (string * odict) :=
  match items with
  | [] => [(e, f (ODict []))]
  | (k, v) :: rest =>
      if decide (k = e) then (k, f v) :: rest
      else (k, v) :: setdefault e f rest
  end.

(** [for e in g: sd = sd.setdefault(e, OrderedDict())], as the mapping
    [sd] started from looks afterwards. *)
Fixpoint setdefault_path (g : list string) (sd : odict) : odict :=
  match g with
  | [] => sd
  | e :: g' => ODict (setdefault e (setdefault_path g') (items sd))
  end.

(** [g[-1] += suffix]. *)
Fixpoint add_to_last (suffix : string) (g : list string) : list string :=
  match g with
  | [] => []
  | [e] => [e +:+ suffix]
  | e :: g' => e :: add_to_last suffix g'
  end.

(** A chain of keys leads through nested mappings. *)
Fixpoint has_path (g : list string) (sd : odict) : Prop :=
  match g with
  | [] => True
  | e :: g' => ∃ v, getitem e (items sd) = Some v ∧ has_path g' v
  end.

End OrderedDict.

(** * The class [Group] *)

Module Hierarchy.
Section Methods.

(** Constants and collaborators that [hierarchy.py] imports: the
    sentinel key names, the metadata decoders of [zarr.meta] and
    [zarr.core], [zarr.util.normalize_shape], [zarr.storage.init_group]
    and the array factories of [zarr.creation]. *)
Context (group_meta_key array_meta_key attrs_key : string).
Context (decode_group_metadata : bytes → option Z).
Context (decode_array_metadata : bytes → option (list Z * dtype)).
Context (normalize_shape : shape_arg → list Z).
Context (init_group : string → bool → bool → M unit).
Context (creation : factory → creation_args → M Array).

Local Abbreviation contains_array := (contains_array array_meta_key).
Local Abbreviation contains_group := (contains_group group_meta_key).

(** Modelled from the spec: the constructor of [zarr.core.Array],
    which is not part of [hierarchy.py]. Spec 3 and 6: a view keyed by
    the same kind of path, with [shape] and [dtype] accessors read
    from the array's metadata. *)
Definition Array_init (store : gmap string bytes) (path : string)
    (read_only chunk_store : bool) (synchronizer : option Sync)
    (cache_metadata : bool) : result Array :=
  let path' := normalize_storage_path path in
  match store !! (_path_to_prefix path' +:+ array_meta_key) with
  | None => Raise (CollaboratorError "array not found")
  | Some meta_bytes =>
      match decode_array_metadata meta_bytes with
      | None => Raise (CollaboratorError "array metadata")
      | Some (shape, dt) =>
          Ok (mkArray path' read_only chunk_store synchronizer
                cache_metadata shape dt)
      end
  end.

(** [Group.__init__], on the store it is given. *)
Definition __init__ (store : gmap string bytes) (path : string)
    (read_only chunk_store : bool) (synchronizer : option Sync)
    : result Group :=
  let _path := normalize_storage_path path in
  let _key_prefix := if Str.nonempty _path then _path +:+ "/" else "" in
  (* guard conditions *)
  if contains_array store _path then Raise (ContainsArrayError path)
  else
    (* initialize metadata *)
    let mkey := _key_prefix +:+ group_meta_key in
    match store !! mkey with
    | None => Raise (GroupNotFoundError path)
    | Some meta_bytes =>
        match decode_group_metadata meta_bytes with
        | None => Raise (CollaboratorError "group metadata")
        | Some meta =>
            (* setup attributes *)
            let akey := _key_prefix +:+ attrs_key in
            Ok (mkGroup _path _key_prefix read_only chunk_store
                  synchronizer meta akey)
        end
    end.

(** [Group(store, ...)] as a step of a computation on the world. *)
Definition Group_new (path : string) (read_only chunk_store : bool)
    (synchronizer : option Sync) : M Group :=
  store ← get_store;
  lift (__init__ store path read_only chunk_store synchronizer).

(** [Group.name]. *)
Definition name (self : Group) : string :=
  if Str.nonempty (_path self) then
    let name := _path self in
    if negb (Str.starts_with_sep name) then "/" +:+ name else name
  else "/".

(** Modelled from the spec: [Array.name] of [zarr.core], the same
    convention as [Group.name]. *)
Definition Array_name (a : Array) : string :=
  if Str.nonempty (a_path a) then
    let name := a_path a in
    if negb (Str.starts_with_sep name) then "/" +:+ name else name
  else "/".

Definition node_name (o : Node) : string :=
  match o with NArray a => Array_name a | NGroup g => name g end.

Definition node_path (o : Node) : string :=
  match o with NArray a => a_path a | NGroup g => _path g end.

(** [Group.__iter__]: the member names, as the list the iterator
    yields. *)
Definition __iter__ (store : gmap string bytes) (self : Group) : list string :=
  filter
    (λ key, let path := _key_prefix self +:+ key in
            contains_array store path || contains_group store path)
    (Str.sorted (elements (listdir store (_path self)))).

(** [Group.__len__]. *)
Definition __len__ (store : gmap string bytes) (self : Group) : nat :=
  length (__iter__ store self).

(** [Group.keys], inherited from [MutableMapping]: a view that
    iterates as the group does. *)
Definition keys (store : gmap string bytes) (self : Group) : list string :=
  __iter__ store self.

(** [Group._item_path]. *)
Definition _item_path (self : Group) (item : string) : string :=
  let absolute := Str.starts_with_sep item in
  let path := normalize_storage_path item in
  if negb absolute && Str.nonempty (_path self)
  then _key_prefix self +:+ path
  else path.

(** [Group.__contains__]. *)
Definition __contains__ (store : gmap string bytes) (self : Group)
    (item : string) : bool :=
  let path := _item_path self item in
  contains_array store path || contains_group store path.

(** [Group.__getitem__]. *)
Definition __getitem__ (store : gmap string bytes) (self : Group)
    (item : string) : result Node :=
  let path := _item_path self item in
  if contains_array store path then
    result_map NArray
      (Array_init store path (_read_only self) (_chunk_store self)
         (_synchronizer self) true)
  else if contains_group store path then
    result_map NGroup
      (__init__ store path (_read_only self) (_chunk_store self)
         (_synchronizer self))
  else Raise (KeyError item).

(** [Group.group_keys]. *)
Definition group_keys (store : gmap string bytes) (self : Group) : list string :=
  filter
    (λ key, let path := _key_prefix self +:+ key in
            contains_group store path = true)
    (Str.sorted (elements (listdir store (_path self)))).

(** [Group.array_keys]. *)
Definition array_keys (store : gmap string bytes) (self : Group) : list string :=
  filter
    (λ key, let path := _key_prefix self +:+ key in
            contains_array store path = true)
    (Str.sorted (elements (listdir store (_path self)))).

(** ** Traversal *)

(** [getattr(obj, "keys", lambda: [])()]: only groups have [keys]. *)
Definition node_keys (store : gmap string bytes) (obj : Node) : list string :=
  match obj with
  | NGroup g => keys store g
  | NArray _ => []
  end.

(** [obj[each_key]], for an [obj] that has keys. *)
Definition node_getitem (store : gmap string bytes) (obj : Node)
    (key : string) : result Node :=
  match obj with
  | NGroup g => __getitem__ store g key
  | NArray _ => Raise (TypeError "not subscriptable")
  end.

(** The generator [_visit] inside [visitvalues]. [depth] is the number
    of nested calls the interpreter still allows: a call beyond that
    raises [RecursionError]. *)
Fixpoint _visit (depth : nat) (store : gmap string bytes) (obj : Node)
    : gen Node :=
  match depth with
  | O => Gen [] (Some RecursionError)
  | S depth' =>
      let keys := Str.sorted (node_keys store obj) in
      gen_cons obj
        (foldr
           (λ each_key rest,
              match node_getitem store obj each_key with
              | Raise e => Gen [] (Some e)
              | Ok child => gen_app (_visit depth' store child) rest
              end)
           (Gen [] None) keys)
  end.

(** The loop of [visitvalues] over the objects still to come: [func]
    is applied to one object after the other, and the first value that
    is not [None] is returned at once. [tail] is the exception ending
    the generator, met only when all objects have been consumed. The
    visitor has a state of its own, and may raise. *)
Fixpoint visit_loop {S R : Type} (func : Node → S → result (option R) * S)
    (objs : list Node) (tail : option exn) (s : S)
    : result (option R) * S :=
  match objs with
  | [] =>
      match tail with
      | Some e => (Raise e, s)
      | None => (Ok None, s)
      end
  | each_obj :: rest =>
      match func each_obj s with
      | (Ok None, s') => visit_loop func rest tail s'
      | (Ok (Some value), s') => (Ok (Some value), s')
      | (Raise e, s') => (Raise e, s')
      end
  end.

(** [Group.visitvalues]: [islice(_visit(self), 1, None)] drops the
    first object, which is [self]. *)
Definition visitvalues {S R : Type} (depth : nat)
    (store : gmap string bytes) (self : Group)
    (func : Node → S → result (option R) * S) (s : S)
    : result (option R) * S :=
  let g := _visit depth store (NGroup self) in
  visit_loop func (drop 1 (yields g)) (raised g) s.

(** The name that [visit] and [visititems] pass on:
    [o.name[base_len:].lstrip("/")]. *)
Definition relative_name (base_len : nat) (o : Node) : string :=
  Str.lstrip (Str.drop base_len (node_name o)).

(** [Group.visit]. *)
Definition visit {S R : Type} (depth : nat) (store : gmap string bytes)
    (self : Group) (func : string → S → result (option R) * S) (s : S)
    : result (option R) * S :=
  let base_len := String.length (name self) in
  visitvalues depth store self (λ o, func (relative_name base_len o)) s.

(** [Group.visitkeys]. *)
Definition visitkeys {S R : Type} (depth : nat) (store : gmap string bytes)
    (self : Group) (func : string → S → result (option R) * S) (s : S)
    : result (option R) * S :=
  visit depth store self func s.

(** [Group.visititems]. *)
Definition visititems {S R : Type} (depth : nat) (store : gmap string bytes)
    (self : Group) (func : string → Node → S → result (option R) * S) (s : S)
    : result (option R) * S :=
  let base_len := String.length (name self) in
  visitvalues depth store self (λ o, func (relative_name base_len o) o) s.

(** ** The mutation guard *)

(** [Group._write_op]. *)
Definition _write_op {A : Type} (self : Group) (f : M A) : M A :=
  (* guard condition *)
  if _read_only self then raise ReadOnlyError
  else
    (* synchronization *)
    match _synchronizer self with
    | None => f
    | Some synchronizer =>
        (* synchronize on the root group *)
        with_lock synchronizer group_meta_key f
    end.

(** ** Deletion *)

(** [Group._delitem_nosync]. *)
Definition _delitem_nosync (self : Group) (item : string) : M unit :=
  store ← get_store;
  let path := _item_path self item in
  if contains_array store path || contains_group store path
  then put_store (rmdir store path)
  else raise (KeyError item).

(** [Group.__delitem__]. *)
Definition __delitem__ (self : Group) (item : string) : M unit :=
  _write_op self (_delitem_nosync self item).

(** ** Groups *)

(** [Group._create_group_nosync]. *)
Definition _create_group_nosync (self : Group) (name : string)
    (overwrite : bool) : M Group :=
  let path := _item_path self name in
  (* create terminal group *)
  _ ← init_group path (_chunk_store self) overwrite;
  Group_new path (_read_only self) (_chunk_store self) (_synchronizer self).

(** [Group.create_group]. *)
Definition create_group (self : Group) (name : string) (overwrite : bool)
    : M Group :=
  _write_op self (_create_group_nosync self name overwrite).

(** [Group._require_group_nosync]. *)
Definition _require_group_nosync (self : Group) (name : string)
    (overwrite : bool) : M Group :=
  store ← get_store;
  let path := _item_path self name in
  (* create terminal group if necessary *)
  _ ← (if negb (contains_group store path)
       then init_group path (_chunk_store self) overwrite
       else mret ());
  Group_new path (_read_only self) (_chunk_store self) (_synchronizer self).

(** [Group.require_group]. *)
Definition require_group (self : Group) (name : string) (overwrite : bool)
    : M Group :=
  _write_op self (_require_group_nosync self name overwrite).

(** ** Arrays *)

(** [Group._create_dataset_nosync]. *)
Definition _create_dataset_nosync (self : Group) (name : string)
    (kw : kwargs) : M Array :=
  let data := kw_data kw in
  let path := _item_path self name in
  (* determine synchronizer *)
  let kw := setdefault_synchronizer (_synchronizer self) (pop_data kw) in
  (* create array *)
  match data with
  | None =>
      creation F_create (mkCreationArgs None path (_chunk_store self) None kw)
  | Some data =>
      creation F_array
        (mkCreationArgs (Some data) path (_chunk_store self) None kw)
  end.

(** [Group.create_dataset]. *)
Definition create_dataset (self : Group) (name : string) (kw : kwargs)
    : M Array :=
  _write_op self (_create_dataset_nosync self name kw).

(** [Group._require_dataset_nosync]. *)
Definition _require_dataset_nosync (self : Group) (name : string)
    (shape : shape_arg) (dt : option dtype) (exact : bool) (kw : kwargs)
    : M Array :=
  store ← get_store;
  let path := _item_path self name in
  if contains_array store path then
    let synchronizer := default (_synchronizer self) (kw_synchronizer kw) in
    let cache_metadata := default true (kw_cache_metadata kw) in
    a ← lift (Array_init store path (_read_only self) (_chunk_store self)
                synchronizer cache_metadata);
    let shape := normalize_shape shape in
    if bool_decide (shape ≠ a_shape a)
    then raise (TypeError "shapes do not match")
    else
      let dt := np_dtype dt in
      if exact then
        if bool_decide (dt ≠ a_dtype a)
        then raise (TypeError "dtypes do not match exactly")
        else mret a
      else
        if negb (np_can_cast dt (a_dtype a))
        then raise (TypeError "dtypes cannot be safely cast")
        else mret a
  else
    _create_dataset_nosync self name (set_shape_dtype shape dt kw).

(** [Group.require_dataset]. *)
Definition require_dataset (self : Group) (name : string)
    (shape : shape_arg) (dt : option dtype) (exact : bool) (kw : kwargs)
    : M Array :=
  _write_op self (_require_dataset_nosync self name shape dt exact kw).

(** [Group._create_nosync]. *)
Definition _create_nosync (self : Group) (name : string) (kw : kwargs)
    : M Array :=
  let path := _item_path self name in
  let kw := setdefault_synchronizer (_synchronizer self) kw in
  creation F_create (mkCreationArgs None path (_chunk_store self) None kw).

(** [Group.create]. *)
Definition create (self : Group) (name : string) (kw : kwargs) : M Array :=
  _write_op self (_create_nosync self name kw).

(** [Group._empty_nosync]. *)
Definition _empty_nosync (self : Group) (name : string) (kw : kwargs)
    : M Array :=
  let path := _item_path self name in
  let kw := setdefault_synchronizer (_synchronizer self) kw in
  creation F_empty (mkCreationArgs None path (_chunk_store self) None kw).

(** [Group.empty]. *)
Definition empty (self : Group) (name : string) (kw : kwargs) : M Array :=
  _write_op self (_empty_nosync self name kw).

(** [Group._zeros_nosync]. *)
Definition _zeros_nosync (self : Group) (name : string) (kw : kwargs)
    : M Array :=
  let path := _item_path self name in
  let kw := setdefault_synchronizer (_synchronizer self) kw in
  creation F_zeros (mkCreationArgs None path (_chunk_store self) None kw).

(** [Group.zeros]. *)
Definition zeros (self : Group) (name : string) (kw : kwargs) : M Array :=
  _write_op self (_zeros_nosync self name kw).

(** [Group._ones_nosync]. *)
Definition _ones_nosync (self : Group) (name : string) (kw : kwargs)
    : M Array :=
  let path := _item_path self name in
  let kw := setdefault_synchronizer (_synchronizer self) kw in
  creation F_ones (mkCreationArgs None path (_chunk_store self) None kw).

(** [Group.ones]. *)
Definition ones (self : Group) (name : string) (kw : kwargs) : M Array :=
  _write_op self (_ones_nosync self name kw).

(** [Group._full_nosync]. *)
Definition _full_nosync (self : Group) (name : string) (fill_value : Z)
    (kw : kwargs) : M Array :=
  let path := _item_path self name in
  let kw := setdefault_synchronizer (_synchronizer self) kw in
  creation F_full
    (mkCreationArgs None path (_chunk_store self) (Some fill_value) kw).

(** [Group.full]. *)
Definition full (self : Group) (name : string) (fill_value : Z)
    (kw : kwargs) : M Array :=
  _write_op self (_full_nosync self name fill_value kw).

(** [Group._array_nosync]. *)
Definition _array_nosync (self : Group) (name : string) (data : list Z)
    (kw : kwargs) : M Array :=
  let path := _item_path self name in
  let kw := setdefault_synchronizer (_synchronizer self) kw in
  creation F_array
    (mkCreationArgs (Some data) path (_chunk_store self) None kw).

(** [Group.array]. *)
Definition array (self : Group) (name : string) (data : list Z)
    (kw : kwargs) : M Array :=
  _write_op self (_array_nosync self name data kw).

(** [Group._empty_like_nosync]. *)
Definition _empty_like_nosync (self : Group) (name : string)
    (data : list Z) (kw : kwargs) : M Array :=
  let path := _item_path self name in
  let kw := setdefault_synchronizer (_synchronizer self) kw in
  creation F_empty_like
    (mkCreationArgs (Some data) path (_chunk_store self) None kw).

(** [Group.empty_like]. *)
Definition empty_like (self : Group) (name : string) (data : list Z)
    (kw : kwargs) : M Array :=
  _write_op self (_empty_like_nosync self name data kw).

(** [Group._zeros_like_nosync]. *)
Definition _zeros_like_nosync (self : Group) (name : string)
    (data : list Z) (kw : kwargs) : M Array :=
  let path := _item_path self name in
  let kw := setdefault_synchronizer (_synchronizer self) kw in
  creation F_zeros_like
    (mkCreationArgs (Some data) path (_chunk_store self) None kw).

(** [Group.zeros_like]. *)
Definition zeros_like (self : Group) (name : string) (data : list Z)
    (kw : kwargs) : M Array :=
  _write_op self (_zeros_like_nosync self name data kw).

(** [Group._ones_like_nosync]. *)
Definition _ones_like_nosync (self : Group) (name : string)
    (data : list Z) (kw : kwargs) : M Array :=
  let path := _item_path self name in
  let kw := setdefault_synchronizer (_synchronizer self) kw in
  creation F_ones_like
    (mkCreationArgs (Some data) path (_chunk_store self) None kw).

(** [Group.ones_like]. *)
Definition ones_like (self : Group) (name : string) (data : list Z)
    (kw : kwargs) : M Array :=
  _write_op self (_ones_like_nosync self name data kw).

(** [Group._full_like_nosync]. *)
Definition _full_like_nosync (self : Group) (name : string)
    (data : list Z) (kw : kwargs) : M Array :=
  let path := _item_path self name in
  let kw := setdefault_synchronizer (_synchronizer self) kw in
  creation F_full_like
    (mkCreationArgs (Some data) path (_chunk_store self) None kw).

(** [Group.full_like]. *)
Definition full_like (self : Group) (name : string) (data : list Z)
    (kw : kwargs) : M Array :=
  _write_op self (_full_like_nosync self name data kw).

(** [Group.__setitem__]. *)
Definition __setitem__ (self : Group) (item : string) (value : list Z)
    : M Array :=
  array self item value (set_overwrite true no_kwargs).

(** ** The mutating calls, as data *)

(** A call of one of the mutating methods, with its arguments. *)
Inductive mutation :=
| Call_create_group (name : string) (overwrite : bool)
| Call_require_group (name : string) (overwrite : bool)
| Call_create_dataset (name : string) (kw : kwargs)
| Call_require_dataset (name : string) (shape : shape_arg)
    (dt : option dtype) (exact : bool) (kw : kwargs)
| Call_create (name : string) (kw : kwargs)
| Call_empty (name : string) (kw : kwargs)
| Call_zeros (name : string) (kw : kwargs)
| Call_ones (name : string) (kw : kwargs)
| Call_full (name : string) (fill_value : Z) (kw : kwargs)
| Call_array (name : string) (data : list Z) (kw : kwargs)
| Call_empty_like (name : string) (data : list Z) (kw : kwargs)
| Call_zeros_like (name : string) (data : list Z) (kw : kwargs)
| Call_ones_like (name : string) (data : list Z) (kw : kwargs)
| Call_full_like (name : string) (data : list Z) (kw : kwargs)
| Call_setitem (item : string) (value : list Z)
| Call_delitem (item : string).

(** What a mutating call returns. *)
Inductive retval := RGroup (g : Group) | RArray (a : Array) | RNone.

Definition returning {A : Type} (wrap : A → retval) (m : M A) : M retval :=
  a ← m; mret (wrap a).

(** The public method behind each call. *)
Definition call (self : Group) (c : mutation) : M retval :=
  match c with
  | Call_create_group name overwrite =>
      returning RGroup (create_group self name overwrite)
  | Call_require_group name overwrite =>
      returning RGroup (require_group self name overwrite)
  | Call_create_dataset name kw =>
      returning RArray (create_dataset self name kw)
  | Call_require_dataset name shape dt exact kw =>
      returning RArray (require_dataset self name shape dt exact kw)
  | Call_create name kw => returning RArray (create self name kw)
  | Call_empty name kw => returning RArray (empty self name kw)
  | Call_zeros name kw => returning RArray (zeros self name kw)
  | Call_ones name kw => returning RArray (ones self name kw)
  | Call_full name fill_value kw =>
      returning RArray (full self name fill_value kw)
  | Call_array name data kw => returning RArray (array self name data kw)
  | Call_empty_like name data kw =>
      returning RArray (empty_like self name data kw)
  | Call_zeros_like name data kw =>
      returning RArray (zeros_like self name data kw)
  | Call_ones_like name data kw =>
      returning RArray (ones_like self name data kw)
  | Call_full_like name data kw =>
      returning RArray (full_like self name data kw)
  | Call_setitem item value => returning RArray (__setitem__ self item value)
  | Call_delitem item => returning (λ _, RNone) (__delitem__ self item)
  end.

(** The unguarded function each call hands to [_write_op]. *)
Definition nosync (self : Group) (c : mutation) : M retval :=
  match c with
  | Call_create_group name overwrite =>
      returning RGroup (_create_group_nosync self name overwrite)
  | Call_require_group name overwrite =>
      returning RGroup (_require_group_nosync self name overwrite)
  | Call_create_dataset name kw =>
      returning RArray (_create_dataset_nosync self name kw)
  | Call_require_dataset name shape dt exact kw =>
      returning RArray (_require_dataset_nosync self name shape dt exact kw)
  | Call_create name kw => returning RArray (_create_nosync self name kw)
  | Call_empty name kw => returning RArray (_empty_nosync self name kw)
  | Call_zeros name kw => returning RArray (_zeros_nosync self name kw)
  | Call_ones name kw => returning RArray (_ones_nosync self name kw)
  | Call_full name fill_value kw =>
      returning RArray (_full_nosync self name fill_value kw)
  | Call_array name data kw =>
      returning RArray (_array_nosync self name data kw)
  | Call_empty_like name data kw =>
      returning RArray (_empty_like_nosync self name data kw)
  | Call_zeros_like name data kw =>
      returning RArray (_zeros_like_nosync self name data kw)
  | Call_ones_like name data kw =>
      returning RArray (_ones_like_nosync self name data kw)
  | Call_full_like name data kw =>
      returning RArray (_full_like_nosync self name data kw)
  | Call_setitem item value =>
      returning RArray
        (_array_nosync self item value (set_overwrite true no_kwargs))
  | Call_delitem item => returning (λ _, RNone) (_delitem_nosync self item)
  end.

(** The name each call mutates. *)
Definition call_name (c : mutation) : string :=
  match c with
  | Call_create_group name _ | Call_require_group name _
  | Call_create_dataset name _ | Call_require_dataset name _ _ _ _
  | Call_create name _ | Call_empty name _ | Call_zeros name _
  | Call_ones name _ | Call_full name _ _ | Call_array name _ _
  | Call_empty_like name _ _ | Call_zeros_like name _ _
  | Call_ones_like name _ _ | Call_full_like name _ _
  | Call_setitem name _ | Call_delitem name => name
  end.

(** The keyword arguments of the calls that always end in an array
    factory; [__setitem__] passes [overwrite=True] and nothing else. *)
Definition call_kwargs (c : mutation) : option kwargs :=
  match c with
  | Call_create_dataset _ kw | Call_create _ kw | Call_empty _ kw
  | Call_zeros _ kw | Call_ones _ kw | Call_full _ _ kw
  | Call_array _ _ kw | Call_empty_like _ _ kw | Call_zeros_like _ _ kw
  | Call_ones_like _ _ kw | Call_full_like _ _ kw => Some kw
  | Call_setitem _ _ => Some (set_overwrite true no_kwargs)
  | Call_create_group _ _ | Call_require_group _ _
  | Call_require_dataset _ _ _ _ _ | Call_delitem _ => None
  end.

(** ** Pickling *)

(** [Group.__getstate__]; the store, its first component, is the
    world's. *)
Definition __getstate__ (self : Group) : string * bool * bool * option Sync :=
  (_path self, _read_only self, _chunk_store self, _synchronizer self).

(** [Group.__setstate__]: [self.__init__( *state)]. *)
Definition __setstate__ (store : gmap string bytes)
    (state : string * bool * bool * option Sync) : result Group :=
  let '(path, read_only, chunk_store, synchronizer) := state in
  __init__ store path read_only chunk_store synchronizer.

(** ** Equality *)

(** [Group.__eq__], each handle with the store it is opened on. *)
Definition __eq__ (self_store : gmap string bytes) (self : Group)
    (other_store : gmap string bytes) (other : Node) : bool :=
  match other with
  | NGroup other =>
      bool_decide (self_store = other_store) &&
      bool_decide (_read_only self = _read_only other) &&
      bool_decide (_path self = _path other)
  | NArray _ => false
  end.

(** ** Pairs of names and handles *)

(** [Group.groups]: a generator, which ends with an exception when a
    constructor raises. *)
Definition groups (store : gmap string bytes) (self : Group)
    : gen (string * Group) :=
  foldr
    (λ key rest,
       let path := _key_prefix self +:+ key in
       if contains_group store path then
         match __init__ store path (_read_only self) (_chunk_store self)
                 (_synchronizer self) with
         | Ok g => gen_cons (key, g) rest
         | Raise e => Gen [] (Some e)
         end
       else rest)
    (Gen [] None) (Str.sorted (elements (listdir store (_path self)))).

(** [Group.arrays]. *)
Definition arrays (store : gmap string bytes) (self : Group)
    : gen (string * Array) :=
  foldr
    (λ key rest,
       let path := _key_prefix self +:+ key in
       if contains_array store path then
         match Array_init store path (_read_only self) (_chunk_store self)
                 (_synchronizer self) true with
         | Ok a => gen_cons (key, a) rest
         | Raise e => Gen [] (Some e)
         end
       else rest)
    (Gen [] None) (Str.sorted (elements (listdir store (_path self)))).

(** ** Several groups in one call *)

(** [Group.create_groups]: [tuple(self.create_group(name, **kwargs)
    for name in names)]. *)
Fixpoint create_groups (self : Group) (names : list string)
    (overwrite : bool) : M (list Group) :=
  match names with
  | [] => mret []
  | name :: names' =>
      g ← create_group self name overwrite;
      gs ← create_groups self names' overwrite;
      mret (g :: gs)
  end.

(** [Group.require_groups]: [tuple(self.require_group(name) for name in
    names)]. *)
Fixpoint require_groups (self : Group) (names : list string)
    : M (list Group) :=
  match names with
  | [] => mret []
  | name :: names' =>
      g ← require_group self name false;
      gs ← require_groups self names';
      mret (g :: gs)
  end.

(** ** The tree of names *)

(** [_gen_branch] inside [Group.tree], as what it does to the mapping
    [d]. *)
Definition _gen_branch (p : string) (o : Node)
    (d : OrderedDict.odict) : OrderedDict.odict :=
  let n := Str.strip p in
  let g := Str.split n in
  let g :=
    OrderedDict.add_to_last
      (match o with NArray _ => "[...]" | NGroup _ => "" end) g in
  OrderedDict.setdefault_path g d.

(** [gen_tree] inside [Group.tree], called on [self]: the mapping that
    [tree] hands to the drawing library. *)
Definition gen_tree (depth : nat) (store : gmap string bytes) (self : Group)
    : result OrderedDict.odict :=
  let n := Str.strip (name self) in
  let n := if Str.nonempty n then n else "/" in
  match
    visititems depth store self
      (λ p o d, (Ok (None : option unit), _gen_branch p o d))
      (OrderedDict.ODict [])
  with
  | (Ok _, d) => Ok (OrderedDict.ODict [(n, d)])
  | (Raise e, _) => Raise e
  end.

(** ** Opening groups *)

(** [zarr.hierarchy.group], called with a store object (which
    [_handle_store_arg] returns as it is). [contains_group(store)]
    without a path is the check at the root. *)
Definition group (overwrite chunk_store : bool) (synchronizer : option Sync)
    (path : string) : M Group :=
  store ← get_store;
  let path := normalize_storage_path path in
  (* require group *)
  _ ← (if overwrite || negb (contains_group store "")
       then init_group path chunk_store overwrite
       else mret ());
  Group_new path false chunk_store synchronizer.

(** [zarr.hierarchy.open_group], called with a store object. *)
Definition open_group (mode : string) (synchronizer : option Sync)
    (path : string) : M Group :=
  store ← get_store;
  let path := normalize_storage_path path in
  (* ensure store is initialized *)
  _ ← (if bool_decide (mode ∈ ["r"; "r+"]) then
         if contains_array store path then raise (ContainsArrayError path)
         else if negb (contains_group store path)
              then raise (GroupNotFoundError path)
              else mret ()
       else if bool_decide (mode = "w") then init_group path false true
       else if bool_decide (mode = "a") then
         if contains_array store path then raise (ContainsArrayError path)
         else if negb (contains_group store path)
              then init_group path false false
              else mret ()
       else if bool_decide (mode ∈ ["w-"; "x"]) then
         if contains_array store path then raise (ContainsArrayError path)
         else if contains_group store path
              then raise (ContainsGroupError path)
              else init_group path false false
       else mret ());
  (* determine read only status *)
  let read_only := bool_decide (mode = "r") in
  Group_new path read_only false synchronizer.

End Methods.
End Hierarchy.

(** * Stores, handles and traversals: what the properties speak of *)

Module Tree.
Section Tree.

Context (group_meta_key array_meta_key attrs_key : string).
Context (decode_group_metadata : bytes → option Z).
Context (decode_array_metadata : bytes → option (list Z * dtype)).

Local Abbreviation node_keys :=
  (Hierarchy.node_keys group_meta_key array_meta_key).
Local Abbreviation node_getitem :=
  (Hierarchy.node_getitem group_meta_key array_meta_key attrs_key
     decode_group_metadata decode_array_metadata).

(** The segments of a path, empty ones left out. *)
Definition segments (path : string) : list string :=
  filter (λ seg, seg ≠ EmptyString) (Str.split path).

(** A key is well formed when none of its segments is empty: it neither
    starts nor ends with a separator and has no two in a row. *)
Definition wf_key (key : string) : Prop := EmptyString ∉ Str.split key.

Global Instance wf_key_dec (key : string) : Decision (wf_key key).
Proof. unfold wf_key. apply _. Defined.

Definition store_wf (store : gmap string bytes) : Prop :=
  map_Forall (λ key _, wf_key key) store.

Global Instance store_wf_dec (store : gmap string bytes) :
  Decision (store_wf store).
Proof. unfold store_wf. apply _. Defined.

(** Every sentinel holds metadata that its decoder accepts. *)
Definition decodable (store : gmap string bytes) : Prop :=
  map_Forall
    (λ key meta_bytes,
       (Str.has_suffix group_meta_key key = true →
        is_Some (decode_group_metadata meta_bytes)) ∧
       (Str.has_suffix array_meta_key key = true →
        is_Some (decode_array_metadata meta_bytes)))
    store.

Global Instance decodable_dec (store : gmap string bytes) :
  Decision (decodable store).
Proof. unfold decodable. apply _. Defined.

(** The length of the longest key. *)
Definition max_key_length (store : gmap string bytes) : nat :=
  max_list (String.length <$> elements (dom store)).

(** What the constructors establish of a handle. *)
Definition handle_ok (g : Group) : Prop :=
  normalize_storage_path (_path g) = _path g ∧
  _key_prefix g = _path_to_prefix (_path g).

Definition node_ok (o : Node) : Prop :=
  match o with
  | NGroup g => handle_ok g
  | NArray a => normalize_storage_path (a_path a) = a_path a
  end.

(** The children of an object: what its keys give, in the order of the
    keys. *)
Definition children_of (store : gmap string bytes) (o : Node)
    (children : list Node) : Prop :=
  Forall2 (λ key child, node_getitem store o key = Ok child)
    (node_keys store o) children.

(** Depth-first pre-order traversal of a forest, following the words of
    the spec (4.4): an object comes first, then the traversal of its
    children in the order of their names, then the objects that follow
    it. *)
Inductive preorder (store : gmap string bytes)
    : list Node → list Node → Prop :=
| preorder_nil : preorder store [] []
| preorder_cons o os children below after :
    children_of store o children →
    preorder store children below →
    preorder store os after →
    preorder store (o :: os) (o :: below ++ after).

(** An object is a child of another when one of its keys gives it, and
    a descendant when a chain of children leads to it. *)
Definition child (store : gmap string bytes) (o c : Node) : Prop :=
  ∃ key, key ∈ node_keys store o ∧ node_getitem store o key = Ok c.

Inductive descends (store : gmap string bytes) : Node → Node → Prop :=
| descends_child o c : child store o c → descends store o c
| descends_step o c x :
    child store o c → descends store c x → descends store o x.

(** The order of a pre-order traversal on lists of segments: a path
    comes before the paths below it, and otherwise the first segment
    that differs decides. *)
Inductive seg_lt : list string → list string → Prop :=
| seg_lt_nil k r : seg_lt [] (k :: r)
| seg_lt_head k1 k2 r1 r2 : Str.lt k1 k2 → seg_lt (k1 :: r1) (k2 :: r2)
| seg_lt_tail k r1 r2 : seg_lt r1 r2 → seg_lt (k :: r1) (k :: r2).

(** The segments of the path of an object. *)
Definition node_segments (o : Node) : list string :=
  segments (Hierarchy.node_path o).

(** Two lists of segments are those of siblings, the first one first,
    when they differ in their last segment only, and the last segment
    of the first is the smaller. *)
Definition sib_lt (s1 s2 : list string) : Prop :=
  ∃ p k1 k2, s1 = p ++ [k1] ∧ s2 = p ++ [k2] ∧ Str.lt k1 k2.

(** The visitor returns [None] on every object of a list, taking its
    state from [s] to [s']. *)
Fixpoint continues {A S R : Type} (func : A → S → result (option R) * S)
    (objs : list A) (s s' : S) : Prop :=
  match objs with
  | [] => s' = s
  | o :: rest => ∃ s1, func o s = (Ok None, s1) ∧ continues func rest s1 s'
  end.

(** A visitor that also records what it is called with. *)
Definition traced {A S R : Type} (func : A → S → result (option R) * S)
    (a : A) (st : list A * S) : result (option R) * (list A * S) :=
  let '(r, s') := func a st.2 in (r, (st.1 ++ [a], s')).

End Tree.
End Tree.

(** * A concrete instance

    The sentinel key names of the zarr storage format, together with
    small stand-ins for the collaborators, to run the methods on
    concrete stores. *)

Module Demo.

Definition group_meta_key : string := ".zgroup".
Definition array_meta_key : string := ".zarray".
Definition attrs_key : string := ".zattrs".

(** Group metadata holds the format number in its first byte. *)
Definition decode_group_metadata (b : bytes) : option Z :=
  match b with
  | v :: _ => Some (Z.of_N (Byte.to_N v))
  | [] => None
  end.

Definition dtype_of_byte (b : Byte.byte) : option dtype :=
  match Byte.to_N b with
  | 0%N => Some b1 | 1%N => Some i1 | 2%N => Some i2 | 3%N => Some i4
  | 4%N => Some i8 | 5%N => Some u1 | 6%N => Some u2 | 7%N => Some u4
  | 8%N => Some u8 | 9%N => Some f2 | 10%N => Some f4 | 11%N => Some f8
  | _ => None
  end.

Definition byte_of_dtype (d : dtype) : Byte.byte :=
  match d with
  | b1 => Byte.x00 | i1 => Byte.x01 | i2 => Byte.x02 | i4 => Byte.x03
  | i8 => Byte.x04 | u1 => Byte.x05 | u2 => Byte.x06 | u4 => Byte.x07
  | u8 => Byte.x08 | f2 => Byte.x09 | f4 => Byte.x0a | f8 => Byte.x0b
  end.

(** Array metadata holds the dtype in its first byte and one byte per
    dimension after it. *)
Definition decode_array_metadata (b : bytes) : option (list Z * dtype) :=
  match b with
  | d :: dims =>
      match dtype_of_byte d with
      | Some dt => Some ((λ n, Z.of_N (Byte.to_N n)) <$> dims, dt)
      | None => None
      end
  | [] => None
  end.

Definition normalize_shape (shape : shape_arg) : list Z :=
  match shape with
  | ShapeInt n => [n]
  | ShapeTuple dims => dims
  end.

(** Writes the group sentinel, unless an array is in the way. *)
Definition init_group (path : string) (chunk_store overwrite : bool) : M unit :=
  λ w,
    if contains_array array_meta_key (w_store w) path && negb overwrite
    then (Raise (ContainsArrayError path), w)
    else
      let store := if overwrite then rmdir (w_store w) path else w_store w in
      (Ok (),
       mkWorld (<[_path_to_prefix path +:+ group_meta_key := [Byte.x02]]> store)
         (w_chunk_store w) (w_trace w)).

Definition byte_of_Z (z : Z) : Byte.byte :=
  default Byte.x00 (Byte.of_N (Z.to_N z)).

(** Writes the array sentinel with the requested shape and dtype. *)
Definition creation (f : factory) (args : creation_args) : M Array :=
  λ w,
    let kw := ca_kwargs args in
    let shape := normalize_shape (default (ShapeTuple []) (kw_shape kw)) in
    let dt := np_dtype (default None (kw_dtype kw)) in
    let path := ca_path args in
    if contains_group group_meta_key (w_store w) path
       && negb (default false (kw_overwrite kw))
    then (Raise (ContainsGroupError path), w)
    else
      (Ok (mkArray path false (ca_chunk_store args)
             (default None (kw_synchronizer kw))
             (default true (kw_cache_metadata kw)) shape dt),
       mkWorld
         (<[_path_to_prefix path +:+ array_meta_key :=
              byte_of_dtype dt :: (byte_of_Z <$> shape)]> (w_store w))
         (w_chunk_store w) (w_trace w)).

Definition group_bytes : bytes := [Byte.x02].

(** The hierarchy of the docstrings: groups [foo] and [bar] under the
    root, groups [bar/baz] and [bar/quux], and an array
    [bar/quux/baz] of shape (100,) and dtype float32. *)
Definition store1 : gmap string bytes :=
  list_to_map
    [ (".zgroup", group_bytes);
      ("foo/.zgroup", group_bytes);
      ("bar/.zgroup", group_bytes);
      ("bar/baz/.zgroup", group_bytes);
      ("bar/quux/.zgroup", group_bytes);
      ("bar/quux/baz/.zarray", [Byte.x0a; Byte.x64]);
      ("bar/quux/baz/0", [Byte.x00; Byte.x01]);
      ("stray", [Byte.x00]) ].

Definition world1 : World := mkWorld store1 ∅ [].

Definition root : Group := mkGroup "" "" false false None 2 ".zattrs".
Definition root_ro : Group := mkGroup "" "" true false None 2 ".zattrs".
Definition root_sync : Group := mkGroup "" "" false false (Some 7) 2 ".zattrs".
Definition bar : Group := mkGroup "bar" "bar/" false false None 2 "bar/.zattrs".

(** The handle of the array [bar/quux/baz]. *)
Definition demo_baz : Array :=
  mkArray "bar/quux/baz" false false None true [100%Z] f4.

End Demo.

(** * Properties *)

(** * Facts on strings *)

Module StrFacts.
Import Str.

Lemma append_cons (c : ascii) (s t : string) :
  String c s +:+ t = String c (s +:+ t).
Proof. reflexivity. Qed.

Lemma append_nil_l (s : string) : "" +:+ s = s.
Proof. reflexivity. Qed.

Lemma append_nil_r (s : string) : s +:+ "" = s.
Proof. induction s as [|c s IH]; [done|]. by rewrite append_cons, IH. Qed.

Lemma append_assoc (s1 s2 s3 : string) : (s1 +:+ s2) +:+ s3 = s1 +:+ s2 +:+ s3.
Proof. induction s1 as [|c s1 IH]; [done|]. by rewrite !append_cons, IH. Qed.

Lemma length_append (s1 s2 : string) :
  String.length (s1 +:+ s2) = String.length s1 + String.length s2.
Proof. induction s1 as [|c s1 IH]; [done|]. rewrite append_cons. simpl. by rewrite IH. Qed.

Lemma strip_prefix_app (p s : string) : strip_prefix p (p +:+ s) = Some s.
Proof.
  induction p as [|c p IH]; [done|].
  rewrite append_cons. simpl. by rewrite Ascii.eqb_refl.
Qed.

Lemma strip_prefix_Some (p s r : string) :
  strip_prefix p s = Some r ↔ s = p +:+ r.
Proof.
  split; [|intros ->; apply strip_prefix_app].
  revert s. induction p as [|c p IH]; intros s; simpl.
  - by intros [= ->].
  - destruct s as [|b s]; [done|].
    destruct (Ascii.eqb_spec c b) as [->|]; [|done].
    intros ->%IH. done.
Qed.

End StrFacts.

Module SplitFacts.
Import Str StrFacts.

Lemma is_sep_true (c : ascii) : is_sep c = true → c = "/"%char.
Proof. unfold is_sep. by intros ?%Ascii.eqb_eq. Qed.

Lemma split_not_nil (s : string) : split s ≠ [].
Proof.
  destruct s as [|c s]; simpl; [done|].
  destruct (is_sep c); [done|]. by destruct (split s).
Qed.

Lemma split_cons_other (c : ascii) (s : string) :
  is_sep c = false →
  ∃ seg rest, split s = seg :: rest ∧ split (String c s) = String c seg :: rest.
Proof.
  intros Hc. simpl. rewrite Hc.
  destruct (split s) as [|seg rest] eqn:Hs; [by apply split_not_nil in Hs|].
  by exists seg, rest.
Qed.

Lemma join_cons (seg : string) (segs : list string) :
  segs ≠ [] → join (seg :: segs) = seg +:+ "/" +:+ join segs.
Proof. by destruct segs. Qed.

Lemma join_split (s : string) : join (split s) = s.
Proof.
  induction s as [|c s IH]; [done|].
  destruct (is_sep c) eqn:Hc.
  - simpl. rewrite Hc. rewrite join_cons by apply split_not_nil.
    rewrite IH. by apply is_sep_true in Hc as ->.
  - destruct (split_cons_other c s Hc) as (seg & rest & Hs & ->).
    rewrite Hs in IH. destruct rest as [|seg' rest].
    + change (seg = s) in IH. by rewrite <-IH.
    + rewrite join_cons in IH by done. rewrite join_cons by done.
      rewrite append_cons. by rewrite IH.
Qed.

Lemma split_app_sep (s1 s2 : string) :
  split (s1 +:+ "/" +:+ s2) = split s1 ++ split s2.
Proof.
  induction s1 as [|c s1 IH]; [done|].
  rewrite append_cons. simpl. rewrite IH.
  destruct (is_sep c); [done|].
  destruct (split s1) eqn:Hs; [by apply split_not_nil in Hs|done].
Qed.

Lemma split_sep_free (s : string) : has_sep s = false → split s = [s].
Proof.
  induction s as [|c s IH]; [done|]. simpl.
  intros [Hc Hs]%orb_false_elim. rewrite Hc, IH; done.
Qed.

Lemma split_segments_sep_free (s seg : string) :
  seg ∈ split s → has_sep seg = false.
Proof.
  revert seg. induction s as [|c s IH]; intros seg; simpl.
  - by intros ->%list_elem_of_singleton.
  - destruct (is_sep c) eqn:Hc.
    + intros [->|Hin]%elem_of_cons; [done|by apply IH].
    + destruct (split s) as [|seg' rest] eqn:Hs.
      * intros ->%list_elem_of_singleton. simpl. by rewrite Hc.
      * intros [->|Hin]%elem_of_cons.
        -- simpl. rewrite Hc. apply IH. by left.
        -- apply IH. by right.
Qed.

Lemma head_split (s n : string) :
  head (split s) = Some n →
  has_sep n = false ∧ (s = n ∨ ∃ rest, s = n +:+ "/" +:+ rest).
Proof.
  intros Hh. destruct (split s) as [|n' rest] eqn:Hs; [done|].
  injection Hh as ->. split.
  - apply (split_segments_sep_free s). rewrite Hs. by left.
  - rewrite <-(join_split s), Hs. destruct rest as [|seg rest]; [by left|].
    right. exists (join (seg :: rest)). by rewrite join_cons.
Qed.

Lemma join_app (l1 l2 : list string) :
  l1 ≠ [] → l2 ≠ [] → join (l1 ++ l2) = join l1 +:+ "/" +:+ join l2.
Proof.
  intros H1 H2. induction l1 as [|x l1 IH]; [done|].
  destruct l1 as [|y l1].
  - simpl (_ ++ _). by rewrite join_cons.
  - rewrite <-app_comm_cons, !join_cons, IH by done.
    by rewrite !append_assoc.
Qed.

Lemma split_join (segs : list string) :
  segs ≠ [] → Forall (λ seg, has_sep seg = false) segs →
  split (join segs) = segs.
Proof.
  intros Hne Hall. induction Hall as [|x l Hx Hl IH]; [done|].
  destruct l as [|y l].
  - by apply split_sep_free.
  - rewrite join_cons, split_app_sep, IH, split_sep_free by done. done.
Qed.

Lemma join_nil_inv (segs : list string) :
  Forall (λ seg, seg ≠ "") segs → join segs = "" → segs = [].
Proof.
  intros Hall. destruct Hall as [|x l Hx Hl]; [done|].
  destruct l as [|y l]; [done|]. rewrite join_cons by done.
  destruct x; done.
Qed.

Lemma sep_free_not_starts (k : string) :
  has_sep k = false → starts_with_sep k = false.
Proof. destruct k as [|c k]; [done|]. simpl. by intros [? ?]%orb_false_elim. Qed.

Lemma has_suffix_app (suffix pre : string) :
  has_suffix suffix (pre +:+ suffix) = true.
Proof.
  induction pre as [|c pre IH].
  - rewrite append_nil_l. destruct suffix; [done|].
    simpl. by rewrite bool_decide_eq_true_2.
  - rewrite append_cons. simpl. rewrite IH. apply orb_true_r.
Qed.

Lemma cut_suffix_app (suffix pre : string) :
  cut_suffix suffix (pre +:+ suffix) = Some pre.
Proof.
  induction pre as [|c pre IH].
  - rewrite append_nil_l. destruct suffix; [done|].
    simpl. by rewrite bool_decide_eq_true_2.
  - rewrite append_cons. simpl. rewrite IH.
    rewrite bool_decide_eq_false_2; [done|].
    intros Heq. apply (f_equal String.length) in Heq.
    simpl in Heq. rewrite length_append in Heq. lia.
Qed.

(** ** Segments and normal paths *)

Import Tree.

Lemma segments_nonempty (s : string) : Forall (λ seg, seg ≠ "") (segments s).
Proof. apply Forall_forall. by intros seg [? _]%list_elem_of_filter. Qed.

Lemma segments_sep_free (s : string) :
  Forall (λ seg, has_sep seg = false) (segments s).
Proof.
  apply Forall_forall. intros seg [_ Hin]%list_elem_of_filter.
  by eapply split_segments_sep_free.
Qed.

Lemma filter_nonempty_id (segs : list string) :
  Forall (λ seg, seg ≠ "") segs → filter (λ seg, seg ≠ "") segs = segs.
Proof.
  induction 1 as [|x l Hx Hl IH]; [done|].
  by rewrite filter_cons_True, IH.
Qed.

Lemma normalize_nil : normalize_storage_path "" = "".
Proof. done. Qed.

Lemma normalize_idemp (s : string) :
  normalize_storage_path (normalize_storage_path s) = normalize_storage_path s.
Proof.
  unfold normalize_storage_path. fold (segments s).
  destruct (segments s) as [|x l] eqn:Hs; [done|].
  rewrite split_join; [|done|rewrite <-Hs; apply segments_sep_free].
  rewrite filter_nonempty_id; [done|]. rewrite <-Hs. apply segments_nonempty.
Qed.

Lemma normal_split (p : string) :
  normalize_storage_path p = p → p ≠ "" →
  split p = segments p ∧ segments p ≠ [].
Proof.
  intros Hn Hp. unfold normalize_storage_path in Hn. fold (segments p) in Hn.
  assert (Hne : segments p ≠ []).
  { intros Hnil. rewrite Hnil in Hn. by destruct Hp. }
  split; [|done].
  rewrite <-Hn at 1. apply split_join; [done|apply segments_sep_free].
Qed.

Lemma normal_wf_key (p : string) :
  normalize_storage_path p = p → p ≠ "" → wf_key p.
Proof.
  intros Hn Hp. destruct (normal_split p Hn Hp) as [Hs _].
  unfold wf_key. rewrite Hs. intros [? _]%list_elem_of_filter. done.
Qed.

Lemma normalize_segment (k : string) :
  k ≠ "" → has_sep k = false → normalize_storage_path k = k.
Proof.
  intros Hk Hs. unfold normalize_storage_path.
  rewrite split_sep_free by done. by rewrite filter_cons_True.
Qed.

Lemma segments_segment (k : string) :
  k ≠ "" → has_sep k = false → segments k = [k].
Proof.
  intros Hk Hs. unfold segments.
  rewrite split_sep_free by done. by rewrite filter_cons_True.
Qed.

Lemma segments_child (p k : string) :
  normalize_storage_path p = p → p ≠ "" → k ≠ "" → has_sep k = false →
  segments (p +:+ "/" +:+ k) = segments p ++ [k].
Proof.
  intros Hn Hp Hk Hs. destruct (normal_split p Hn Hp) as [Hsp Hne].
  unfold segments at 1.
  rewrite split_app_sep, Hsp, split_sep_free, filter_app by done.
  rewrite filter_nonempty_id by apply segments_nonempty.
  by rewrite filter_cons_True.
Qed.

Lemma normalize_child (p k : string) :
  normalize_storage_path p = p → p ≠ "" → k ≠ "" → has_sep k = false →
  normalize_storage_path (p +:+ "/" +:+ k) = p +:+ "/" +:+ k.
Proof.
  intros Hn Hp Hk Hs. destruct (normal_split p Hn Hp) as [Hsp Hne].
  unfold normalize_storage_path. fold (segments (p +:+ "/" +:+ k)).
  rewrite segments_child, join_app by done.
  unfold normalize_storage_path in Hn. fold (segments p) in Hn.
  by rewrite Hn.
Qed.

Lemma path_to_prefix_nil : _path_to_prefix "" = "".
Proof. done. Qed.

Lemma path_to_prefix_nonempty (p : string) :
  p ≠ "" → _path_to_prefix p = p +:+ "/".
Proof. by destruct p. Qed.

(** The path of a child: the prefix of the parent and the name. *)
Lemma child_path_facts (p k : string) :
  normalize_storage_path p = p → k ≠ "" → has_sep k = false →
  let c := _path_to_prefix p +:+ k in
  normalize_storage_path c = c ∧ c ≠ "" ∧
  segments c = segments p ++ [k] ∧
  String.length p < String.length c.
Proof.
  intros Hn Hk Hs c. unfold c. destruct (decide (p = "")) as [->|Hp].
  - rewrite path_to_prefix_nil, append_nil_l. split_and!; try done.
    + by apply normalize_segment.
    + by apply segments_segment.
    + destruct k; [done|simpl; lia].
  - rewrite path_to_prefix_nonempty, append_assoc by done. split_and!.
    + by apply normalize_child.
    + by destruct p.
    + by apply segments_child.
    + rewrite length_append. simpl. lia.
Qed.

(** ** Names listed under a prefix *)

Lemma elem_of_listdir (store : gmap string bytes) (path k : string) :
  k ∈ listdir store path ↔
  ∃ key suffix, key ∈ dom store ∧ key = _path_to_prefix path +:+ suffix ∧
    suffix ≠ "" ∧ head (split suffix) = Some k.
Proof.
  unfold listdir. rewrite elem_of_set_omap. unfold child_of. split.
  - intros (key & Hkey & Hc).
    destruct (strip_prefix _ key) as [[|c rest]|] eqn:Hs; try done.
    apply strip_prefix_Some in Hs. by exists key, (String c rest).
  - intros (key & suffix & Hkey & -> & Hne & Hh). eexists. split; [done|].
    rewrite strip_prefix_app. by destruct suffix.
Qed.

End SplitFacts.

Module Props.
Import Str StrFacts SplitFacts.

(** ** Sorting *)

Lemma sorted_Permutation (names : list string) : sorted names ≡ₚ names.
Proof. apply merge_sort_Permutation. Qed.

Lemma sorted_StronglySorted (names : list string) :
  StronglySorted String.le (sorted names).
Proof. apply (StronglySorted_merge_sort String.le). Qed.

Lemma sorted_sorted (names : list string) :
  StronglySorted String.le names → sorted names = names.
Proof.
  intros Hs. apply (StronglySorted_unique String.le); [|done|].
  - apply sorted_StronglySorted.
  - apply sorted_Permutation.
Qed.

Lemma StronglySorted_filter {A} (R : relation A) (P : A → Prop)
    `{∀ x, Decision (P x)} (l : list A) :
  StronglySorted R l → StronglySorted R (filter P l).
Proof.
  induction 1 as [|x l Hs IH Hall]; [constructor|].
  rewrite filter_cons. case_decide; [|done].
  constructor; [done|].
  apply Forall_forall. intros y [_ Hy]%list_elem_of_filter.
  by eapply Forall_forall in Hall.
Qed.

Section Properties.

Context (group_meta_key array_meta_key : string).

Local Abbreviation contains_array := (contains_array array_meta_key).
Local Abbreviation contains_group := (contains_group group_meta_key).
Local Abbreviation __iter__ := (Hierarchy.__iter__ group_meta_key array_meta_key).
Local Abbreviation __len__ := (Hierarchy.__len__ group_meta_key array_meta_key).
Local Abbreviation group_keys := (Hierarchy.group_keys group_meta_key).
Local Abbreviation array_keys := (Hierarchy.array_keys array_meta_key).

(** ** Members *)

Lemma listing_sorted (store : gmap string bytes) (path : string) :
  StronglySorted String.le (sorted (elements (listdir store path))).
Proof. apply sorted_StronglySorted. Qed.

Lemma listing_NoDup (store : gmap string bytes) (path : string) :
  NoDup (sorted (elements (listdir store path))).
Proof. rewrite sorted_Permutation. apply NoDup_elements. Qed.

Lemma elem_of_listing (store : gmap string bytes) (path key : string) :
  key ∈ sorted (elements (listdir store path)) ↔ key ∈ listdir store path.
Proof. rewrite sorted_Permutation. apply elem_of_elements. Qed.

(** C5. Iterating a group yields exactly the names listed under its
    prefix that classify as an array or as a group; the other names are
    left out and nothing is raised. A name so listed is the first
    segment of what follows the prefix in some key of the store, hence
    an immediate child name. The names come in lexicographic order, each
    once; and [__len__] is the number of names yielded. *)
Theorem iter_yields_sorted_members (store : gmap string bytes) (self : Group) :
  let members := __iter__ store self in
  (∀ key, key ∈ members ↔
     key ∈ listdir store (_path self) ∧
     (contains_array store (_key_prefix self +:+ key) = true ∨
      contains_group store (_key_prefix self +:+ key) = true)) ∧
  (∀ key, key ∈ listdir store (_path self) ↔
     has_sep key = false ∧
     ∃ suffix, _path_to_prefix (_path self) +:+ suffix ∈ dom store ∧
       suffix ≠ "" ∧
       (suffix = key ∨ ∃ rest, suffix = key +:+ "/" +:+ rest)) ∧
  StronglySorted String.le members ∧
  NoDup members ∧
  __len__ store self = length members.
Proof.
  intros members. unfold members, Hierarchy.__len__. split_and!; [| |..|done].
  - intros key. unfold Hierarchy.__iter__.
    rewrite list_elem_of_filter, elem_of_listing. simpl.
    rewrite orb_True, !Is_true_true. tauto.
  - intros key. rewrite elem_of_listdir. split.
    + intros (k & suffix & Hk & -> & Hne & Hh).
      destruct (head_split _ _ Hh) as [Hsep Hs]. split; [done|].
      by exists suffix.
    + intros (Hsep & suffix & Hk & Hne & Hs).
      exists (_path_to_prefix (_path self) +:+ suffix), suffix.
      split_and!; try done.
      destruct Hs as [->|[rest ->]].
      * by rewrite split_sep_free.
      * by rewrite split_app_sep, split_sep_free.
  - apply StronglySorted_filter, listing_sorted.
  - apply NoDup_filter, listing_NoDup.
Qed.

Lemma filter_or_Permutation {A} (P Q : A → Prop) `{∀ x, Decision (P x)}
    `{∀ x, Decision (Q x)} (l : list A) :
  (∀ x, x ∈ l → ¬ (P x ∧ Q x)) →
  filter (λ x, Q x ∨ P x) l ≡ₚ filter P l ++ filter Q l.
Proof.
  induction l as [|x l IH]; intros Hex; [done|].
  rewrite !filter_cons.
  assert (Hl : ∀ y, y ∈ l → ¬ (P y ∧ Q y)).
  { intros y Hy. apply Hex. by right. }
  specialize (IH Hl).
  assert (Hx : ¬ (P x ∧ Q x)) by (apply Hex; left).
  repeat case_decide; try tauto.
  - simpl. by f_equiv.
  - rewrite IH. apply Permutation_middle.
Qed.

(** C10. Where no path carries both sentinels, the member names are the
    disjoint union of the group names and the array names: the three
    sequences are sorted, the members are the sorted merge of the two
    typed sequences, and every member is in exactly one of them. *)
Theorem iter_is_disjoint_union_of_typed_keys
    (store : gmap string bytes) (self : Group) :
  (∀ path, ¬ (contains_array store path = true ∧
              contains_group store path = true)) →
  let members := __iter__ store self in
  let groups := group_keys store self in
  let arrays := array_keys store self in
  members ≡ₚ groups ++ arrays ∧
  members = sorted (groups ++ arrays) ∧
  StronglySorted String.le members ∧
  StronglySorted String.le groups ∧
  StronglySorted String.le arrays ∧
  (∀ key, key ∈ members →
     (key ∈ groups ∧ key ∉ arrays) ∨ (key ∈ arrays ∧ key ∉ groups)) ∧
  (∀ key, key ∈ groups ∨ key ∈ arrays → key ∈ members).
Proof.
  intros Hex members groups arrays.
  assert (Hperm : members ≡ₚ groups ++ arrays).
  { unfold members, groups, arrays, Hierarchy.__iter__, Hierarchy.group_keys,
      Hierarchy.array_keys.
    etrans; [|apply (filter_or_Permutation _ _)].
    - apply reflexive_eq. apply list_filter_iff. intros key. simpl.
      rewrite orb_True, !Is_true_true. tauto.
    - intros key _ [Hg Ha]. by apply (Hex (_key_prefix self +:+ key)). }
  assert (Hm : StronglySorted String.le members).
  { apply StronglySorted_filter, listing_sorted. }
  assert (Hg : StronglySorted String.le groups).
  { apply StronglySorted_filter, listing_sorted. }
  assert (Ha : StronglySorted String.le arrays).
  { apply StronglySorted_filter, listing_sorted. }
  split_and!; try done.
  - apply (StronglySorted_unique String.le); [done| |].
    + apply sorted_StronglySorted.
    + by rewrite sorted_Permutation.
  - intros key Hkey.
    assert (Hin := Hkey). rewrite Hperm in Hin.
    apply elem_of_app in Hin.
    assert (Hno : ¬ (key ∈ groups ∧ key ∈ arrays)).
    { intros [[Hkg _]%list_elem_of_filter [Hka _]%list_elem_of_filter].
      by apply (Hex (_key_prefix self +:+ key)). }
    tauto.
  - intros key Hkey. rewrite Hperm. by apply elem_of_app.
Qed.

End Properties.
End Props.

Module Guard.
Import Str StrFacts.

Section Properties.
Context (group_meta_key array_meta_key attrs_key : string).
Context (decode_group_metadata : bytes → option Z).
Context (decode_array_metadata : bytes → option (list Z * dtype)).
Context (normalize_shape : shape_arg → list Z).
Context (init_group : string → bool → bool → M unit).
Context (creation : factory → creation_args → M Array).

Local Abbreviation contains_array := (contains_array array_meta_key).
Local Abbreviation contains_group := (contains_group group_meta_key).
Local Abbreviation __contains__ :=
  (Hierarchy.__contains__ group_meta_key array_meta_key).
Local Abbreviation call :=
  (Hierarchy.call group_meta_key array_meta_key attrs_key
     decode_group_metadata decode_array_metadata normalize_shape init_group
     creation).
Local Abbreviation nosync :=
  (Hierarchy.nosync group_meta_key array_meta_key attrs_key
     decode_group_metadata decode_array_metadata normalize_shape init_group
     creation).
Local Abbreviation __delitem__ :=
  (Hierarchy.__delitem__ group_meta_key array_meta_key).

(** ** The mutation guard *)

Lemma write_op_read_only {A} (self : Group) (f : M A) (w : World) :
  _read_only self = true →
  Hierarchy._write_op group_meta_key self f w = (Raise ReadOnlyError, w).
Proof. intros Hro. unfold Hierarchy._write_op. by rewrite Hro. Qed.

Lemma returning_raise {A} (wrap : A → Hierarchy.retval) (m : M A) (w w' : World) e :
  m w = (Raise e, w') → Hierarchy.returning wrap m w = (Raise e, w').
Proof. intros Hm. unfold Hierarchy.returning, mbind, M_bind. by rewrite Hm. Qed.

(** C6. On a handle constructed read-only, every mutating call fails
    with [ReadOnlyError], and the world (store and chunk store, byte for
    byte, and the lock history) is left as it was. *)
Theorem read_only_handle_rejects_mutation
    (self : Group) (c : Hierarchy.mutation) (w : World) :
  _read_only self = true →
  call self c w = (Raise ReadOnlyError, w).
Proof.
  intros Hro.
  destruct c; simpl; apply returning_raise;
    unfold Hierarchy.create_group, Hierarchy.require_group,
      Hierarchy.create_dataset, Hierarchy.require_dataset, Hierarchy.create,
      Hierarchy.empty, Hierarchy.zeros, Hierarchy.ones, Hierarchy.full,
      Hierarchy.__setitem__, Hierarchy.array, Hierarchy.empty_like,
      Hierarchy.zeros_like, Hierarchy.ones_like, Hierarchy.full_like,
      Hierarchy.__delitem__;
    by apply write_op_read_only.
Qed.

Lemma returning_with_lock {A} (wrap : A → Hierarchy.retval) (sync : Sync)
    (key : string) (f : M A) (w : World) :
  Hierarchy.returning wrap (with_lock sync key f) w =
  with_lock sync key (Hierarchy.returning wrap f) w.
Proof.
  unfold Hierarchy.returning, with_lock, mbind, M_bind.
  destruct (f (log (Acquire sync key) w)) as [[a|e] w']; done.
Qed.

Lemma returning_write_op {A} (wrap : A → Hierarchy.retval) (self : Group) (f : M A)
    (w : World) :
  _read_only self = false →
  Hierarchy.returning wrap (Hierarchy._write_op group_meta_key self f) w =
  match _synchronizer self with
  | None => Hierarchy.returning wrap f w
  | Some sync =>
      with_lock sync group_meta_key (Hierarchy.returning wrap f) w
  end.
Proof.
  intros Hrw. unfold Hierarchy._write_op. rewrite Hrw.
  destruct (_synchronizer self); [apply returning_with_lock|done].
Qed.

Lemma call_guarded (self : Group) (c : Hierarchy.mutation) (w : World) :
  _read_only self = false →
  call self c w =
  match _synchronizer self with
  | None => nosync self c w
  | Some sync => with_lock sync group_meta_key (nosync self c) w
  end.
Proof.
  intros Hrw.
  destruct c; simpl;
    unfold Hierarchy.create_group, Hierarchy.require_group,
      Hierarchy.create_dataset, Hierarchy.require_dataset, Hierarchy.create,
      Hierarchy.empty, Hierarchy.zeros, Hierarchy.ones, Hierarchy.full,
      Hierarchy.__setitem__, Hierarchy.array, Hierarchy.empty_like,
      Hierarchy.zeros_like, Hierarchy.ones_like, Hierarchy.full_like,
      Hierarchy.__delitem__;
    by apply returning_write_op.
Qed.

(** C7. On a handle that is not read-only and has a synchronizer, every
    mutating call, whatever name it mutates, takes the lock of the one
    key [group_meta_key] before the guarded function runs and gives it
    back after it, whether the function returns or raises; the two lock
    events frame whatever the function does to the world. Without a
    synchronizer the function runs as it is. *)
Theorem write_op_locks_root_key
    (self : Group) (c : Hierarchy.mutation) (w : World) :
  _read_only self = false →
  (∀ sync, _synchronizer self = Some sync →
     ∃ r w',
       nosync self c (log (Acquire sync group_meta_key) w) = (r, w') ∧
       call self c w = (r, log (Release sync group_meta_key) w')) ∧
  (_synchronizer self = None → call self c w = nosync self c w).
Proof.
  intros Hrw. split.
  - intros sync Hsync.
    destruct (nosync self c (log (Acquire sync group_meta_key) w))
      as [r w'] eqn:Hrun.
    exists r, w'. split; [done|].
    rewrite call_guarded, Hsync by done.
    unfold with_lock. by rewrite Hrun.
  - intros Hnone. by rewrite call_guarded, Hnone.
Qed.

(** ** Deletion *)

Lemma rmdir_lookup_below (store : gmap string bytes) (path rest : string) :
  rmdir store path !! (_path_to_prefix path +:+ rest) = None.
Proof.
  unfold rmdir. apply map_lookup_filter_None. right. intros v _. simpl.
  by rewrite strip_prefix_app.
Qed.

Lemma rmdir_lookup_other (store : gmap string bytes) (path key : string) :
  strip_prefix (_path_to_prefix path) key = None →
  rmdir store path !! key = store !! key.
Proof.
  intros Hk. unfold rmdir. destruct (store !! key) as [v|] eqn:Hv.
  - by apply map_lookup_filter_Some.
  - apply map_lookup_filter_None. by left.
Qed.

Lemma path_to_prefix_below (path rest : string) :
  ∃ rest', ∀ key,
    _path_to_prefix (_path_to_prefix path +:+ rest) +:+ key =
    _path_to_prefix path +:+ rest'  +:+ key.
Proof.
  unfold _path_to_prefix at 1.
  destruct (_path_to_prefix path +:+ rest) as [|c s] eqn:Hd; simpl.
  - exists "". intros key.
    destruct (_path_to_prefix path); [done|discriminate].
  - exists (rest +:+ "/"). intros key.
    by rewrite <-Hd, !append_assoc.
Qed.

Lemma rmdir_not_contains (meta_key : string) (store : gmap string bytes)
    (path d : string) :
  d = path ∨ (∃ rest, d = _path_to_prefix path +:+ rest) →
  rmdir store path !! (_path_to_prefix d +:+ meta_key) = None.
Proof.
  intros [->|[rest ->]].
  - apply rmdir_lookup_below.
  - destruct (path_to_prefix_below path rest) as [rest' ->].
    apply rmdir_lookup_below.
Qed.

Lemma delitem_nosync_run (self : Group) (item : string) (w : World) :
  Hierarchy._delitem_nosync group_meta_key array_meta_key self item w =
  let path := Hierarchy._item_path self item in
  if contains_array (w_store w) path || contains_group (w_store w) path
  then (Ok (), mkWorld (rmdir (w_store w) path) (w_chunk_store w) (w_trace w))
  else (Raise (KeyError item), w).
Proof.
  unfold Hierarchy._delitem_nosync, mbind, M_bind, get_store. simpl.
  by destruct (contains_array _ _ || contains_group _ _).
Qed.

(** C8. On a handle that is not read-only, [__delitem__] of a name whose
    path classifies as an array or as a group removes every key below
    the prefix of that path and no other key, so that afterwards neither
    the path nor any path below it is an array or a group and no name
    resolving there is contained; the chunk store is not touched. For a
    name whose path is neither, it raises [KeyError] and store and
    chunk store are as before. *)
Theorem delitem_removes_subtree (self : Group) (item : string) (w : World) :
  _read_only self = false →
  let path := Hierarchy._item_path self item in
  let store := w_store w in
  (contains_array store path || contains_group store path = true →
     ∃ w', __delitem__ self item w = (Ok (), w') ∧
       w_store w' = rmdir store path ∧
       w_chunk_store w' = w_chunk_store w ∧
       (∀ rest, w_store w' !! (_path_to_prefix path +:+ rest) = None) ∧
       (∀ key, strip_prefix (_path_to_prefix path) key = None →
          w_store w' !! key = store !! key) ∧
       (∀ d, d = path ∨ (∃ rest, d = _path_to_prefix path +:+ rest) →
          contains_array (w_store w') d = false ∧
          contains_group (w_store w') d = false) ∧
       (∀ item',
          Hierarchy._item_path self item' = path ∨
          (∃ rest, Hierarchy._item_path self item' =
                     _path_to_prefix path +:+ rest) →
          __contains__ (w_store w') self item' = false)) ∧
  (contains_array store path || contains_group store path = false →
     ∃ w', __delitem__ self item w = (Raise (KeyError item), w') ∧
       w_store w' = store ∧ w_chunk_store w' = w_chunk_store w).
Proof.
  intros Hrw path store.
  assert (Hrun : ∃ w',
    __delitem__ self item w =
      (fst (Hierarchy._delitem_nosync group_meta_key array_meta_key self item w),
       w') ∧
    w_store w' =
      w_store (snd (Hierarchy._delitem_nosync group_meta_key array_meta_key
                      self item w)) ∧
    w_chunk_store w' =
      w_chunk_store (snd (Hierarchy._delitem_nosync group_meta_key
                            array_meta_key self item w))).
  { unfold Hierarchy.__delitem__, Hierarchy._write_op. rewrite Hrw.
    destruct (_synchronizer self) as [sync|].
    - unfold with_lock. rewrite !delitem_nosync_run. simpl.
      destruct (contains_array _ _ || contains_group _ _);
        eexists; split; done.
    - destruct (Hierarchy._delitem_nosync _ _ _ _ _) as [r w'].
      by exists w'. }
  destruct Hrun as (w' & Hrun & Hst & Hch).
  rewrite delitem_nosync_run in Hrun, Hst, Hch.
  cbv zeta in Hrun, Hst, Hch. fold path store in Hrun, Hst, Hch.
  split; intros Hc; rewrite Hc in Hrun, Hst, Hch; simpl in *;
    exists w'; split_and!; try done.
  - intros rest. rewrite Hst. apply rmdir_lookup_below.
  - intros key Hkey. rewrite Hst. by apply rmdir_lookup_other.
  - intros d Hd. rewrite Hst. unfold Storage.contains_array, Storage.contains_group.
    rewrite !bool_decide_eq_false, !rmdir_not_contains by done.
    split; by intros [? ?].
  - intros item' Hitem. unfold Hierarchy.__contains__. rewrite Hst.
    unfold Storage.contains_array, Storage.contains_group.
    apply orb_false_intro; rewrite bool_decide_eq_false,
      rmdir_not_contains by done; by intros [? ?].
Qed.

End Properties.
End Guard.

Module Dataset.
Import Str StrFacts.

Lemma np_can_cast_refl (d : dtype) : np_can_cast d d = true.
Proof. by destruct d. Qed.

Section Properties.
Context (group_meta_key array_meta_key attrs_key : string).
Context (decode_group_metadata : bytes → option Z).
Context (decode_array_metadata : bytes → option (list Z * dtype)).
Context (normalize_shape : shape_arg → list Z).
Context (init_group : string → bool → bool → M unit).
Context (creation : factory → creation_args → M Array).

Local Abbreviation contains_array := (contains_array array_meta_key).
Local Abbreviation contains_group := (contains_group group_meta_key).
Local Abbreviation Group_new :=
  (Hierarchy.Group_new group_meta_key array_meta_key attrs_key
     decode_group_metadata).
Local Abbreviation Array_init :=
  (Hierarchy.Array_init array_meta_key decode_array_metadata).
Local Abbreviation call :=
  (Hierarchy.call group_meta_key array_meta_key attrs_key
     decode_group_metadata decode_array_metadata normalize_shape init_group
     creation).
Local Abbreviation _require_dataset_nosync :=
  (Hierarchy._require_dataset_nosync array_meta_key decode_array_metadata
     normalize_shape creation).
Local Abbreviation require_dataset :=
  (Hierarchy.require_dataset group_meta_key array_meta_key
     decode_array_metadata normalize_shape creation).

(** ** Construction *)

(** C9. Constructing a group handle fails with [ContainsArrayError]
    when the path denotes an array; fails with [GroupNotFoundError] when
    it does not and no group sentinel exists at the path; never changes
    the world; and returns a handle only when the group sentinel is
    present and the path is not an array. *)
Theorem group_constructor_is_a_guarded_view
    (path : string) (read_only chunk_store : bool)
    (synchronizer : option Sync) (w : World) :
  let store := w_store w in
  let p := normalize_storage_path path in
  let new := Group_new path read_only chunk_store synchronizer w in
  (contains_array store p = true →
     new = (Raise (ContainsArrayError path), w)) ∧
  (contains_array store p = false → contains_group store p = false →
     new = (Raise (GroupNotFoundError path), w)) ∧
  snd new = w ∧
  (∀ g, fst new = Ok g →
     contains_group store p = true ∧ contains_array store p = false ∧
     _path g = p ∧ _read_only g = read_only).
Proof.
  intros store p new.
  assert (Hnew : new =
    (Hierarchy.__init__ group_meta_key array_meta_key attrs_key
       decode_group_metadata store path read_only chunk_store synchronizer,
     w)) by done.
  rewrite Hnew. clear Hnew new. unfold Hierarchy.__init__. fold p.
  assert (Hg : contains_group store p =
    bool_decide (is_Some (store !!
      ((if nonempty p then p +:+ "/" else "") +:+ group_meta_key)))) by done.
  rewrite Hg. clear Hg.
  destruct (contains_array store p); simpl.
  { split_and!; done. }
  destruct (store !! _) as [b|] eqn:Hb.
  - rewrite bool_decide_eq_true_2 by (by exists b).
    split_and!; try done.
    destruct (decode_group_metadata b); [|done].
    by intros g [= <-].
  - rewrite bool_decide_eq_false_2 by (by intros [? ?]).
    split_and!; done.
Qed.

(** ** [require_dataset] on an existing array *)

Lemma dtype_guard_same (exact : bool) (d : dtype) : dtype_guard exact d d = true.
Proof.
  destruct exact; simpl; [by apply bool_decide_eq_true|apply np_can_cast_refl].
Qed.

Lemma require_dataset_existing (self : Group) (name : string)
    (shape : shape_arg) (dt : option dtype) (exact : bool) (kw : kwargs)
    (w : World) (a : Array) :
  let path := Hierarchy._item_path self name in
  contains_array (w_store w) path = true →
  Array_init (w_store w) path (_read_only self) (_chunk_store self)
    (default (_synchronizer self) (kw_synchronizer kw))
    (default true (kw_cache_metadata kw)) = Ok a →
  _require_dataset_nosync self name shape dt exact kw w =
  if bool_decide (normalize_shape shape ≠ a_shape a)
  then (Raise (TypeError "shapes do not match"), w)
  else if dtype_guard exact (np_dtype dt) (a_dtype a) then (Ok a, w)
  else if exact then (Raise (TypeError "dtypes do not match exactly"), w)
  else (Raise (TypeError "dtypes cannot be safely cast"), w).
Proof.
  intros path Hc Ha.
  unfold Hierarchy._require_dataset_nosync, mbind, M_bind, get_store, lift.
  fold path. simpl. rewrite Hc, Ha.
  case_bool_decide; [done|].
  unfold dtype_guard. destruct exact.
  - repeat case_bool_decide; done.
  - by destruct (np_can_cast _ _).
Qed.

(** C2, as amended. Where an array exists at the name,
    [require_dataset] through a handle that is not read-only returns
    the handle of that array when the requested shape equals the stored
    shape and the requested dtype is the stored one, whatever [exact]
    is. Nothing is created again: the store and the chunk store are
    left as they were, and the world differs only by the lock of a
    synchronized group, taken and given back. A second call with the
    same arguments returns the same handle. When the requested shape
    differs from the stored shape the call raises [TypeError]; through
    a read-only handle it raises [ReadOnlyError] and the world is left
    as it was. *)
Theorem require_dataset_returns_existing_on_same_shape
    (self : Group) (name : string) (shape : shape_arg) (dt : option dtype)
    (exact : bool) (kw : kwargs) (w : World) (a : Array) :
  let path := Hierarchy._item_path self name in
  let require := require_dataset self name shape dt exact kw in
  let locked := λ w : World,
    match _synchronizer self with
    | None => w
    | Some sync =>
        log (Release sync group_meta_key) (log (Acquire sync group_meta_key) w)
    end in
  contains_array (w_store w) path = true →
  Array_init (w_store w) path (_read_only self) (_chunk_store self)
    (default (_synchronizer self) (kw_synchronizer kw))
    (default true (kw_cache_metadata kw)) = Ok a →
  (_read_only self = true → require w = (Raise ReadOnlyError, w)) ∧
  (_read_only self = false →
   normalize_shape shape = a_shape a → np_dtype dt = a_dtype a →
     require w = (Ok a, locked w) ∧
     (_ ← require; require) w = (Ok a, locked (locked w)) ∧
     w_store (locked w) = w_store w ∧
     w_chunk_store (locked w) = w_chunk_store w) ∧
  (_read_only self = false →
   normalize_shape shape ≠ a_shape a →
     require w = (Raise (TypeError "shapes do not match"), locked w)).
Proof.
  intros path require locked Hc Ha.
  assert (Hguard : _read_only self = false → ∀ w0 r,
    (∀ w1, w_store w1 = w_store w0 →
       _require_dataset_nosync self name shape dt exact kw w1 = (r, w1)) →
    require w0 = (r, locked w0)).
  { intros Hro w0 r Hbody.
    unfold require, locked, Hierarchy.require_dataset, Hierarchy._write_op.
    rewrite Hro. destruct (_synchronizer self) as [sync|].
    - unfold with_lock. by rewrite Hbody.
    - by apply Hbody. }
  assert (Hstore : ∀ w0, w_store (locked w0) = w_store w0).
  { intros w0. unfold locked. by destruct (_synchronizer self). }
  split_and!.
  - intros Hro. unfold require, Hierarchy.require_dataset.
    by apply Guard.write_op_read_only.
  - intros Hro Hs Hd.
    assert (Hbody : ∀ w1, w_store w1 = w_store w →
      _require_dataset_nosync self name shape dt exact kw w1 = (Ok a, w1)).
    { intros w1 Hw1.
      rewrite (require_dataset_existing self name shape dt exact kw w1 a)
        by (by rewrite Hw1).
      rewrite bool_decide_eq_false_2 by (by intros ?).
      by rewrite Hd, dtype_guard_same. }
    assert (Hrun : ∀ w0, w_store w0 = w_store w →
      require w0 = (Ok a, locked w0)).
    { intros w0 Hw0. apply Hguard; [done|].
      intros w1 Hw1. apply Hbody. by rewrite Hw1. }
    split_and!.
    + by apply Hrun.
    + unfold mbind, M_bind. rewrite Hrun by done. apply Hrun, Hstore.
    + apply Hstore.
    + unfold locked. by destruct (_synchronizer self).
  - intros Hro Hs. apply Hguard; [done|]. intros w1 Hw1.
    rewrite (require_dataset_existing self name shape dt exact kw w1 a)
      by (by rewrite Hw1).
    by rewrite bool_decide_eq_true_2.
Qed.

End Properties.

(** ** [require_dataset] on the concrete store *)

Local Abbreviation demo_require :=
  (Hierarchy._require_dataset_nosync Demo.array_meta_key
     Demo.decode_array_metadata Demo.normalize_shape Demo.creation).
Local Abbreviation demo_Array_init :=
  (Hierarchy.Array_init Demo.array_meta_key Demo.decode_array_metadata).

Local Abbreviation demo_require_dataset :=
  (Hierarchy.require_dataset Demo.group_meta_key Demo.array_meta_key
     Demo.decode_array_metadata Demo.normalize_shape Demo.creation).

(** C1. The array [bar/quux/baz] is stored with dtype float32. A
    request for int16 with [exact=False] is granted, though float32 is
    not safely convertible to int16; a request for float64 is refused,
    though float32 is safely convertible to float64: the check casts the
    requested dtype to the stored one. This is so for
    [_require_dataset_nosync] and for [require_dataset] on a handle
    that is not read-only. *)
Theorem require_dataset_casts_requested_to_stored :
  demo_Array_init Demo.store1 "bar/quux/baz" false false None true
    = Ok Demo.demo_baz ∧
  np_can_cast (a_dtype Demo.demo_baz) i2 = false ∧
  demo_require Demo.root "bar/quux/baz" (ShapeInt 100) (Some i2) false
    no_kwargs Demo.world1 = (Ok Demo.demo_baz, Demo.world1) ∧
  demo_require_dataset Demo.root "bar/quux/baz" (ShapeInt 100) (Some i2)
    false no_kwargs Demo.world1 = (Ok Demo.demo_baz, Demo.world1) ∧
  np_can_cast (a_dtype Demo.demo_baz) f8 = true ∧
  demo_require Demo.root "bar/quux/baz" (ShapeInt 100) (Some f8) false
    no_kwargs Demo.world1
    = (Raise (TypeError "dtypes cannot be safely cast"), Demo.world1) ∧
  demo_require_dataset Demo.root "bar/quux/baz" (ShapeInt 100) (Some f8)
    false no_kwargs Demo.world1
    = (Raise (TypeError "dtypes cannot be safely cast"), Demo.world1).
Proof. split_and!; by vm_compute. Qed.

(** Equal shapes are not enough: the handle is not read-only, the
    shape requested for [bar/quux/baz] is the stored one, and yet
    [require_dataset] returns no handle, because the dtype requested
    with [exact=True] is not the stored one. *)
Lemma require_dataset_same_shape_may_fail :
  ¬ (∀ (self : Group) (name : string) (shape : shape_arg)
       (dt : option dtype) (exact : bool) (kw : kwargs) (w : World)
       (a : Array),
       _read_only self = false →
       contains_array Demo.array_meta_key (w_store w)
         (Hierarchy._item_path self name) = true →
       demo_Array_init (w_store w) (Hierarchy._item_path self name)
         (_read_only self) (_chunk_store self)
         (default (_synchronizer self) (kw_synchronizer kw))
         (default true (kw_cache_metadata kw)) = Ok a →
       Demo.normalize_shape shape = a_shape a →
       (demo_require_dataset self name shape dt exact kw w).1 = Ok a).
Proof.
  intros H.
  specialize (H Demo.root "bar/quux/baz" (ShapeInt 100) (Some i4) true
                no_kwargs Demo.world1 Demo.demo_baz).
  assert (Hrun : demo_require_dataset Demo.root "bar/quux/baz" (ShapeInt 100)
            (Some i4) true no_kwargs Demo.world1
          = (Raise (TypeError "dtypes do not match exactly"), Demo.world1))
    by (by vm_compute).
  rewrite Hrun in H. by discriminate H; vm_compute.
Qed.

Lemma require_dataset_returns_existing_witness :
  demo_require_dataset Demo.root_sync "bar/quux/baz" (ShapeInt 100) (Some f4)
    true no_kwargs Demo.world1
  = (Ok (mkArray "bar/quux/baz" false false (Some 7) true [100%Z] f4),
     log (Release 7 Demo.group_meta_key)
       (log (Acquire 7 Demo.group_meta_key) Demo.world1)).
Proof.
  refine (proj1 (proj1 (proj2
    (require_dataset_returns_existing_on_same_shape Demo.group_meta_key
       Demo.array_meta_key Demo.decode_array_metadata Demo.normalize_shape
       Demo.creation Demo.root_sync "bar/quux/baz" (ShapeInt 100) (Some f4)
       true no_kwargs Demo.world1
       (mkArray "bar/quux/baz" false false (Some 7) true [100%Z] f4) _ _))
    _ _ _)); by vm_compute.
Defined.

End Dataset.

Module TreeFacts.
Import Str StrFacts SplitFacts Tree Props.

Section TreeFacts.
Context (group_meta_key array_meta_key attrs_key : string).
Context (decode_group_metadata : bytes → option Z).
Context (decode_array_metadata : bytes → option (list Z * dtype)).

Local Abbreviation node_path := Hierarchy.node_path.
Local Abbreviation contains_array := (contains_array array_meta_key).
Local Abbreviation __iter__ := (Hierarchy.__iter__ group_meta_key array_meta_key).
Local Abbreviation __init__ :=
  (Hierarchy.__init__ group_meta_key array_meta_key attrs_key
     decode_group_metadata).
Local Abbreviation __getitem__ :=
  (Hierarchy.__getitem__ group_meta_key array_meta_key attrs_key
     decode_group_metadata decode_array_metadata).
Local Abbreviation node_keys :=
  (Hierarchy.node_keys group_meta_key array_meta_key).
Local Abbreviation node_getitem :=
  (Hierarchy.node_getitem group_meta_key array_meta_key attrs_key
     decode_group_metadata decode_array_metadata).
Local Abbreviation decodable :=
  (Tree.decodable group_meta_key array_meta_key decode_group_metadata
     decode_array_metadata).
Local Abbreviation child :=
  (Tree.child group_meta_key array_meta_key attrs_key
     decode_group_metadata decode_array_metadata).

(** ** Names listed under a prefix *)

Lemma listed_name_ok (store : gmap string bytes) (path k : string) :
  store_wf store → k ∈ listdir store path → k ≠ "" ∧ has_sep k = false.
Proof.
  intros Hwf (key & suffix & Hkey & -> & Hne & Hh)%elem_of_listdir.
  destruct (head_split _ _ Hh) as [Hsep _]. split; [|done].
  intros ->. apply elem_of_dom in Hkey as [b Hb].
  apply (Hwf _ _ Hb). unfold wf_key.
  assert (Hin : "" ∈ split suffix).
  { destruct (split suffix); [done|]. injection Hh as ->. by left. }
  destruct (decide (path = "")) as [->|Hp].
  - by rewrite path_to_prefix_nil, append_nil_l.
  - rewrite path_to_prefix_nonempty, append_assoc, split_app_sep by done.
    apply elem_of_app. by right.
Qed.

Lemma sentinel_length (store : gmap string bytes) (meta_key c : string) :
  c ≠ "" → is_Some (store !! (_path_to_prefix c +:+ meta_key)) →
  String.length c < max_key_length store.
Proof.
  intros Hc Hsome. unfold max_key_length.
  assert (Hle : String.length (_path_to_prefix c +:+ meta_key)
                ≤ max_list (String.length <$> elements (dom store))).
  { apply max_list_elem_of_le, list_elem_of_fmap. eexists. split; [done|].
    by apply elem_of_elements, elem_of_dom. }
  rewrite path_to_prefix_nonempty, !length_append in Hle by done.
  simpl in Hle. lia.
Qed.

Lemma decodable_array (store : gmap string bytes) (pre : string) b :
  decodable store → store !! (pre +:+ array_meta_key) = Some b →
  is_Some (decode_array_metadata b).
Proof.
  intros Hd Hb. apply (Hd _ _ Hb). apply has_suffix_app.
Qed.

Lemma decodable_group (store : gmap string bytes) (pre : string) b :
  decodable store → store !! (pre +:+ group_meta_key) = Some b →
  is_Some (decode_group_metadata b).
Proof.
  intros Hd Hb. apply (Hd _ _ Hb). apply has_suffix_app.
Qed.

(** ** What the constructors give *)

Lemma init_handle_ok (store : gmap string bytes) (path : string)
    (read_only chunk_store : bool) (synchronizer : option Sync) (g : Group) :
  __init__ store path read_only chunk_store synchronizer = Ok g →
  handle_ok g ∧ _path g = normalize_storage_path path.
Proof.
  unfold Hierarchy.__init__.
  destruct (contains_array _ _); [done|].
  destruct (store !! _); [|done].
  destruct (decode_group_metadata _); [|done].
  intros [= <-]. unfold handle_ok. simpl. split_and!; try done.
  apply normalize_idemp.
Qed.

Lemma item_path_member (g : Group) (k : string) :
  handle_ok g → k ≠ "" → has_sep k = false →
  Hierarchy._item_path g k = _key_prefix g +:+ k.
Proof.
  intros [Hn Hp] Hk Hs. unfold Hierarchy._item_path.
  rewrite sep_free_not_starts, normalize_segment by done. simpl.
  destruct (nonempty (_path g)) eqn:Hne; [done|].
  rewrite Hp. destruct (_path g); done.
Qed.

(** Every name a group yields gives an object, at the path made of the
    prefix of the group and the name. *)
Lemma getitem_member (store : gmap string bytes) (g : Group) (k : string) :
  store_wf store → decodable store → handle_ok g → k ∈ __iter__ store g →
  ∃ c, __getitem__ store g k = Ok c ∧
    node_path c = _path_to_prefix (_path g) +:+ k ∧ node_ok c ∧
    k ≠ "" ∧ has_sep k = false ∧
    String.length (node_path c) < max_key_length store.
Proof.
  intros Hwf Hdec Hok Hk.
  apply list_elem_of_filter in Hk as [Hc Hk]. apply elem_of_listing in Hk.
  destruct (listed_name_ok _ _ _ Hwf Hk) as [Hne Hsep].
  assert (Hpath := item_path_member g k Hok Hne Hsep).
  destruct Hok as [Hn Hp]. rewrite Hp in Hc, Hpath. simpl in Hc.
  destruct (child_path_facts (_path g) k Hn Hne Hsep) as (Hcn & Hcne & _ & _).
  set (c := _path_to_prefix (_path g) +:+ k) in *.
  unfold Hierarchy.__getitem__. rewrite Hpath.
  destruct (contains_array store c) eqn:Ha.
  - unfold Hierarchy.Array_init. rewrite Hcn.
    apply bool_decide_eq_true in Ha. assert (Ha' := Ha).
    destruct Ha as [b Hb]. rewrite Hb.
    destruct (decodable_array _ _ _ Hdec Hb) as [[shape dt] ->].
    eexists. split; [done|]. simpl. split_and!; try done.
    by eapply sentinel_length.
  - simpl in Hc. apply Is_true_true in Hc. rewrite Hc.
    unfold Hierarchy.__init__. rewrite Hcn, Ha.
    apply bool_decide_eq_true in Hc. assert (Hc' := Hc).
    destruct Hc as [b Hb]. unfold _path_to_prefix in Hb at 1. rewrite Hb.
    destruct (decodable_group _ _ _ Hdec Hb) as [meta ->].
    eexists. split; [done|]. simpl. split_and!; try done.
    by eapply sentinel_length.
Qed.

(** ** Children *)

Lemma node_keys_sorted (store : gmap string bytes) (o : Node) :
  StronglySorted String.le (node_keys store o) ∧ NoDup (node_keys store o).
Proof.
  destruct o as [a|g]; simpl; [split; constructor|].
  unfold Hierarchy.keys, Hierarchy.__iter__. split.
  - apply StronglySorted_filter, listing_sorted.
  - apply NoDup_filter, listing_NoDup.
Qed.

Lemma child_facts (store : gmap string bytes) (o c : Node) :
  store_wf store → decodable store → node_ok o → child store o c →
  ∃ k, k ∈ node_keys store o ∧ node_getitem store o k = Ok c ∧
    node_path c = _path_to_prefix (node_path o) +:+ k ∧ node_ok c ∧
    k ≠ "" ∧ has_sep k = false ∧
    String.length (node_path c) < max_key_length store.
Proof.
  intros Hwf Hdec Hok (k & Hk & Hget). exists k.
  destruct o as [a|g]; [by apply elem_of_nil in Hk|]. simpl in *.
  destruct (getitem_member store g k Hwf Hdec Hok Hk) as (c' & Hget' & Hrest).
  rewrite Hget in Hget'. injection Hget' as <-.
  destruct Hrest as (? & ? & ? & ? & ?). split_and!; done.
Qed.

End TreeFacts.
End TreeFacts.

Module VisitFacts.
Import Str StrFacts SplitFacts Tree Props TreeFacts.

Lemma gen_app_None {A} (l1 : list A) (g : gen A) :
  gen_app (Gen l1 None) g = Gen (l1 ++ yields g) (raised g).
Proof. done. Qed.

Lemma Forall2_elem_of_r {A B} (P : A → B → Prop) (l : list A) (k : list B)
    (y : B) :
  Forall2 P l k → y ∈ k ↔ ∃ x, x ∈ l ∧ P x y ∧ y ∈ k.
Proof.
  intros HF. split; [|by intros (? & ? & ? & ?)].
  intros Hy. induction HF as [|x y' l k Hxy HF IH]; [by apply elem_of_nil in Hy|].
  apply elem_of_cons in Hy as [->|Hy].
  - exists x. split_and!; [by left|done|by left].
  - destruct (IH Hy) as (x' & Hx' & HP & _).
    exists x'. split_and!; [by right|done|by right].
Qed.

Section VisitFacts.
Context (group_meta_key array_meta_key attrs_key : string).
Context (decode_group_metadata : bytes → option Z).
Context (decode_array_metadata : bytes → option (list Z * dtype)).

Local Abbreviation node_path := Hierarchy.node_path.
Local Abbreviation __getitem__ :=
  (Hierarchy.__getitem__ group_meta_key array_meta_key attrs_key
     decode_group_metadata decode_array_metadata).
Local Abbreviation node_keys :=
  (Hierarchy.node_keys group_meta_key array_meta_key).
Local Abbreviation node_getitem :=
  (Hierarchy.node_getitem group_meta_key array_meta_key attrs_key
     decode_group_metadata decode_array_metadata).
Local Abbreviation _visit :=
  (Hierarchy._visit group_meta_key array_meta_key attrs_key
     decode_group_metadata decode_array_metadata).
Local Abbreviation decodable :=
  (Tree.decodable group_meta_key array_meta_key decode_group_metadata
     decode_array_metadata).
Local Abbreviation children_of :=
  (Tree.children_of group_meta_key array_meta_key attrs_key
     decode_group_metadata decode_array_metadata).
Local Abbreviation preorder :=
  (Tree.preorder group_meta_key array_meta_key attrs_key
     decode_group_metadata decode_array_metadata).
Local Abbreviation child :=
  (Tree.child group_meta_key array_meta_key attrs_key
     decode_group_metadata decode_array_metadata).
Local Abbreviation descends :=
  (Tree.descends group_meta_key array_meta_key attrs_key
     decode_group_metadata decode_array_metadata).

(** ** The generator yields a pre-order traversal *)

Lemma preorder_app (store : gmap string bytes) (os1 os2 l1 l2 : list Node) :
  preorder store os1 l1 → preorder store os2 l2 →
  preorder store (os1 ++ os2) (l1 ++ l2).
Proof.
  intros H1 H2. induction H1 as [|o os children below after Hc Hb _ Ha IH].
  - done.
  - rewrite <-!app_comm_cons. rewrite <-(assoc_L (++)). by econstructor.
Qed.

Lemma preorder_singleton (store : gmap string bytes) (o : Node)
    (children below : list Node) :
  children_of store o children → preorder store children below →
  preorder store [o] (o :: below).
Proof.
  intros Hc Hb. rewrite <-(app_nil_r below).
  econstructor; [done..|constructor].
Qed.

Lemma visit_unfold (depth : nat) (store : gmap string bytes) (obj : Node) :
  _visit (S depth) store obj =
  gen_cons obj
    (foldr
       (λ each_key rest,
          match node_getitem store obj each_key with
          | Raise e => Gen [] (Some e)
          | Ok child => gen_app (_visit depth store child) rest
          end)
       (Gen [] None) (node_keys store obj)).
Proof.
  simpl. rewrite sorted_sorted; [done|]. apply node_keys_sorted.
Qed.

(** On a well-formed store whose metadata decodes, a generator that is
    allowed more nested calls than the longest key has characters runs
    to its end without raising, and yields the pre-order traversal from
    its object. *)
Lemma visit_preorder (store : gmap string bytes) :
  store_wf store → decodable store →
  ∀ (depth : nat) (o : Node),
    node_ok o →
    max_key_length store < depth + String.length (node_path o) →
    0 < depth →
    ∃ l, _visit depth store o = Gen l None ∧ preorder store [o] l.
Proof.
  intros Hwf Hdec depth.
  induction depth as [|depth IH]; intros o Hok Hlen Hpos; [lia|].
  rewrite visit_unfold.
  assert (Hkeys : ∀ ks, (∀ k, k ∈ ks → k ∈ node_keys store o) →
    ∃ children below,
      Forall2 (λ key child, node_getitem store o key = Ok child) ks children ∧
      foldr
        (λ each_key rest,
           match node_getitem store o each_key with
           | Raise e => Gen [] (Some e)
           | Ok child => gen_app (_visit depth store child) rest
           end)
        (Gen [] None) ks = Gen below None ∧
      preorder store children below).
  { induction ks as [|k ks IHks]; intros Hin.
    - exists [], []. split_and!; constructor.
    - destruct IHks as (children & below & HF & Hfold & Hpre).
      { intros k' Hk'. apply Hin. by right. }
      assert (Hk : k ∈ node_keys store o) by (apply Hin; by left).
      destruct o as [a|g]; [by apply elem_of_nil in Hk|].
      destruct (getitem_member group_meta_key array_meta_key attrs_key
                  decode_group_metadata decode_array_metadata store g k
                  Hwf Hdec Hok Hk)
        as (c & Hget & Hpath & Hcok & Hne & Hsep & Hclen).
      destruct Hok as [Hn Hp].
      destruct (child_path_facts (_path g) k Hn Hne Hsep) as (_ & _ & _ & Hlt).
      rewrite <-Hpath in Hlt. simpl in Hlen.
      destruct (IH c Hcok) as (l & Hv & Hl); [lia..|].
      exists (c :: children), (l ++ below). split_and!.
      + by constructor.
      + cbn [foldr]. rewrite Hfold.
        change (node_getitem store (NGroup g) k) with (__getitem__ store g k).
        by rewrite Hget, Hv.
      + by apply (preorder_app store [c] children). }
  destruct (Hkeys (node_keys store o)) as (children & below & HF & -> & Hpre);
    [done|].
  exists (o :: below). split; [done|]. by eapply preorder_singleton.
Qed.

(** ** What a traversal contains *)

Lemma children_of_elem (store : gmap string bytes) (o c : Node)
    (children : list Node) :
  children_of store o children → c ∈ children ↔ child store o c.
Proof.
  intros HF. split.
  - intros Hc. apply (Forall2_elem_of_r _ _ _ _ HF) in Hc as (k & Hk & Hget & _).
    by exists k.
  - intros (k & Hk & Hget).
    unfold Tree.children_of in HF.
    apply list_elem_of_lookup in Hk as [i Hi].
    destruct (Forall2_lookup_l _ _ _ _ _ HF Hi) as (c' & Hc' & Hget').
    rewrite Hget in Hget'. injection Hget' as <-.
    apply list_elem_of_lookup. by exists i.
Qed.

Lemma preorder_elem (store : gmap string bytes) (os l : list Node) :
  preorder store os l →
  ∀ x, x ∈ l ↔ ∃ o, o ∈ os ∧ (x = o ∨ descends store o x).
Proof.
  induction 1 as [|o os children below after Hc Hb IHb Ha IHa]; intros x.
  - split; [by intros ?%elem_of_nil|]. by intros (? & ?%elem_of_nil & _).
  - rewrite elem_of_cons, elem_of_app, IHb, IHa. split.
    + intros [->|[(c & Hcin & Hx)|(o' & Ho' & Hx)]].
      * exists o. split; [by left|by left].
      * exists o. split; [by left|]. right.
        apply (children_of_elem store o c children Hc) in Hcin.
        destruct Hx as [->|Hx]; [by constructor|by econstructor].
      * exists o'. split; [by right|done].
    + intros (o' & [->|Ho']%elem_of_cons & Hx).
      * destruct Hx as [->|Hx]; [by left|]. right. left.
        inversion Hx as [? c Hch|? c ? Hch Hd]; subst.
        -- exists x. split; [|by left].
           by apply (children_of_elem store o x children Hc).
        -- exists c. split; [|by right].
           by apply (children_of_elem store o c children Hc).
      * right. right. by exists o'.
Qed.

Lemma preorder_root (store : gmap string bytes) (o : Node) (l : list Node) :
  preorder store [o] l →
  ∃ below children, l = o :: below ∧ children_of store o children ∧
    preorder store children below ∧
    ∀ x, x ∈ below ↔ descends store o x.
Proof.
  intros H. inversion H as [|? ? children below after Hc Hb Ha]; subst.
  inversion Ha; subst. rewrite app_nil_r.
  exists below, children. split_and!; try done.
  intros x. rewrite (preorder_elem store children below Hb). split.
  - intros (c & Hcin & Hx).
    apply (children_of_elem store o c children Hc) in Hcin.
    destruct Hx as [->|Hx]; [by constructor|by econstructor].
  - intros Hx. inversion Hx as [? c Hch|? c ? Hch Hd]; subst.
    + exists x. split; [|by left].
      by apply (children_of_elem store o x children Hc).
    + exists c. split; [|by right].
      by apply (children_of_elem store o c children Hc).
Qed.

End VisitFacts.
End VisitFacts.

Module OrderFacts.
Import Str StrFacts SplitFacts Tree Props TreeFacts VisitFacts.

(** ** The strict order on names *)

Lemma lt_irrefl (k : string) : ¬ Str.lt k k.
Proof. by intros [_ ?]. Qed.

Lemma lt_trans (k1 k2 k3 : string) : Str.lt k1 k2 → Str.lt k2 k3 → Str.lt k1 k3.
Proof.
  intros [H12 Hne12] [H23 Hne23]. split; [by etrans|].
  intros ->. destruct Hne23. by apply (anti_symm String.le).
Qed.

Lemma sorted_NoDup_lt (l : list string) :
  StronglySorted String.le l → NoDup l → StronglySorted Str.lt l.
Proof.
  induction 1 as [|x l Hs IH Hall]; intros Hnd; [constructor|].
  apply NoDup_cons in Hnd as [Hx Hnd]. constructor; [by apply IH|].
  apply Forall_forall. intros y Hy. split.
  - by eapply Forall_forall in Hall.
  - by intros ->.
Qed.

(** ** The order of a traversal *)

Lemma seg_lt_app_l (p a b : list string) :
  seg_lt a b → seg_lt (p ++ a) (p ++ b).
Proof. intros H. induction p; simpl; [done|by constructor]. Qed.

Lemma seg_lt_below (s r : list string) : r ≠ [] → seg_lt s (s ++ r).
Proof.
  intros Hr. rewrite <-(app_nil_r s) at 1. apply seg_lt_app_l.
  destruct r; [done|constructor].
Qed.

Lemma seg_lt_siblings (s1 s2 r1 r2 : list string) :
  sib_lt s1 s2 → seg_lt (s1 ++ r1) (s2 ++ r2).
Proof.
  intros (p & k1 & k2 & -> & -> & Hlt).
  rewrite <-!(assoc_L (++)). apply seg_lt_app_l. simpl. by constructor.
Qed.

Lemma seg_lt_irrefl (s : list string) : ¬ seg_lt s s.
Proof.
  induction s as [|k s IH]; intros H; inversion H; subst; [|done].
  by eapply lt_irrefl.
Qed.

Lemma seg_lt_trans (s1 s2 s3 : list string) :
  seg_lt s1 s2 → seg_lt s2 s3 → seg_lt s1 s3.
Proof.
  intros H12. revert s3.
  induction H12 as [k r|k1 k2 r1 r2 Hlt|k r1 r2 H12 IH]; intros s3 H23;
    inversion H23; subst.
  - constructor.
  - constructor.
  - constructor. by eapply lt_trans.
  - by constructor.
  - by constructor.
  - apply seg_lt_tail. by apply IH.
Qed.

Lemma seg_lt_app_inv_l (p a b : list string) :
  seg_lt (p ++ a) (p ++ b) → seg_lt a b.
Proof.
  induction p as [|k p IH]; [done|]. simpl. intros H.
  inversion H; subst; [|by apply IH]. by edestruct lt_irrefl.
Qed.

Lemma StronglySorted_lookup_lt {A} (R : relation A) (l : list A)
    (i j : nat) (x y : A) :
  StronglySorted R l → l !! i = Some x → l !! j = Some y → i < j → R x y.
Proof.
  intros Hs. revert i j. induction Hs as [|z l Hs IH Hall]; intros i j Hi Hj Hij.
  - done.
  - destruct j as [|j]; [lia|]. destruct i as [|i]; simpl in *.
    + injection Hi as ->. eapply Forall_forall in Hall; [done|].
      by eapply list_elem_of_lookup_2.
    + eapply IH; [done..|lia].
Qed.

(** In a strictly sorted list, an element below another one comes
    before it. *)
Lemma StronglySorted_lookup_inv {A} (R : relation A) (l : list A)
    (i j : nat) (x y : A) :
  (∀ a, ¬ R a a) → (∀ a b c, R a b → R b c → R a c) →
  StronglySorted R l → l !! i = Some x → l !! j = Some y → R x y → i < j.
Proof.
  intros Hirr Htr Hs Hi Hj Hxy.
  destruct (Nat.lt_trichotomy i j) as [?|[->|Hji]]; [done|..].
  - rewrite Hi in Hj. injection Hj as ->. by destruct (Hirr y).
  - destruct (Hirr x). eapply Htr; [done|].
    by eapply (StronglySorted_lookup_lt R l j i).
Qed.

Section OrderFacts.
Context (group_meta_key array_meta_key attrs_key : string).
Context (decode_group_metadata : bytes → option Z).
Context (decode_array_metadata : bytes → option (list Z * dtype)).

Local Abbreviation node_path := Hierarchy.node_path.
Local Abbreviation node_keys :=
  (Hierarchy.node_keys group_meta_key array_meta_key).
Local Abbreviation decodable :=
  (Tree.decodable group_meta_key array_meta_key decode_group_metadata
     decode_array_metadata).
Local Abbreviation children_of :=
  (Tree.children_of group_meta_key array_meta_key attrs_key
     decode_group_metadata decode_array_metadata).
Local Abbreviation preorder :=
  (Tree.preorder group_meta_key array_meta_key attrs_key
     decode_group_metadata decode_array_metadata).
Local Abbreviation child :=
  (Tree.child group_meta_key array_meta_key attrs_key
     decode_group_metadata decode_array_metadata).
Local Abbreviation descends :=
  (Tree.descends group_meta_key array_meta_key attrs_key
     decode_group_metadata decode_array_metadata).

Lemma node_ok_normal (o : Node) :
  node_ok o → normalize_storage_path (node_path o) = node_path o.
Proof. destruct o as [a|g]; [done|]. by intros [? _]. Qed.

(** ** Where the descendants of an object lie *)

Lemma descends_below (store : gmap string bytes) (o x : Node) :
  store_wf store → decodable store → node_ok o → descends store o x →
  node_ok x ∧
  ∃ rel, rel ≠ [] ∧
    Forall (λ k, k ≠ "" ∧ has_sep k = false) rel ∧
    node_path x = _path_to_prefix (node_path o) +:+ join rel ∧
    node_segments x = node_segments o ++ rel ∧
    String.length (node_path o) < String.length (node_path x).
Proof.
  intros Hwf Hdec Hok Hd. induction Hd as [o c Hch|o c x Hch Hd IH].
  - destruct (child_facts group_meta_key array_meta_key attrs_key
                decode_group_metadata decode_array_metadata store o c
                Hwf Hdec Hok Hch)
      as (k & _ & _ & Hpath & Hcok & Hne & Hsep & _).
    destruct (child_path_facts (node_path o) k (node_ok_normal o Hok) Hne Hsep)
      as (_ & _ & Hseg & Hlen).
    split; [done|]. exists [k]. unfold node_segments.
    rewrite Hpath. split_and!; try done. by constructor.
  - destruct (child_facts group_meta_key array_meta_key attrs_key
                decode_group_metadata decode_array_metadata store o c
                Hwf Hdec Hok Hch)
      as (k & _ & _ & Hpath & Hcok & Hne & Hsep & _).
    destruct (child_path_facts (node_path o) k (node_ok_normal o Hok) Hne Hsep)
      as (_ & Hcne & Hseg & Hlen).
    destruct (IH Hcok) as (Hxok & rel & Hrel & Hall & Hxpath & Hxseg & Hxlen).
    split; [done|]. exists (k :: rel). split_and!.
    + done.
    + by constructor.
    + rewrite Hxpath, Hpath, path_to_prefix_nonempty by done.
      rewrite join_cons, !append_assoc by done. done.
    + rewrite Hxseg. unfold node_segments at 1. rewrite Hpath, Hseg.
      by rewrite <-(assoc_L (++)).
    + rewrite <-Hpath in Hlen. lia.
Qed.

(** ** Children come in the order of their names *)

Lemma children_segments (store : gmap string bytes) (o : Node)
    (children : list Node) :
  store_wf store → decodable store → node_ok o →
  children_of store o children →
  Forall node_ok children ∧
  StronglySorted sib_lt (node_segments <$> children).
Proof.
  intros Hwf Hdec Hok Hc.
  assert (Hall : Forall2 (λ k c, node_ok c ∧
                            node_segments c = node_segments o ++ [k])
                   (node_keys store o) children).
  { unfold Tree.children_of in Hc.
    assert (Hin : ∀ k, k ∈ node_keys store o → k ∈ node_keys store o) by done.
    revert Hin Hc. generalize (node_keys store o) at 1 3 4.
    intros ks Hin HF. induction HF as [|k c ks cs Hget HF IH]; [constructor|].
    constructor.
    - assert (Hch : child store o c).
      { exists k. split; [|done]. apply Hin. by left. }
      destruct (child_facts group_meta_key array_meta_key attrs_key
                  decode_group_metadata decode_array_metadata store o c
                  Hwf Hdec Hok Hch)
        as (k' & _ & Hget' & Hpath & Hcok & Hne & Hsep & _).
      destruct (child_path_facts (node_path o) k' (node_ok_normal o Hok)
                  Hne Hsep) as (_ & _ & Hseg & _).
      split; [done|]. unfold node_segments at 1. rewrite Hpath, Hseg.
      f_equal. f_equal.
      destruct o as [a|g]; [done|].
      destruct (getitem_member group_meta_key array_meta_key attrs_key
                  decode_group_metadata decode_array_metadata store g k
                  Hwf Hdec Hok (Hin k ltac:(by left)))
        as (c' & Hget'' & Hpath' & _ & Hne' & Hsep' & _).
      simpl in Hget. rewrite Hget in Hget''. injection Hget'' as <-.
      rewrite Hpath in Hpath'. by apply (inj (String.app _)) in Hpath'.
    - apply IH. intros k' Hk'. apply Hin. by right. }
  split.
  - clear -Hall. induction Hall as [|k c ks cs [? _] _ IH]; by constructor.
  - destruct (node_keys_sorted group_meta_key array_meta_key store o)
      as [Hs Hnd].
    assert (Hlt := sorted_NoDup_lt _ Hs Hnd). clear Hs Hnd Hc.
    revert Hlt. induction Hall as [|k c ks cs [_ Hseg] Hall IH]; intros Hlt.
    + constructor.
    + apply StronglySorted_cons in Hlt as [Hk Hlt].
      rewrite fmap_cons. apply StronglySorted_cons. split; [|by apply IH].
      apply Forall_forall. intros s (c' & -> & Hc')%list_elem_of_fmap.
      apply list_elem_of_lookup in Hc' as [i Hi].
      destruct (Forall2_lookup_r _ _ _ _ _ Hall Hi) as (k' & Hk' & _ & Hseg').
      exists (node_segments o), k, k'. split_and!; [done..|].
      eapply Forall_forall in Hk; [done|]. by eapply list_elem_of_lookup_2.
Qed.

(** ** A pre-order traversal is sorted *)

Lemma preorder_sorted (store : gmap string bytes) (os l : list Node) :
  store_wf store → decodable store →
  preorder store os l →
  Forall node_ok os → StronglySorted sib_lt (node_segments <$> os) →
  StronglySorted seg_lt (node_segments <$> l).
Proof.
  intros Hwf Hdec Hpre.
  induction Hpre as [|o os children below after Hc Hb IHb Ha IHa];
    intros Hok Hsib; [constructor|].
  apply Forall_cons in Hok as [Hok Hoks].
  rewrite fmap_cons in Hsib. apply StronglySorted_cons in Hsib as [Hfirst Hsib].
  destruct (children_segments store o children Hwf Hdec Hok Hc) as [Hcok Hcs].
  assert (Hbelow : ∀ x, x ∈ below →
    ∃ rel, rel ≠ [] ∧ node_segments x = node_segments o ++ rel).
  { intros x Hx.
    assert (Hd : descends store o x).
    { apply (preorder_elem _ _ _ _ _ store children below Hb) in Hx
        as (c & Hcin & Hx).
      apply (children_of_elem _ _ _ _ _ store o c children Hc) in Hcin.
      destruct Hx as [->|Hx]; [by constructor|by econstructor]. }
    destruct (descends_below store o x Hwf Hdec Hok Hd)
      as (_ & rel & ? & _ & _ & ? & _).
    by exists rel. }
  assert (Hafter : ∀ x, x ∈ after →
    ∃ o' r, o' ∈ os ∧ node_segments x = node_segments o' ++ r).
  { intros x Hx.
    apply (preorder_elem _ _ _ _ _ store os after Ha) in Hx as (o' & Ho' & Hx).
    exists o'. destruct Hx as [->|Hd].
    - exists []. by rewrite app_nil_r.
    - assert (Hok' : node_ok o') by (by eapply Forall_forall in Hoks).
      destruct (descends_below store o' x Hwf Hdec Hok' Hd)
        as (_ & rel & ? & _ & _ & ? & _).
      by exists rel. }
  assert (Hsibs : ∀ o', o' ∈ os → sib_lt (node_segments o) (node_segments o')).
  { intros o' Ho'. eapply Forall_forall in Hfirst; [done|].
    apply list_elem_of_fmap. by exists o'. }
  rewrite fmap_cons, fmap_app. apply StronglySorted_cons. split.
  - apply Forall_app. split; apply Forall_forall.
    + intros s (x & -> & Hx)%list_elem_of_fmap.
      destruct (Hbelow x Hx) as (rel & Hrel & ->). by apply seg_lt_below.
    + intros s (x & -> & Hx)%list_elem_of_fmap.
      destruct (Hafter x Hx) as (o' & r & Ho' & ->).
      rewrite <-(app_nil_r (node_segments o)).
      by apply seg_lt_siblings, Hsibs.
  - apply StronglySorted_app_2; [|by apply IHb|by apply IHa].
    intros s1 s2 (x1 & -> & Hx1)%list_elem_of_fmap
      (x2 & -> & Hx2)%list_elem_of_fmap.
    destruct (Hbelow x1 Hx1) as (rel & _ & ->).
    destruct (Hafter x2 Hx2) as (o' & r & Ho' & ->).
    by apply seg_lt_siblings, Hsibs.
Qed.

End OrderFacts.
End OrderFacts.

Module LoopFacts.
Import Str StrFacts SplitFacts Tree Props TreeFacts VisitFacts OrderFacts.

(** ** The loop of [visitvalues] *)

Section Loop.

Context {B S R : Type}.
Context (f : Node → B).
Context (func : B → S → result (option R) * S).

Lemma loop_stop (pre : list Node) (x : Node) (post : list Node)
    (tail : option exn) (s s1 s2 : S) (v : R) :
  continues func (f <$> pre) s s1 →
  func (f x) s1 = (Ok (Some v), s2) →
  Hierarchy.visit_loop (λ o, func (f o)) (pre ++ x :: post) tail s
  = (Ok (Some v), s2).
Proof.
  revert s. induction pre as [|o pre IH]; intros s Hpre Hx; simpl in *.
  - subst s1. by rewrite Hx.
  - destruct Hpre as (s' & Ho & Hpre). rewrite Ho. by apply IH.
Qed.

Lemma loop_all (objs : list Node) (s s' : S) :
  continues func (f <$> objs) s s' →
  Hierarchy.visit_loop (λ o, func (f o)) objs None s = (Ok None, s').
Proof.
  revert s. induction objs as [|o objs IH]; intros s Hc; simpl in *.
  - by subst.
  - destruct Hc as (s1 & Ho & Hc). rewrite Ho. by apply IH.
Qed.

Lemma continues_traced (l : list B) (log : list B) (s s' : S) :
  continues func l s s' → continues (traced func) l (log, s) (log ++ l, s').
Proof.
  revert log s. induction l as [|b l IH]; intros log s Hc; simpl in *.
  - subst. by rewrite app_nil_r.
  - destruct Hc as (s1 & Hb & Hc). exists (log ++ [b], s1). split.
    + unfold traced. simpl. by rewrite Hb.
    + replace (log ++ b :: l) with ((log ++ [b]) ++ l)
        by (by rewrite <-(assoc_L (++))).
      by apply IH.
Qed.

Lemma traced_stop (b : B) (log : list B) (s s' : S) (r : result (option R)) :
  func b s = (r, s') → traced func b (log, s) = (r, (log ++ [b], s')).
Proof. intros Hb. unfold traced. simpl. by rewrite Hb. Qed.

(** Recording the calls changes neither the result nor the state of the
    visitor, and the calls made are those on an initial part of the
    objects, in their order. *)
Lemma loop_traced (objs : list Node) (tail : option exn) (log : list B)
    (s : S) :
  ∃ visited, (visited `prefix_of` objs) ∧
    Hierarchy.visit_loop (λ o, traced func (f o)) objs tail (log, s) =
    (fst (Hierarchy.visit_loop (λ o, func (f o)) objs tail s),
     (log ++ (f <$> visited),
      snd (Hierarchy.visit_loop (λ o, func (f o)) objs tail s))).
Proof.
  revert log s. induction objs as [|o objs IH]; intros log s.
  - exists []. split; [done|]. simpl. rewrite app_nil_r. by destruct tail.
  - simpl. unfold traced at 1. simpl.
    destruct (func (f o) s) as [[[v|]|e] s1] eqn:Ho.
    + exists [o]. split; [by apply prefix_cons, prefix_nil|done].
    + destruct (IH (log ++ [f o]) s1) as (visited & Hpre & ->).
      exists (o :: visited). split; [by apply prefix_cons|].
      rewrite fmap_cons.
      replace (log ++ f o :: (f <$> visited))
        with ((log ++ [f o]) ++ (f <$> visited))
        by (by rewrite <-(assoc_L (++))).
      done.
    + exists [o]. split; [by apply prefix_cons, prefix_nil|done].
Qed.

End Loop.

(** ** Names relative to a group *)

Lemma drop_length_append (a b : string) : drop (String.length a) (a +:+ b) = b.
Proof. induction a as [|c a IH]; [done|]. by rewrite append_cons. Qed.

Lemma lstrip_id (s : string) : starts_with_sep s = false → lstrip s = s.
Proof. destruct s as [|c s]; [done|]. simpl. by intros ->. Qed.

Lemma join_not_starts (segs : list string) :
  Forall (λ k, k ≠ "" ∧ has_sep k = false) segs →
  starts_with_sep (join segs) = false.
Proof.
  intros Hall. destruct Hall as [|k l [Hk Hs] Hl]; [done|].
  destruct k as [|c k]; [done|].
  assert (Hc : is_sep c = false).
  { simpl in Hs. by apply orb_false_elim in Hs as [? _]. }
  destruct l; [done|]. by rewrite join_cons, append_cons by done.
Qed.

Lemma join_nonempty (segs : list string) :
  segs ≠ [] → Forall (λ k, k ≠ "" ∧ has_sep k = false) segs →
  join segs ≠ "".
Proof.
  intros Hne Hall. destruct Hall as [|k l [Hk Hs] Hl]; [done|].
  destruct k as [|c k]; [done|].
  destruct l; [done|]. by rewrite join_cons, append_cons by done.
Qed.

Lemma split_join_ok (segs : list string) :
  segs ≠ [] → Forall (λ k, k ≠ "" ∧ has_sep k = false) segs →
  split (join segs) = segs.
Proof.
  intros Hne Hall. apply split_join; [done|].
  eapply Forall_impl; [done|]. by intros k [_ ?].
Qed.

Lemma normal_not_starts (p : string) :
  normalize_storage_path p = p → starts_with_sep p = false.
Proof.
  intros <-. unfold normalize_storage_path. apply join_not_starts.
  apply Forall_forall. intros k [Hk Hin]%list_elem_of_filter.
  split; [done|]. by eapply split_segments_sep_free.
Qed.

Lemma StronglySorted_fmap_rel {A B C} (R : relation B) (R' : relation C)
    (f : A → B) (g : A → C) (l : list A) :
  (∀ x y, x ∈ l → y ∈ l → R (f x) (f y) → R' (g x) (g y)) →
  StronglySorted R (f <$> l) → StronglySorted R' (g <$> l).
Proof.
  induction l as [|a l IH]; intros Himp Hs; [constructor|].
  rewrite fmap_cons in *. apply StronglySorted_cons in Hs as [Ha Hs].
  apply StronglySorted_cons. split.
  - apply Forall_forall. intros c (y & -> & Hy)%list_elem_of_fmap.
    apply Himp; [by left|by right|].
    eapply Forall_forall in Ha; [done|]. apply list_elem_of_fmap. by exists y.
  - apply IH; [|done]. intros x y Hx Hy. apply Himp; by right.
Qed.

End LoopFacts.

Module Traversal.
Import Str StrFacts SplitFacts Tree Props TreeFacts VisitFacts OrderFacts
  LoopFacts.

Section Traversal.
Context (group_meta_key array_meta_key attrs_key : string).
Context (decode_group_metadata : bytes → option Z).
Context (decode_array_metadata : bytes → option (list Z * dtype)).

Local Abbreviation node_path := Hierarchy.node_path.
Local Abbreviation __init__ :=
  (Hierarchy.__init__ group_meta_key array_meta_key attrs_key
     decode_group_metadata).
Local Abbreviation _visit :=
  (Hierarchy._visit group_meta_key array_meta_key attrs_key
     decode_group_metadata decode_array_metadata).
Local Abbreviation decodable :=
  (Tree.decodable group_meta_key array_meta_key decode_group_metadata
     decode_array_metadata).
Local Abbreviation preorder :=
  (Tree.preorder group_meta_key array_meta_key attrs_key
     decode_group_metadata decode_array_metadata).
Local Abbreviation child :=
  (Tree.child group_meta_key array_meta_key attrs_key
     decode_group_metadata decode_array_metadata).
Local Abbreviation descends :=
  (Tree.descends group_meta_key array_meta_key attrs_key
     decode_group_metadata decode_array_metadata).
Local Abbreviation relative_name := Hierarchy.relative_name.
Local Abbreviation node_name := Hierarchy.node_name.

Local Abbreviation the_descends_below :=
  (descends_below group_meta_key array_meta_key attrs_key
     decode_group_metadata decode_array_metadata).

Lemma descends_last (store : gmap string bytes) (o x : Node) :
  descends store o x →
  child store o x ∨ ∃ c, descends store o c ∧ child store c x.
Proof.
  induction 1 as [o c Hch|o c x Hch Hd IH]; [by left|]. right.
  destruct IH as [Hcx|(c' & Hd' & Hcx)].
  - exists c. split; [by constructor|done].
  - exists c'. split; [by econstructor|done].
Qed.

(** ** The traversal from a group *)

Lemma traversal (store : gmap string bytes) (depth : nat) (path : string)
    (read_only chunk_store : bool) (synchronizer : option Sync)
    (self : Group) :
  store_wf store → decodable store →
  __init__ store path read_only chunk_store synchronizer = Ok self →
  max_key_length store < depth →
  handle_ok self ∧
  ∃ nodes,
    _visit depth store (NGroup self) = Gen (NGroup self :: nodes) None ∧
    preorder store [NGroup self] (NGroup self :: nodes) ∧
    (∀ o, o ∈ nodes ↔ descends store (NGroup self) o) ∧
    StronglySorted seg_lt (node_segments <$> nodes).
Proof.
  intros Hwf Hdec Hinit Hdepth.
  destruct (init_handle_ok group_meta_key array_meta_key attrs_key
              decode_group_metadata store path read_only chunk_store
              synchronizer self Hinit) as [Hok _].
  split; [done|].
  destruct (visit_preorder group_meta_key array_meta_key attrs_key
              decode_group_metadata decode_array_metadata store Hwf Hdec
              depth (NGroup self) Hok) as (l & Hv & Hpre); [lia..|].
  destruct (preorder_root group_meta_key array_meta_key attrs_key
              decode_group_metadata decode_array_metadata store _ _ Hpre)
    as (below & children & -> & Hc & Hb & Hel).
  exists below. split_and!; try done.
  assert (Hs := preorder_sorted group_meta_key array_meta_key attrs_key
    decode_group_metadata decode_array_metadata store _ _ Hwf Hdec Hpre).
  rewrite fmap_cons in Hs.
  assert (Hsorted : StronglySorted seg_lt
            (node_segments (NGroup self) :: (node_segments <$> below))).
  { apply Hs; [by constructor|repeat constructor]. }
  by apply StronglySorted_cons in Hsorted as [_ ?].
Qed.

Lemma root_not_descendant (store : gmap string bytes) (self : Group) :
  store_wf store → decodable store → handle_ok self →
  ¬ descends store (NGroup self) (NGroup self).
Proof.
  intros Hwf Hdec Hok Hd.
  destruct (the_descends_below store (NGroup self) (NGroup self) Hwf Hdec
              Hok Hd) as (_ & rel & _ & _ & _ & _ & Hlen).
  lia.
Qed.

(** ** Names relative to the group *)

Lemma node_name_normal (x : Node) :
  node_ok x → node_path x ≠ "" → node_name x = "/" +:+ node_path x.
Proof.
  intros Hok Hne.
  assert (Hs := normal_not_starts _ (node_ok_normal x Hok)).
  destruct x as [a|g]; simpl in *.
  - unfold Hierarchy.Array_name. rewrite Hs. by destruct (a_path a).
  - unfold Hierarchy.name. rewrite Hs. by destruct (_path g).
Qed.

Lemma name_normal (self : Group) :
  handle_ok self → Hierarchy.name self = "/" +:+ _path self.
Proof.
  intros [Hn _]. unfold Hierarchy.name.
  rewrite (normal_not_starts _ Hn). by destruct (_path self).
Qed.

Lemma descendant_name (store : gmap string bytes) (self : Group) (x : Node) :
  store_wf store → decodable store → handle_ok self →
  descends store (NGroup self) x →
  ∃ rel, rel ≠ [] ∧
    Forall (λ k, k ≠ "" ∧ has_sep k = false) rel ∧
    relative_name (String.length (Hierarchy.name self)) x = join rel ∧
    node_path x = _key_prefix self +:+ join rel ∧
    node_segments x = node_segments (NGroup self) ++ rel.
Proof.
  intros Hwf Hdec Hok Hd.
  destruct (the_descends_below store (NGroup self) x Hwf Hdec Hok Hd)
    as (Hxok & rel & Hrel & Hall & Hpath & Hseg & Hlen).
  exists rel. simpl in Hpath, Hlen.
  assert (Hp := proj2 Hok). rewrite <-Hp in Hpath.
  split_and!; try done.
  unfold Hierarchy.relative_name.
  rewrite node_name_normal, name_normal, Hpath, Hp by
    (try done; intros Hnil; rewrite Hnil in Hlen; simpl in Hlen; lia).
  assert (Hj := join_not_starts rel Hall).
  destruct (decide (_path self = "")) as [Hnil|Hne].
  - rewrite Hnil. simpl. by apply lstrip_id.
  - rewrite path_to_prefix_nonempty by done.
    change (String.length ("/" +:+ _path self))
      with (S (String.length (_path self))).
    rewrite append_cons. simpl (drop _ _).
    rewrite append_nil_l, append_assoc, drop_length_append.
    rewrite append_cons, append_nil_l. simpl. by apply lstrip_id.
Qed.

End Traversal.
End Traversal.

Module Visiting.
Import Str StrFacts SplitFacts Tree Props TreeFacts VisitFacts OrderFacts
  LoopFacts Traversal.

Section Visiting.
Context (group_meta_key array_meta_key attrs_key : string).
Context (decode_group_metadata : bytes → option Z).
Context (decode_array_metadata : bytes → option (list Z * dtype)).

Local Abbreviation node_path := Hierarchy.node_path.
Local Abbreviation __init__ :=
  (Hierarchy.__init__ group_meta_key array_meta_key attrs_key
     decode_group_metadata).
Local Abbreviation _visit :=
  (Hierarchy._visit group_meta_key array_meta_key attrs_key
     decode_group_metadata decode_array_metadata).
Local Abbreviation visitvalues :=
  (Hierarchy.visitvalues group_meta_key array_meta_key attrs_key
     decode_group_metadata decode_array_metadata).
Local Abbreviation visit :=
  (Hierarchy.visit group_meta_key array_meta_key attrs_key
     decode_group_metadata decode_array_metadata).
Local Abbreviation decodable :=
  (Tree.decodable group_meta_key array_meta_key decode_group_metadata
     decode_array_metadata).
Local Abbreviation preorder :=
  (Tree.preorder group_meta_key array_meta_key attrs_key
     decode_group_metadata decode_array_metadata).
Local Abbreviation descends :=
  (Tree.descends group_meta_key array_meta_key attrs_key
     decode_group_metadata decode_array_metadata).
Local Abbreviation relative_name := Hierarchy.relative_name.
Local Abbreviation the_traversal :=
  (traversal group_meta_key array_meta_key attrs_key decode_group_metadata
     decode_array_metadata).
Local Abbreviation the_descendant_name :=
  (descendant_name group_meta_key array_meta_key attrs_key
     decode_group_metadata decode_array_metadata).

Lemma visitvalues_run {S R : Type} (store : gmap string bytes) (depth : nat)
    (self : Group) (nodes : list Node)
    (func : Node → S → result (option R) * S) (s : S) :
  _visit depth store (NGroup self) = Gen (NGroup self :: nodes) None →
  visitvalues depth store self func s = Hierarchy.visit_loop func nodes None s.
Proof. intros Hv. unfold Hierarchy.visitvalues. by rewrite Hv. Qed.

(** C3. On a well-formed store whose metadata decodes, and with room
    for enough nested calls, [visitvalues] on a group handle runs the
    visitor over the depth-first pre-order traversal of the descendants
    of the group: the generator yields the group first and then [nodes],
    the pre-order of exactly its descendants, which does not contain the
    group itself; the visitor is called on an initial part of [nodes],
    in order, and on nothing else; as soon as it returns a value that is
    not [None], that value is returned and no further object is
    visited; and if it returns [None] on every object, all of [nodes] is
    visited and [None] is returned. *)
Theorem visitvalues_preorder_short_circuit
    (store : gmap string bytes) (depth : nat) (path : string)
    (read_only chunk_store : bool) (synchronizer : option Sync)
    (self : Group) :
  store_wf store → decodable store →
  __init__ store path read_only chunk_store synchronizer = Ok self →
  max_key_length store < depth →
  ∃ nodes : list Node,
    _visit depth store (NGroup self) = Gen (NGroup self :: nodes) None ∧
    preorder store [NGroup self] (NGroup self :: nodes) ∧
    (∀ o, o ∈ nodes ↔ descends store (NGroup self) o) ∧
    (NGroup self ∉ nodes) ∧
    ∀ (S R : Type) (func : Node → S → result (option R) * S) (s : S),
      (∃ visited, (visited `prefix_of` nodes) ∧
         visitvalues depth store self (traced func) ([], s) =
         (fst (visitvalues depth store self func s),
          (visited, snd (visitvalues depth store self func s)))) ∧
      (∀ pre x post v s1 s2,
         nodes = pre ++ (x :: post) →
         continues func pre s s1 →
         func x s1 = (Ok (Some v), s2) →
         visitvalues depth store self func s = (Ok (Some v), s2) ∧
         visitvalues depth store self (traced func) ([], s)
         = (Ok (Some v), (pre ++ [x], s2))) ∧
      (∀ s',
         continues func nodes s s' →
         visitvalues depth store self func s = (Ok None, s') ∧
         visitvalues depth store self (traced func) ([], s)
         = (Ok None, (nodes, s'))).
Proof.
  intros Hwf Hdec Hinit Hdepth.
  destruct (the_traversal store depth path read_only chunk_store synchronizer
              self Hwf Hdec Hinit Hdepth)
    as (Hok & nodes & Hv & Hpre & Hel & _).
  exists nodes. split_and!; try done.
  { intros Hin%Hel.
    by eapply (root_not_descendant group_meta_key array_meta_key attrs_key
                 decode_group_metadata decode_array_metadata). }
  intros S R func s.
  rewrite !(visitvalues_run store depth self nodes) by done.
  split_and!.
  - destruct (loop_traced id func nodes None [] s) as (visited & Hp & Hrun).
    exists visited. split; [done|]. rewrite list_fmap_id in Hrun. exact Hrun.
  - intros pre x post v s1 s2 -> Hc Hx. split.
    + apply (loop_stop id func pre x post None s s1 s2 v);
        [by rewrite list_fmap_id|done].
    + apply (loop_stop id (traced func) pre x post None ([], s) (pre, s1)).
      * rewrite list_fmap_id. by apply (continues_traced func pre []).
      * by apply traced_stop.
  - intros s' Hc. split.
    + apply (loop_all id func). by rewrite list_fmap_id.
    + apply (loop_all id (traced func)). rewrite list_fmap_id.
      by apply (continues_traced func nodes []).
Qed.

Lemma names_lt_irrefl (n : string) : ¬ seg_lt (split n) (split n).
Proof. apply seg_lt_irrefl. Qed.

Lemma names_lt_trans (n1 n2 n3 : string) :
  seg_lt (split n1) (split n2) → seg_lt (split n2) (split n3) →
  seg_lt (split n1) (split n3).
Proof. apply seg_lt_trans. Qed.

(** C4. Under the same conditions, [visit] calls the visitor with the
    path of each descendant relative to the group: the path of the
    descendant is the key prefix of the group followed by the name
    passed, which is not empty and has no leading separator. The names
    are passed in strictly increasing order of their lists of segments:
    a name with more than one segment comes after the name of its
    parent, which is passed too, and of two names that differ in their
    last segment only, the one with the smaller last segment comes
    first. The result is that of [visitvalues] on the visitor applied to
    the relative name: the first value that is not [None] is returned at
    once, and [None] after the last name otherwise. *)
Theorem visit_relative_paths_in_order
    (store : gmap string bytes) (depth : nat) (path : string)
    (read_only chunk_store : bool) (synchronizer : option Sync)
    (self : Group) :
  store_wf store → decodable store →
  __init__ store path read_only chunk_store synchronizer = Ok self →
  max_key_length store < depth →
  let base_len := String.length (Hierarchy.name self) in
  ∃ nodes : list Node,
    _visit depth store (NGroup self) = Gen (NGroup self :: nodes) None ∧
    (∀ o, o ∈ nodes ↔ descends store (NGroup self) o) ∧
    let names := relative_name base_len <$> nodes in
    Forall (λ o, node_path o = _key_prefix self +:+ relative_name base_len o ∧
                 relative_name base_len o ≠ "" ∧
                 starts_with_sep (relative_name base_len o) = false) nodes ∧
    StronglySorted (λ n1 n2, seg_lt (split n1) (split n2)) names ∧
    (∀ j p k, names !! j = Some (p +:+ "/" +:+ k) → has_sep k = false →
       ∃ i, i < j ∧ names !! i = Some p) ∧
    (∀ i j p k1 k2,
       names !! i = Some (p +:+ k1) → names !! j = Some (p +:+ k2) →
       p = "" ∨ (∃ q, p = q +:+ "/") →
       has_sep k1 = false → has_sep k2 = false → Str.lt k1 k2 → i < j) ∧
    ∀ (S R : Type) (func : string → S → result (option R) * S) (s : S),
      visit depth store self func s =
        visitvalues depth store self (λ o, func (relative_name base_len o)) s ∧
      (∀ pre n post v s1 s2,
         names = pre ++ (n :: post) →
         continues func pre s s1 →
         func n s1 = (Ok (Some v), s2) →
         visit depth store self func s = (Ok (Some v), s2) ∧
         visit depth store self (traced func) ([], s)
         = (Ok (Some v), (pre ++ [n], s2))) ∧
      (∀ s',
         continues func names s s' →
         visit depth store self func s = (Ok None, s') ∧
         visit depth store self (traced func) ([], s)
         = (Ok None, (names, s'))).
Proof.
  intros Hwf Hdec Hinit Hdepth base_len.
  destruct (the_traversal store depth path read_only chunk_store synchronizer
              self Hwf Hdec Hinit Hdepth)
    as (Hok & nodes & Hv & Hpre & Hel & Hsorted).
  exists nodes. split; [done|]. split; [done|]. intros names.
  assert (Hname : ∀ x, x ∈ nodes →
    ∃ rel, rel ≠ [] ∧ Forall (λ k, k ≠ "" ∧ has_sep k = false) rel ∧
      relative_name base_len x = join rel ∧
      node_path x = _key_prefix self +:+ join rel ∧
      node_segments x = node_segments (NGroup self) ++ rel ∧
      split (relative_name base_len x) = rel).
  { intros x Hx%Hel.
    destruct (the_descendant_name store self x Hwf Hdec Hok Hx)
      as (rel & Hrel & Hall & Hn & Hp & Hs).
    exists rel. split_and!; try done.
    fold base_len in Hn. rewrite Hn. by apply split_join_ok. }
  assert (Hnames : StronglySorted (λ n1 n2, seg_lt (split n1) (split n2)) names).
  { eapply (StronglySorted_fmap_rel seg_lt _ node_segments); [|done].
    intros x y Hx Hy Hlt.
    destruct (Hname x Hx) as (rx & _ & _ & _ & _ & Hsx & ->).
    destruct (Hname y Hy) as (ry & _ & _ & _ & _ & Hsy & ->).
    rewrite Hsx, Hsy in Hlt. by eapply seg_lt_app_inv_l. }
  assert (Hbefore : ∀ i j n1 n2,
    names !! i = Some n1 → names !! j = Some n2 →
    seg_lt (split n1) (split n2) → i < j).
  { intros i j n1 n2 Hi Hj Hlt.
    eapply (StronglySorted_lookup_inv
              (λ n1 n2, seg_lt (split n1) (split n2)) names i j n1 n2);
      try done.
    - intros a. apply names_lt_irrefl.
    - intros a b c. apply names_lt_trans. }
  split_and!; try done.
  - apply Forall_forall. intros x Hx.
    destruct (Hname x Hx) as (rel & Hrel & Hall & Hn & Hp & _ & _).
    rewrite Hn. split_and!; [done|by apply join_nonempty|by apply join_not_starts].
  - intros j p k Hj Hk.
    apply list_lookup_fmap_Some in Hj as (x & Hxn & Hxj).
    assert (Hx : x ∈ nodes) by (by eapply list_elem_of_lookup_2).
    destruct (Hname x Hx) as (rel & Hrel & Hall & Hn & Hp & Hseg & Hsplit).
    rewrite <-Hxn, split_app_sep, (split_sep_free k) in Hsplit by done.
    apply Hel in Hx.
    destruct (descends_last group_meta_key array_meta_key attrs_key
                decode_group_metadata decode_array_metadata store _ _ Hx)
      as [Hch|(c & Hdc & Hch)].
    + destruct (child_facts group_meta_key array_meta_key attrs_key
                  decode_group_metadata decode_array_metadata store
                  (NGroup self) x Hwf Hdec Hok Hch)
        as (k0 & _ & _ & Hpath & _ & Hne & Hsep & _).
      destruct (child_path_facts (_path self) k0 (proj1 Hok) Hne Hsep)
        as (_ & _ & Hseg0 & _).
      unfold node_segments in Hseg at 1. rewrite Hpath in Hseg.
      simpl in Hseg. unfold node_segments in Hseg. simpl in Hseg.
      rewrite Hseg0 in Hseg. apply app_inv_head in Hseg.
      rewrite <-Hseg in Hsplit.
      destruct (split p) as [|? [|? ?]] eqn:Hsp; try done.
      by apply split_not_nil in Hsp.
    + assert (Hcin : c ∈ nodes) by (by apply Hel).
      destruct (Hname c Hcin) as (rc & _ & Hallc & Hnc & _ & Hsegc & _).
      assert (Hcok : node_ok c).
      { by destruct (descends_below group_meta_key array_meta_key attrs_key
                       decode_group_metadata decode_array_metadata store
                       (NGroup self) c Hwf Hdec Hok Hdc). }
      destruct (child_facts group_meta_key array_meta_key attrs_key
                  decode_group_metadata decode_array_metadata store
                  c x Hwf Hdec Hcok Hch)
        as (k0 & _ & _ & Hpath & _ & Hne & Hsep & _).
      destruct (child_path_facts (node_path c) k0 (node_ok_normal c Hcok)
                  Hne Hsep) as (_ & _ & Hseg0 & _).
      unfold node_segments in Hseg at 1. rewrite Hpath, Hseg0 in Hseg.
      fold (node_segments c) in Hseg. rewrite Hsegc in Hseg.
      rewrite <-(assoc_L (++)) in Hseg. apply app_inv_head in Hseg.
      rewrite <-Hseg in Hsplit. apply app_inj_tail in Hsplit as [Hp' _].
      assert (Hcn : relative_name base_len c = p).
      { rewrite Hnc, <-Hp'. apply join_split. }
      apply list_elem_of_lookup in Hcin as [i Hi].
      exists i. split.
      * apply (Hbefore i j p (p +:+ "/" +:+ k)).
        -- unfold names. by rewrite list_lookup_fmap, Hi, <-Hcn.
        -- unfold names. by rewrite list_lookup_fmap, Hxj, Hxn.
        -- rewrite split_app_sep, (split_sep_free k) by done.
           by apply seg_lt_below.
      * unfold names. by rewrite list_lookup_fmap, Hi, <-Hcn.
  - intros i j p k1 k2 Hi Hj Hp Hk1 Hk2 Hlt.
    apply (Hbefore i j _ _ Hi Hj).
    destruct Hp as [->|[q ->]].
    + rewrite !append_nil_l.
      rewrite (split_sep_free k1), (split_sep_free k2) by done.
      by constructor.
    + rewrite !append_assoc, !split_app_sep.
      rewrite (split_sep_free k1), (split_sep_free k2) by done.
      apply seg_lt_app_l. by constructor.
  - intros S R func s.
    assert (Hvisit : ∀ (S' : Type) (func' : string → S' → result (option R) * S')
              (s0 : S'),
      visit depth store self func' s0 =
      Hierarchy.visit_loop (λ o, func' (relative_name base_len o)) nodes None s0).
    { intros S' func' s0. unfold Hierarchy.visit. fold base_len.
      by rewrite (visitvalues_run store depth self nodes). }
    split_and!.
    + done.
    + intros pre n post v s1 s2 Hdec' Hc Hn.
      unfold names in Hdec'.
      apply fmap_app_inv in Hdec' as (pre' & rest & -> & Hrest & ->).
      symmetry in Hrest.
      apply fmap_cons_inv in Hrest as (x & post' & -> & -> & ->).
      rewrite !Hvisit. split.
      * by apply (loop_stop (relative_name base_len) func pre' x post' None
                    s s1 s2 v).
      * apply (loop_stop (relative_name base_len) (traced func) pre' x post'
                 None ([], s) (relative_name base_len <$> pre', s1)).
        -- by apply (continues_traced func _ []).
        -- by apply traced_stop.
    + intros s' Hc. rewrite !Hvisit. split.
      * by apply (loop_all (relative_name base_len) func).
      * apply (loop_all (relative_name base_len) (traced func)).
        by apply (continues_traced func _ []).
Qed.

End Visiting.
End Visiting.

Module Witnesses.
Import Str StrFacts SplitFacts Tree.

Local Abbreviation demo_call :=
  (Hierarchy.call Demo.group_meta_key Demo.array_meta_key Demo.attrs_key
     Demo.decode_group_metadata Demo.decode_array_metadata
     Demo.normalize_shape Demo.init_group Demo.creation).
Local Abbreviation demo_nosync :=
  (Hierarchy.nosync Demo.group_meta_key Demo.array_meta_key Demo.attrs_key
     Demo.decode_group_metadata Demo.decode_array_metadata
     Demo.normalize_shape Demo.init_group Demo.creation).
Local Abbreviation demo_visit :=
  (Hierarchy._visit Demo.group_meta_key Demo.array_meta_key Demo.attrs_key
     Demo.decode_group_metadata Demo.decode_array_metadata).
Local Abbreviation demo_delitem :=
  (Hierarchy.__delitem__ Demo.group_meta_key Demo.array_meta_key).

Lemma demo_keys (key : string) :
  is_Some (Demo.store1 !! key) →
  key ∈ [".zgroup"; "foo/.zgroup"; "bar/.zgroup"; "bar/baz/.zgroup";
         "bar/quux/.zgroup"; "bar/quux/baz/.zarray"; "bar/quux/baz/0";
         "stray"].
Proof.
  intros [b Hb]. unfold Demo.store1 in Hb.
  apply elem_of_list_to_map_2 in Hb.
  apply (list_elem_of_fmap_2 fst) in Hb. exact Hb.
Qed.

(** No path of the concrete store carries both sentinels. *)
Lemma demo_exclusive (path : string) :
  ¬ (contains_array Demo.array_meta_key Demo.store1 path = true ∧
     contains_group Demo.group_meta_key Demo.store1 path = true).
Proof.
  intros [Ha Hg]. apply bool_decide_eq_true in Ha, Hg.
  apply demo_keys in Ha.
  remember (_path_to_prefix path) as pre eqn:Hpre. clear Hpre.
  assert (Hpre : pre = "bar/quux/baz/").
  { repeat (apply elem_of_cons in Ha as [Ha|Ha]);
      try (by apply elem_of_nil in Ha);
      apply (f_equal (cut_suffix Demo.array_meta_key)) in Ha;
      rewrite cut_suffix_app in Ha; vm_compute in Ha; congruence. }
  rewrite Hpre in Hg. vm_compute in Hg. by destruct Hg.
Qed.

Lemma visitvalues_preorder_short_circuit_witness :
  ∃ nodes,
    demo_visit 30 Demo.store1 (NGroup Demo.root)
      = Gen (NGroup Demo.root :: nodes) None ∧
    NGroup Demo.root ∉ nodes.
Proof.
  destruct (Visiting.visitvalues_preorder_short_circuit
              Demo.group_meta_key Demo.array_meta_key Demo.attrs_key
              Demo.decode_group_metadata Demo.decode_array_metadata
              Demo.store1 30 "" false false None Demo.root)
    as (nodes & Hv & _ & _ & Hroot & _).
  - apply (bool_decide_unpack _). by vm_compute.
  - apply (bool_decide_unpack _). by vm_compute.
  - by vm_compute.
  - apply Nat.ltb_lt. by vm_compute.
  - exists nodes. split; assumption.
Defined.

Lemma visit_relative_paths_in_order_witness :
  ∃ nodes,
    demo_visit 30 Demo.store1 (NGroup Demo.bar)
      = Gen (NGroup Demo.bar :: nodes) None ∧
    StronglySorted (λ n1 n2, seg_lt (split n1) (split n2))
      (Hierarchy.relative_name (String.length (Hierarchy.name Demo.bar))
         <$> nodes).
Proof.
  destruct (Visiting.visit_relative_paths_in_order
              Demo.group_meta_key Demo.array_meta_key Demo.attrs_key
              Demo.decode_group_metadata Demo.decode_array_metadata
              Demo.store1 30 "bar" false false None Demo.bar)
    as (nodes & Hv & _ & _ & Hs & _).
  - apply (bool_decide_unpack _). by vm_compute.
  - apply (bool_decide_unpack _). by vm_compute.
  - by vm_compute.
  - apply Nat.ltb_lt. by vm_compute.
  - exists nodes. split; assumption.
Defined.

Lemma read_only_handle_rejects_mutation_witness :
  demo_call Demo.root_ro (Hierarchy.Call_delitem "bar") Demo.world1
  = (Raise ReadOnlyError, Demo.world1).
Proof.
  apply (Guard.read_only_handle_rejects_mutation Demo.group_meta_key
           Demo.array_meta_key Demo.attrs_key Demo.decode_group_metadata
           Demo.decode_array_metadata Demo.normalize_shape Demo.init_group
           Demo.creation Demo.root_ro (Hierarchy.Call_delitem "bar")
           Demo.world1).
  reflexivity.
Defined.

Lemma write_op_locks_root_key_witness :
  ∃ r w',
    demo_nosync Demo.root_sync (Hierarchy.Call_create_group "a/b" false)
      (log (Acquire 7 Demo.group_meta_key) Demo.world1) = (r, w') ∧
    demo_call Demo.root_sync (Hierarchy.Call_create_group "a/b" false)
      Demo.world1 = (r, log (Release 7 Demo.group_meta_key) w').
Proof.
  apply (proj1 (Guard.write_op_locks_root_key Demo.group_meta_key
           Demo.array_meta_key Demo.attrs_key Demo.decode_group_metadata
           Demo.decode_array_metadata Demo.normalize_shape Demo.init_group
           Demo.creation Demo.root_sync
           (Hierarchy.Call_create_group "a/b" false) Demo.world1
           eq_refl) 7 eq_refl).
Defined.

Lemma delitem_removes_subtree_witness :
  ∃ w', demo_delitem Demo.root "bar" Demo.world1 = (Ok (), w') ∧
    w_store w' = rmdir Demo.store1 "bar" ∧
    Hierarchy.__contains__ Demo.group_meta_key Demo.array_meta_key
      (w_store w') Demo.root "bar/quux/baz" = false.
Proof.
  destruct (proj1 (Guard.delitem_removes_subtree Demo.group_meta_key
              Demo.array_meta_key Demo.root "bar" Demo.world1 eq_refl))
    as (w' & Hrun & Hst & _ & _ & _ & _ & Hc).
  - by vm_compute.
  - exists w'. split_and!; [done..|].
    apply Hc. right. exists "quux/baz". by vm_compute.
Defined.

Lemma iter_is_disjoint_union_of_typed_keys_witness :
  Hierarchy.__iter__ Demo.group_meta_key Demo.array_meta_key Demo.store1
    Demo.bar ≡ₚ
  Hierarchy.group_keys Demo.group_meta_key Demo.store1 Demo.bar ++
  Hierarchy.array_keys Demo.array_meta_key Demo.store1 Demo.bar.
Proof.
  apply (Props.iter_is_disjoint_union_of_typed_keys Demo.group_meta_key
           Demo.array_meta_key Demo.store1 Demo.bar demo_exclusive).
Defined.

End Witnesses.

(** * Further properties of paths and lookups *)

Module PathFacts.
Import Str StrFacts SplitFacts Tree.

Lemma segments_app (p q : string) :
  segments (p +:+ "/" +:+ q) = segments p ++ segments q.
Proof. unfold segments. by rewrite split_app_sep, filter_app. Qed.

Lemma normalize_join_segments (s : string) :
  normalize_storage_path s = join (segments s).
Proof. done. Qed.

Lemma segments_normalize (s : string) :
  segments (normalize_storage_path s) = segments s.
Proof.
  rewrite normalize_join_segments.
  destruct (segments s) as [|k l] eqn:Hs; [done|].
  unfold segments at 1.
  rewrite split_join; [|done|rewrite <-Hs; apply segments_sep_free].
  rewrite filter_nonempty_id; [done|]. rewrite <-Hs. apply segments_nonempty.
Qed.

Lemma normalize_nonempty_segments (s : string) :
  normalize_storage_path s ≠ "" ↔ segments s ≠ [].
Proof.
  rewrite normalize_join_segments. split.
  - intros Hne Hnil. by rewrite Hnil in Hne.
  - intros Hne Hj. apply Hne. apply join_nil_inv; [|done].
    apply segments_nonempty.
Qed.

Lemma normalize_app (p q : string) :
  normalize_storage_path p ≠ "" → normalize_storage_path q ≠ "" →
  normalize_storage_path (p +:+ "/" +:+ q)
  = normalize_storage_path p +:+ "/" +:+ normalize_storage_path q.
Proof.
  intros Hp%normalize_nonempty_segments Hq%normalize_nonempty_segments.
  rewrite !normalize_join_segments, segments_app. by apply join_app.
Qed.

Lemma relative_nonempty_normalize (a : string) :
  a ≠ "" → starts_with_sep a = false → normalize_storage_path a ≠ "".
Proof.
  intros Ha Hs. apply normalize_nonempty_segments.
  destruct a as [|c a]; [done|]. simpl in Hs.
  destruct (split_cons_other c a Hs) as (seg & rest & _ & Hsplit).
  unfold segments. rewrite Hsplit. by rewrite filter_cons_True.
Qed.

End PathFacts.

Module Paths.
Import Str StrFacts SplitFacts Tree PathFacts TreeFacts LoopFacts Traversal.

Section Paths.

Context (group_meta_key array_meta_key attrs_key : string).
Context (decode_group_metadata : bytes → option Z).

Local Abbreviation __init__ :=
  (Hierarchy.__init__ group_meta_key array_meta_key attrs_key
     decode_group_metadata).
Local Abbreviation the_init_handle_ok :=
  (init_handle_ok group_meta_key array_meta_key attrs_key
     decode_group_metadata).

(** X1. Pickling round trip: on the store a handle was built on,
    [__setstate__] of its [__getstate__] rebuilds the same handle. *)
Theorem setstate_getstate_round_trip
    (store : gmap string bytes) (path : string)
    (read_only chunk_store : bool) (synchronizer : option Sync)
    (self : Group) :
  __init__ store path read_only chunk_store synchronizer = Ok self →
  Hierarchy.__setstate__ group_meta_key array_meta_key attrs_key
    decode_group_metadata store (Hierarchy.__getstate__ self) = Ok self.
Proof.
  intros Hinit. unfold Hierarchy.__init__ in Hinit.
  destruct (contains_array _ _ _) eqn:Ha; [done|].
  destruct (store !! _) as [b|] eqn:Hb; [|done].
  destruct (decode_group_metadata b) as [meta|] eqn:Hm; [|done].
  injection Hinit as <-.
  unfold Hierarchy.__setstate__, Hierarchy.__getstate__, Hierarchy.__init__.
  simpl. by rewrite normalize_idemp, Ha, Hb, Hm.
Qed.

(** X2. The name of a handle built by the constructor is its path
    with one leading separator: it always starts with the separator,
    and it is the separator alone exactly for the root. *)
Theorem name_is_rooted_path
    (store : gmap string bytes) (path : string)
    (read_only chunk_store : bool) (synchronizer : option Sync)
    (self : Group) :
  __init__ store path read_only chunk_store synchronizer = Ok self →
  Hierarchy.name self = "/" +:+ _path self ∧
  _path self = normalize_storage_path path ∧
  starts_with_sep (Hierarchy.name self) = true ∧
  starts_with_sep (_path self) = false ∧
  (Hierarchy.name self = "/" ↔ _path self = "").
Proof.
  intros Hinit.
  destruct (the_init_handle_ok store path read_only chunk_store synchronizer
              self Hinit) as [Hok Hpath].
  rewrite (name_normal self Hok).
  split_and!; try done.
  - apply normal_not_starts, Hok.
  - split; [by intros [= ?]|by intros ->].
Qed.

(** X3. Resolution of item names from a handle built by the
    constructor: a name with a leading separator resolves to its own
    normal form, whatever the group; any other name resolves under the
    key prefix of the group; and the path obtained is in normal form
    whenever the name has a segment that is not empty. *)
Theorem item_path_resolution
    (store : gmap string bytes) (path : string)
    (read_only chunk_store : bool) (synchronizer : option Sync)
    (self : Group) (item : string) :
  __init__ store path read_only chunk_store synchronizer = Ok self →
  (starts_with_sep item = true →
     Hierarchy._item_path self item = normalize_storage_path item) ∧
  (starts_with_sep item = false →
     Hierarchy._item_path self item =
       _key_prefix self +:+ normalize_storage_path item) ∧
  (normalize_storage_path item ≠ "" →
     normalize_storage_path (Hierarchy._item_path self item) =
       Hierarchy._item_path self item ∧
     Hierarchy._item_path self item ≠ "").
Proof.
  intros Hinit.
  destruct (the_init_handle_ok store path read_only chunk_store synchronizer
              self Hinit) as [[Hn Hp] _].
  assert (Hrel : starts_with_sep item = false →
    Hierarchy._item_path self item =
      _key_prefix self +:+ normalize_storage_path item).
  { intros Hs. unfold Hierarchy._item_path. rewrite Hs. simpl.
    destruct (nonempty (_path self)) eqn:Hne; [done|].
    rewrite Hp. by destruct (_path self). }
  split_and!; [|done|].
  - intros Hs. unfold Hierarchy._item_path. by rewrite Hs.
  - intros Hitem. destruct (starts_with_sep item) eqn:Hs.
    + unfold Hierarchy._item_path. rewrite Hs. simpl.
      by rewrite normalize_idemp.
    + rewrite Hrel, Hp by done.
      destruct (decide (_path self = "")) as [Hnil|Hne].
      * rewrite Hnil. simpl. rewrite append_nil_l.
        by rewrite normalize_idemp.
      * rewrite path_to_prefix_nonempty, append_assoc by done.
        rewrite normalize_app, Hn, normalize_idemp.
        -- split; [done|]. by destruct (_path self).
        -- by rewrite Hn.
        -- by rewrite normalize_idemp.
Qed.

End Paths.
End Paths.

Module Lookup.
Import Str StrFacts SplitFacts Tree PathFacts Props TreeFacts LoopFacts
  Traversal.

Section Lookup.

Context (group_meta_key array_meta_key attrs_key : string).
Context (decode_group_metadata : bytes → option Z).
Context (decode_array_metadata : bytes → option (list Z * dtype)).

Local Abbreviation contains_array := (contains_array array_meta_key).
Local Abbreviation contains_group := (contains_group group_meta_key).
Local Abbreviation __init__ :=
  (Hierarchy.__init__ group_meta_key array_meta_key attrs_key
     decode_group_metadata).
Local Abbreviation Array_init :=
  (Hierarchy.Array_init array_meta_key decode_array_metadata).
Local Abbreviation __iter__ := (Hierarchy.__iter__ group_meta_key array_meta_key).
Local Abbreviation __len__ := (Hierarchy.__len__ group_meta_key array_meta_key).
Local Abbreviation group_keys := (Hierarchy.group_keys group_meta_key).
Local Abbreviation array_keys := (Hierarchy.array_keys array_meta_key).
Local Abbreviation __contains__ :=
  (Hierarchy.__contains__ group_meta_key array_meta_key).
Local Abbreviation __getitem__ :=
  (Hierarchy.__getitem__ group_meta_key array_meta_key attrs_key
     decode_group_metadata decode_array_metadata).
Local Abbreviation groups :=
  (Hierarchy.groups group_meta_key array_meta_key attrs_key
     decode_group_metadata).
Local Abbreviation arrays :=
  (Hierarchy.arrays array_meta_key decode_array_metadata).
Local Abbreviation decodable :=
  (Tree.decodable group_meta_key array_meta_key decode_group_metadata
     decode_array_metadata).
Local Abbreviation the_init_handle_ok :=
  (init_handle_ok group_meta_key array_meta_key attrs_key
     decode_group_metadata).

Lemma init_inv (store : gmap string bytes) (path : string)
    (read_only chunk_store : bool) (synchronizer : option Sync) (g : Group) :
  __init__ store path read_only chunk_store synchronizer = Ok g →
  contains_array store (normalize_storage_path path) = false ∧
  contains_group store (normalize_storage_path path) = true ∧
  _path g = normalize_storage_path path ∧
  _read_only g = read_only ∧ _chunk_store g = chunk_store ∧
  _synchronizer g = synchronizer.
Proof.
  unfold Hierarchy.__init__.
  destruct (contains_array _ _) eqn:Ha; [done|].
  destruct (store !! _) as [b|] eqn:Hb; [|done].
  destruct (decode_group_metadata b); [|done].
  intros [= <-]. split_and!; try done.
  apply bool_decide_eq_true. by exists b.
Qed.

Lemma init_ok (store : gmap string bytes) (path : string)
    (read_only chunk_store : bool) (synchronizer : option Sync) :
  decodable store →
  normalize_storage_path path = path →
  contains_array store path = false → contains_group store path = true →
  ∃ g, __init__ store path read_only chunk_store synchronizer = Ok g.
Proof.
  intros Hdec Hn Ha Hg. unfold Hierarchy.__init__. rewrite Hn, Ha.
  apply bool_decide_eq_true in Hg as [b Hb].
  unfold _path_to_prefix in Hb. rewrite Hb.
  destruct (decodable_group group_meta_key array_meta_key
              decode_group_metadata decode_array_metadata store _ b Hdec Hb)
    as [meta ->].
  by eexists.
Qed.

Lemma array_init_inv (store : gmap string bytes) (path : string)
    (read_only chunk_store : bool) (synchronizer : option Sync)
    (cache_metadata : bool) (a : Array) :
  Array_init store path read_only chunk_store synchronizer cache_metadata
    = Ok a →
  a_path a = normalize_storage_path path ∧
  a_read_only a = read_only ∧ a_chunk_store a = chunk_store ∧
  a_synchronizer a = synchronizer.
Proof.
  unfold Hierarchy.Array_init.
  destruct (store !! _) as [b|]; [|done].
  destruct (decode_array_metadata b) as [[shape dt]|]; [|done].
  by intros [= <-].
Qed.

Lemma array_init_ok (store : gmap string bytes) (path : string)
    (read_only chunk_store : bool) (synchronizer : option Sync)
    (cache_metadata : bool) :
  decodable store →
  normalize_storage_path path = path →
  contains_array store path = true →
  ∃ a, Array_init store path read_only chunk_store synchronizer
         cache_metadata = Ok a.
Proof.
  intros Hdec Hn Ha. unfold Hierarchy.Array_init. rewrite Hn.
  apply bool_decide_eq_true in Ha as [b Hb]. rewrite Hb.
  destruct (decodable_array group_meta_key array_meta_key
              decode_group_metadata decode_array_metadata store _ b Hdec Hb)
    as [[shape dt] ->].
  by eexists.
Qed.


Lemma item_path_rel (g : Group) (item : string) :
  handle_ok g → starts_with_sep item = false →
  Hierarchy._item_path g item =
    _path_to_prefix (_path g) +:+ normalize_storage_path item.
Proof.
  intros [Hn Hp] Hs. unfold Hierarchy._item_path. rewrite Hs. simpl.
  destruct (nonempty (_path g)) eqn:Hne; [by rewrite Hp|].
  by destruct (_path g).
Qed.

Lemma prefix_child_normal (p n : string) :
  normalize_storage_path p = p → normalize_storage_path n = n → n ≠ "" →
  normalize_storage_path (_path_to_prefix p +:+ n) = _path_to_prefix p +:+ n ∧
  _path_to_prefix p +:+ n ≠ "".
Proof.
  intros Hp Hn Hne. destruct (decide (p = "")) as [->|Hpne].
  - by rewrite path_to_prefix_nil, append_nil_l.
  - rewrite path_to_prefix_nonempty, append_assoc by done.
    rewrite normalize_app, Hp, Hn by (by rewrite ?Hp, ?Hn).
    split; [done|]. by destruct p.
Qed.

Lemma relative_app (a b : string) :
  a ≠ "" → starts_with_sep a = false →
  starts_with_sep (a +:+ "/" +:+ b) = false.
Proof. intros Ha Hs. destruct a; [done|]. by rewrite append_cons. Qed.

(** X4. Membership and lookup agree: [self[item]] raises [KeyError]
    exactly when [item in self] is false; what it returns is an array
    when the resolved path carries the array sentinel (also when it
    carries both) and a group otherwise, at the normal form of the
    resolved path and with the read-only flag, chunk store and
    synchronizer of the group it was taken from; and on a store whose
    metadata decodes, every contained item with a normal resolved path
    is returned. *)
Theorem getitem_agrees_with_contains
    (store : gmap string bytes) (self : Group) (item : string) :
  let path := Hierarchy._item_path self item in
  (__contains__ store self item = false ↔
   __getitem__ store self item = Raise (KeyError item)) ∧
  (∀ a, __getitem__ store self item = Ok (NArray a) →
     contains_array store path = true ∧
     a_path a = normalize_storage_path path ∧
     a_read_only a = _read_only self ∧
     a_chunk_store a = _chunk_store self ∧
     a_synchronizer a = _synchronizer self) ∧
  (∀ g, __getitem__ store self item = Ok (NGroup g) →
     contains_array store path = false ∧
     contains_group store path = true ∧
     _path g = normalize_storage_path path ∧
     _read_only g = _read_only self ∧
     _chunk_store g = _chunk_store self ∧
     _synchronizer g = _synchronizer self) ∧
  (decodable store → normalize_storage_path path = path →
   __contains__ store self item = true →
   ∃ o, __getitem__ store self item = Ok o).
Proof.
  intros path. unfold Hierarchy.__contains__, Hierarchy.__getitem__.
  fold path.
  destruct (contains_array store path) eqn:Ha; simpl.
  - split_and!.
    + split; [done|].
      unfold Hierarchy.Array_init.
      destruct (store !! _); [|done].
      by destruct (decode_array_metadata _) as [[??]|].
    + intros a Hget.
      destruct (Array_init _ _ _ _ _ _) as [a'|e] eqn:Hi; [|done].
      injection Hget as <-. split; [done|]. by eapply array_init_inv.
    + intros g Hget. by destruct (Array_init _ _ _ _ _ _).
    + intros Hdec Hn _.
      destruct (array_init_ok store path (_read_only self)
                  (_chunk_store self) (_synchronizer self) true Hdec Hn Ha)
        as [a ->].
      by eexists.
  - destruct (contains_group store path) eqn:Hg; simpl.
    + split_and!.
      * split; [done|].
        unfold Hierarchy.__init__. cbv zeta.
        destruct (contains_array store (normalize_storage_path path));
          [done|].
        destruct (store !! _); [|simpl; discriminate].
        destruct (decode_group_metadata _); simpl; discriminate.
      * intros a Hget. by destruct (__init__ _ _ _ _ _).
      * intros g Hget.
        destruct (__init__ _ _ _ _ _) as [g'|e] eqn:Hi; [|done].
        injection Hget as <-.
        destruct (init_inv _ _ _ _ _ _ Hi) as (_ & _ & ? & ? & ? & ?).
        by split_and!.
      * intros Hdec Hn _.
        destruct (init_ok store path (_read_only self) (_chunk_store self)
                    (_synchronizer self) Hdec Hn Ha Hg) as [g ->].
        by eexists.
    + split_and!; done.
Qed.

(** X5. Navigation composes: when [self[a]] is a group, looking a
    relative name [b] up in that group is looking [a/b] up in [self].
    The two resolve to the same path, so membership agrees, the same
    object is returned, and a missing item is a [KeyError] in both. *)
Theorem getitem_composes
    (store : gmap string bytes) (path : string)
    (read_only chunk_store : bool) (synchronizer : option Sync)
    (self h : Group) (a b : string) :
  __init__ store path read_only chunk_store synchronizer = Ok self →
  a ≠ "" → starts_with_sep a = false →
  b ≠ "" → starts_with_sep b = false →
  __getitem__ store self a = Ok (NGroup h) →
  Hierarchy._item_path h b = Hierarchy._item_path self (a +:+ "/" +:+ b) ∧
  __contains__ store h b = __contains__ store self (a +:+ "/" +:+ b) ∧
  (∀ o, __getitem__ store h b = Ok o ↔
        __getitem__ store self (a +:+ "/" +:+ b) = Ok o) ∧
  (__getitem__ store h b = Raise (KeyError b) ↔
   __getitem__ store self (a +:+ "/" +:+ b)
     = Raise (KeyError (a +:+ "/" +:+ b))).
Proof.
  intros Hinit Ha Hsa Hb Hsb Hget.
  destruct (the_init_handle_ok store path read_only chunk_store synchronizer
              self Hinit) as [Hok _].
  assert (Hna := relative_nonempty_normalize a Ha Hsa).
  assert (Hnb := relative_nonempty_normalize b Hb Hsb).
  assert (Hpa := item_path_rel self a Hok Hsa).
  destruct (prefix_child_normal (_path self) (normalize_storage_path a)
              (proj1 Hok) (normalize_idemp a) Hna) as [Hnorm Hne].
  unfold Hierarchy.__getitem__ in Hget. rewrite Hpa in Hget.
  destruct (contains_array store _) eqn:Harr;
    [by destruct (Array_init _ _ _ _ _ _)|].
  destruct (contains_group store _) eqn:Hgrp; [|done].
  destruct (__init__ store (_ +:+ _) _ _ _) as [h'|e] eqn:Hh; [|done].
  simpl in Hget. injection Hget as ->.
  destruct (the_init_handle_ok _ _ _ _ _ _ Hh) as [Hokh Hph].
  destruct (init_inv _ _ _ _ _ _ Hh) as (_ & _ & _ & Hro & Hcs & Hsy).
  rewrite Hnorm in Hph.
  assert (Hpath : Hierarchy._item_path h b =
                  Hierarchy._item_path self (a +:+ "/" +:+ b)).
  { rewrite (item_path_rel h b Hokh Hsb).
    rewrite (item_path_rel self _ Hok (relative_app a b Ha Hsa)).
    rewrite normalize_app by done.
    rewrite Hph, path_to_prefix_nonempty by done.
    by rewrite !append_assoc. }
  unfold Hierarchy.__contains__, Hierarchy.__getitem__.
  rewrite Hpath, Hro, Hcs, Hsy.
  set (p := Hierarchy._item_path self (a +:+ "/" +:+ b)).
  split_and!; try done.
  - intros o. destruct (contains_array store p); [done|].
    destruct (contains_group store p); [done|split; discriminate].
  - destruct (contains_array store p) eqn:Hap.
    { unfold Hierarchy.Array_init. destruct (store !! _); [|done].
      by destruct (decode_array_metadata _) as [[??]|]. }
    destruct (contains_group store p); [|done].
    unfold Hierarchy.__init__. cbv zeta.
    destruct (contains_array store (normalize_storage_path p)); [done|].
    destruct (store !! _); [|done].
    by destruct (decode_group_metadata _).
Qed.

(** X6. Two handles built by the constructor compare equal exactly
    when they are on the same store, have the same read-only flag and
    the same normal path; the chunk store and the synchronizer play no
    part, and a group never equals an array. Handles that compare equal
    resolve every item to the same path and list the same members. *)
Theorem eq_compares_store_mode_and_path
    (store1 store2 : gmap string bytes) (path1 path2 : string)
    (read_only1 read_only2 chunk_store1 chunk_store2 : bool)
    (synchronizer1 synchronizer2 : option Sync) (g1 g2 : Group) :
  __init__ store1 path1 read_only1 chunk_store1 synchronizer1 = Ok g1 →
  __init__ store2 path2 read_only2 chunk_store2 synchronizer2 = Ok g2 →
  (Hierarchy.__eq__ store1 g1 store2 (NGroup g2) = true ↔
   store1 = store2 ∧ read_only1 = read_only2 ∧
   normalize_storage_path path1 = normalize_storage_path path2) ∧
  Hierarchy.__eq__ store1 g1 store2 (NGroup g2) =
    Hierarchy.__eq__ store2 g2 store1 (NGroup g1) ∧
  (∀ a, Hierarchy.__eq__ store1 g1 store2 (NArray a) = false) ∧
  (Hierarchy.__eq__ store1 g1 store2 (NGroup g2) = true →
   (∀ item, Hierarchy._item_path g1 item = Hierarchy._item_path g2 item ∧
            __contains__ store1 g1 item = __contains__ store2 g2 item) ∧
   __iter__ store1 g1 = __iter__ store2 g2).
Proof.
  intros H1 H2.
  destruct (init_inv _ _ _ _ _ _ H1) as (_ & _ & Hp1 & Hr1 & _ & _).
  destruct (init_inv _ _ _ _ _ _ H2) as (_ & _ & Hp2 & Hr2 & _ & _).
  destruct (the_init_handle_ok _ _ _ _ _ _ H1) as [[_ Hk1] _].
  destruct (the_init_handle_ok _ _ _ _ _ _ H2) as [[_ Hk2] _].
  assert (Hiff : Hierarchy.__eq__ store1 g1 store2 (NGroup g2) = true ↔
    store1 = store2 ∧ _read_only g1 = _read_only g2 ∧ _path g1 = _path g2).
  { unfold Hierarchy.__eq__. rewrite !andb_true_iff, !bool_decide_eq_true.
    tauto. }
  split_and!.
  - rewrite Hiff. by rewrite Hp1, Hp2, Hr1, Hr2.
  - unfold Hierarchy.__eq__.
    rewrite (bool_decide_ext (store1 = store2) (store2 = store1)) by done.
    rewrite (bool_decide_ext (_read_only g1 = _read_only g2)
               (_read_only g2 = _read_only g1)) by done.
    by rewrite (bool_decide_ext (_path g1 = _path g2)
                  (_path g2 = _path g1)).
  - done.
  - intros (-> & _ & Hp)%Hiff.
    assert (Hitem : ∀ item,
      Hierarchy._item_path g1 item = Hierarchy._item_path g2 item).
    { intros item. unfold Hierarchy._item_path. by rewrite Hk1, Hk2, Hp. }
    split.
    + intros item. unfold Hierarchy.__contains__. by rewrite Hitem.
    + unfold Hierarchy.__iter__. by rewrite Hk1, Hk2, Hp.
Qed.

Lemma init_contains_array (store : gmap string bytes) (path : string)
    (read_only chunk_store : bool) (synchronizer : option Sync) :
  contains_array store (normalize_storage_path path) = true →
  __init__ store path read_only chunk_store synchronizer
    = Raise (ContainsArrayError path).
Proof. intros Ha. unfold Hierarchy.__init__. by rewrite Ha. Qed.

Lemma groups_fold (store : gmap string bytes) (self : Group)
    (L : list string) :
  decodable store → handle_ok self →
  Forall (λ k, k ≠ "" ∧ has_sep k = false) L →
  let G :=
    foldr
      (λ key rest,
         let path := _key_prefix self +:+ key in
         if contains_group store path then
           match __init__ store path (_read_only self) (_chunk_store self)
                   (_synchronizer self) with
           | Ok g => gen_cons (key, g) rest
           | Raise e => Gen [] (Some e)
           end
         else rest)
      (Gen [] None) L in
  let members :=
    filter (λ key, contains_group store (_key_prefix self +:+ key) = true) L in
  (raised G = None ↔
   Forall (λ k, contains_array store (_key_prefix self +:+ k) = false)
     members) ∧
  (raised G = None →
   (yields G).*1 = members ∧
   Forall (λ kg, __getitem__ store self kg.1 = Ok (NGroup kg.2)) (yields G)).
Proof.
  intros Hdec Hok HL. induction HL as [|k L [Hk Hs] HL IH]; [done|].
  simpl in *. rewrite filter_cons.
  assert (Hitem := item_path_member self k Hok Hk Hs).
  destruct Hok as [Hn Hp]. rewrite Hp in *.
  destruct (child_path_facts (_path self) k Hn Hk Hs) as (Hcn & _ & _ & _).
  set (c := _path_to_prefix (_path self) +:+ k) in *.
  destruct (contains_group store c) eqn:Hg.
  - rewrite decide_True by done.
    destruct (contains_array store c) eqn:Ha.
    + rewrite init_contains_array by by rewrite Hcn.
      simpl. split; [|done]. split; [done|].
      intros [Hc _]%Forall_cons. fold c in Hc. congruence.
    + destruct (init_ok store c (_read_only self) (_chunk_store self)
                  (_synchronizer self) Hdec Hcn Ha Hg) as [g Hinit].
      rewrite Hinit. simpl. destruct IH as [IH1 IH2]. split.
      * rewrite IH1, Forall_cons. fold c. tauto.
      * intros Hr. destruct (IH2 Hr) as [Hy Hall].
        split; [simpl; f_equal; exact Hy|].
        apply Forall_cons. split; [|done]. simpl.
        unfold Hierarchy.__getitem__. by rewrite Hitem, Ha, Hg, Hinit.
  - by rewrite decide_False by done.
Qed.

Lemma arrays_fold (store : gmap string bytes) (self : Group)
    (L : list string) :
  decodable store → handle_ok self →
  Forall (λ k, k ≠ "" ∧ has_sep k = false) L →
  let G :=
    foldr
      (λ key rest,
         let path := _key_prefix self +:+ key in
         if contains_array store path then
           match Array_init store path (_read_only self) (_chunk_store self)
                   (_synchronizer self) true with
           | Ok a => gen_cons (key, a) rest
           | Raise e => Gen [] (Some e)
           end
         else rest)
      (Gen [] None) L in
  raised G = None ∧
  (yields G).*1 =
    filter (λ key, contains_array store (_key_prefix self +:+ key) = true) L ∧
  Forall (λ ka, __getitem__ store self ka.1 = Ok (NArray ka.2)) (yields G).
Proof.
  intros Hdec Hok HL. induction HL as [|k L [Hk Hs] HL IH]; [done|].
  simpl in *. rewrite filter_cons.
  assert (Hitem := item_path_member self k Hok Hk Hs).
  destruct Hok as [Hn Hp]. rewrite Hp in *.
  destruct (child_path_facts (_path self) k Hn Hk Hs) as (Hcn & _ & _ & _).
  set (c := _path_to_prefix (_path self) +:+ k) in *.
  destruct (contains_array store c) eqn:Ha.
  - rewrite decide_True by done.
    destruct (array_init_ok store c (_read_only self) (_chunk_store self)
                (_synchronizer self) true Hdec Hcn Ha) as [a Hinit].
    rewrite Hinit. simpl. destruct IH as (IH1 & IH2 & IH3).
    split_and!; [done|simpl; f_equal; exact IH2|].
    apply Forall_cons. split; [|done]. simpl.
    unfold Hierarchy.__getitem__. by rewrite Hitem, Ha, Hinit.
  - by rewrite decide_False by done.
Qed.

Lemma listing_names_ok (store : gmap string bytes) (path : string) :
  store_wf store →
  Forall (λ k, k ≠ "" ∧ has_sep k = false)
    (sorted (elements (listdir store path))).
Proof.
  intros Hwf. apply Forall_forall. intros k Hk%elem_of_listing.
  by eapply listed_name_ok.
Qed.

(** X7. [groups()] pairs each name of [group_keys()] with the handle
    that [self[name]] returns, in the same order. It runs to its end
    exactly when no member group also carries the array sentinel;
    otherwise the constructor raises in the middle of the iteration. *)
Theorem groups_pairs_group_keys_with_items
    (store : gmap string bytes) (path : string)
    (read_only chunk_store : bool) (synchronizer : option Sync)
    (self : Group) :
  __init__ store path read_only chunk_store synchronizer = Ok self →
  store_wf store → decodable store →
  (raised (groups store self) = None ↔
   Forall (λ k, contains_array store (_key_prefix self +:+ k) = false)
     (group_keys store self)) ∧
  (raised (groups store self) = None →
   (yields (groups store self)).*1 = group_keys store self ∧
   Forall (λ kg, __getitem__ store self kg.1 = Ok (NGroup kg.2))
     (yields (groups store self))).
Proof.
  intros Hinit Hwf Hdec.
  destruct (the_init_handle_ok _ _ _ _ _ _ Hinit) as [Hok _].
  apply (groups_fold store self _ Hdec Hok), listing_names_ok, Hwf.
Qed.

(** X8. [arrays()] never raises on a store whose keys are well formed
    and whose metadata decodes; it pairs each name of [array_keys()]
    with the array that [self[name]] returns, in the same order. *)
Theorem arrays_pairs_array_keys_with_items
    (store : gmap string bytes) (path : string)
    (read_only chunk_store : bool) (synchronizer : option Sync)
    (self : Group) :
  __init__ store path read_only chunk_store synchronizer = Ok self →
  store_wf store → decodable store →
  raised (arrays store self) = None ∧
  (yields (arrays store self)).*1 = array_keys store self ∧
  Forall (λ ka, __getitem__ store self ka.1 = Ok (NArray ka.2))
    (yields (arrays store self)).
Proof.
  intros Hinit Hwf Hdec.
  destruct (the_init_handle_ok _ _ _ _ _ _ Hinit) as [Hok _].
  apply (arrays_fold store self _ Hdec Hok), listing_names_ok, Hwf.
Qed.

End Lookup.
End Lookup.

Module Opening.
Import Str StrFacts SplitFacts Tree PathFacts TreeFacts LoopFacts Traversal
  Lookup.

Section Opening.

Context (group_meta_key array_meta_key attrs_key : string).
Context (decode_group_metadata : bytes → option Z).
Context (decode_array_metadata : bytes → option (list Z * dtype)).
Context (normalize_shape : shape_arg → list Z).
Context (init_group : string → bool → bool → M unit).
Context (creation : factory → creation_args → M Array).

Local Abbreviation contains_array := (contains_array array_meta_key).
Local Abbreviation contains_group := (contains_group group_meta_key).
Local Abbreviation __init__ :=
  (Hierarchy.__init__ group_meta_key array_meta_key attrs_key
     decode_group_metadata).
Local Abbreviation Group_new :=
  (Hierarchy.Group_new group_meta_key array_meta_key attrs_key
     decode_group_metadata).
Local Abbreviation __getitem__ :=
  (Hierarchy.__getitem__ group_meta_key array_meta_key attrs_key
     decode_group_metadata decode_array_metadata).
Local Abbreviation open_group :=
  (Hierarchy.open_group group_meta_key array_meta_key attrs_key
     decode_group_metadata init_group).
Local Abbreviation group :=
  (Hierarchy.group group_meta_key array_meta_key attrs_key
     decode_group_metadata init_group).
Local Abbreviation require_group :=
  (Hierarchy.require_group group_meta_key array_meta_key attrs_key
     decode_group_metadata init_group).
Local Abbreviation create_group :=
  (Hierarchy.create_group group_meta_key array_meta_key attrs_key
     decode_group_metadata init_group).
Local Abbreviation create_groups :=
  (Hierarchy.create_groups group_meta_key array_meta_key attrs_key
     decode_group_metadata init_group).
Local Abbreviation require_groups :=
  (Hierarchy.require_groups group_meta_key array_meta_key attrs_key
     decode_group_metadata init_group).
Local Abbreviation the_init_inv :=
  (init_inv group_meta_key array_meta_key attrs_key decode_group_metadata).
Local Abbreviation the_init_handle_ok :=
  (init_handle_ok group_meta_key array_meta_key attrs_key
     decode_group_metadata).

Local Ltac mode_solver :=
  repeat match goal with
  | H : _ ∈ _ :: _ |- _ =>
      apply elem_of_cons in H as [H|H]; [first [discriminate H|subst]|]
  | H : _ ∈ [] |- _ => by apply elem_of_nil in H
  | H : _ ∉ _ |- _ ≠ _ => intros ->; apply H; repeat constructor
  | |- _ ∉ _ => intros ?
  | |- _ ≠ _ => discriminate
  | H : ?m ∉ _ |- False => apply H; repeat constructor
  end.

(** The constructor on a normal path, by what is stored there. *)
Lemma init_by_cases (store : gmap string bytes) (p : string)
    (read_only chunk_store : bool) (synchronizer : option Sync) :
  normalize_storage_path p = p →
  (contains_array store p = true →
   __init__ store p read_only chunk_store synchronizer
     = Raise (ContainsArrayError p)) ∧
  (contains_array store p = false → contains_group store p = false →
   __init__ store p read_only chunk_store synchronizer
     = Raise (GroupNotFoundError p)).
Proof.
  intros Hn. split.
  - intros Ha. unfold Hierarchy.__init__. by rewrite Hn, Ha.
  - intros Ha Hg. unfold Hierarchy.__init__. rewrite Hn, Ha.
    apply bool_decide_eq_false in Hg. unfold _path_to_prefix in Hg.
    destruct (store !! _) as [b|] eqn:Hb; [|done].
    destruct Hg. by exists b.
Qed.

Lemma Group_new_run (path : string) (read_only chunk_store : bool)
    (synchronizer : option Sync) (w : World) :
  Group_new path read_only chunk_store synchronizer w =
  (__init__ (w_store w) path read_only chunk_store synchronizer, w).
Proof. done. Qed.

(** X9. In the modes ["r"] and ["r+"], and in any mode that is not
    one of ["w"], ["a"], ["w-"] and ["x"], [open_group] is the
    constructor on the normal form of the path and nothing else: the
    store is not initialised, whatever [init_group] would do, and the
    world is left as it was; a missing group is a
    [GroupNotFoundError] and an array in its place a
    [ContainsArrayError]. *)
Theorem open_group_reading_modes_only_construct
    (mode : string) (synchronizer : option Sync) (path : string)
    (w : World) :
  mode ∉ ["w"; "a"; "w-"; "x"] →
  let p := normalize_storage_path path in
  open_group mode synchronizer path w =
    (__init__ (w_store w) p (bool_decide (mode = "r")) false synchronizer,
     w) ∧
  (contains_array (w_store w) p = true →
   (open_group mode synchronizer path w).1 = Raise (ContainsArrayError p)) ∧
  (contains_array (w_store w) p = false →
   contains_group (w_store w) p = false →
   (open_group mode synchronizer path w).1 = Raise (GroupNotFoundError p)).
Proof.
  intros Hmode p.
  assert (Hn : normalize_storage_path p = p) by apply normalize_idemp.
  destruct (init_by_cases (w_store w) p (bool_decide (mode = "r")) false
              synchronizer Hn) as [Harr Hnone].
  assert (Hrun : open_group mode synchronizer path w =
    (__init__ (w_store w) p (bool_decide (mode = "r")) false synchronizer,
     w)).
  { unfold Hierarchy.open_group, mbind, M_bind, get_store. fold p.
    rewrite (bool_decide_eq_false_2 (mode = "w")) by mode_solver.
    rewrite (bool_decide_eq_false_2 (mode = "a")) by mode_solver.
    rewrite (bool_decide_eq_false_2 (mode ∈ ["w-"; "x"])) by mode_solver.
    destruct (bool_decide (mode ∈ ["r"; "r+"])); [|done].
    destruct (contains_array (w_store w) p) eqn:Ha.
    { unfold raise. by rewrite Harr. }
    destruct (contains_group (w_store w) p) eqn:Hg; simpl.
    - done.
    - unfold raise. by rewrite Hnone. }
  rewrite Hrun. simpl. by split_and!.
Qed.

(** X10. In the modes ["w-"] and ["x"], [open_group] refuses a path
    at which an array or a group is stored: it raises
    [ContainsArrayError], or else [ContainsGroupError], and the world
    is left as it was. *)
Theorem open_group_exclusive_refuses_existing
    (mode : string) (synchronizer : option Sync) (path : string)
    (w : World) :
  mode ∈ ["w-"; "x"] →
  let p := normalize_storage_path path in
  contains_array (w_store w) p || contains_group (w_store w) p = true →
  open_group mode synchronizer path w =
    (Raise (if contains_array (w_store w) p then ContainsArrayError p
            else ContainsGroupError p), w).
Proof.
  intros Hmode p Hex.
  unfold Hierarchy.open_group, mbind, M_bind, get_store. fold p.
  rewrite (bool_decide_eq_false_2 (mode ∈ ["r"; "r+"])) by mode_solver.
  rewrite (bool_decide_eq_false_2 (mode = "w")) by mode_solver.
  rewrite (bool_decide_eq_false_2 (mode = "a")) by mode_solver.
  rewrite (bool_decide_eq_true_2 (mode ∈ ["w-"; "x"])) by done.
  destruct (contains_array (w_store w) p); [done|].
  simpl in Hex. by rewrite Hex.
Qed.

(** X11. In the mode ["a"], [open_group] on a path that holds a group
    and no array initialises nothing: it is the constructor on the
    normal form of the path, for a handle that can be written through,
    and the world is left as it was. An array at the path is a
    [ContainsArrayError], again without a write. *)
Theorem open_group_append_keeps_existing
    (synchronizer : option Sync) (path : string) (w : World) :
  let p := normalize_storage_path path in
  contains_array (w_store w) p || contains_group (w_store w) p = true →
  open_group "a" synchronizer path w =
    (if contains_array (w_store w) p then Raise (ContainsArrayError p)
     else __init__ (w_store w) p false false synchronizer, w).
Proof.
  intros p Hex.
  unfold Hierarchy.open_group, mbind, M_bind, get_store. fold p.
  rewrite (bool_decide_eq_false_2 ("a" ∈ ["r"; "r+"])) by mode_solver.
  rewrite (bool_decide_eq_false_2 ("a" = "w")) by done.
  rewrite (bool_decide_eq_true_2 ("a" = "a")) by done.
  destruct (contains_array (w_store w) p); [done|].
  simpl in Hex. by rewrite Hex.
Qed.

(** X12. Whatever the mode and whatever [init_group] does, a handle
    that [open_group] returns is at the normal form of the path, is
    read-only exactly when the mode is ["r"], has no separate chunk
    store, carries the synchronizer that was given, and points at a
    group of the store as it is when the call returns. *)
Theorem open_group_handle
    (mode : string) (synchronizer : option Sync) (path : string)
    (w w' : World) (g : Group) :
  open_group mode synchronizer path w = (Ok g, w') →
  _path g = normalize_storage_path path ∧
  _key_prefix g = _path_to_prefix (_path g) ∧
  (_read_only g = true ↔ mode = "r") ∧
  _chunk_store g = false ∧
  _synchronizer g = synchronizer ∧
  contains_group (w_store w') (_path g) = true ∧
  contains_array (w_store w') (_path g) = false.
Proof.
  unfold Hierarchy.open_group, mbind, M_bind, get_store.
  set (p := normalize_storage_path path).
  destruct (_ w) as [[[]|e] w1]; [|done].
  rewrite Group_new_run. intros [= Hinit <-].
  destruct (the_init_inv _ _ _ _ _ _ Hinit) as (Ha & Hg & Hp & Hr & Hc & Hs).
  destruct (the_init_handle_ok _ _ _ _ _ _ Hinit) as [[_ Hk] _].
  unfold p in *. rewrite normalize_idemp in *.
  rewrite Hp. split_and!; try done.
  - by rewrite Hk, Hp.
  - rewrite Hr. apply bool_decide_eq_true.
Qed.

(** X13. [group] looks for a group at the root of the store, not at
    the path it is given: when the root holds a group and [overwrite]
    is off, nothing is initialised and the call is the constructor on
    the normal form of the path, so a path that holds neither a group
    nor an array is a [GroupNotFoundError], not a new group. A handle
    that [group] returns is never read-only. *)
Theorem group_checks_the_root
    (chunk_store : bool) (synchronizer : option Sync) (path : string)
    (w : World) :
  contains_group (w_store w) "" = true →
  let p := normalize_storage_path path in
  group false chunk_store synchronizer path w =
    (__init__ (w_store w) p false chunk_store synchronizer, w) ∧
  (contains_array (w_store w) p = false →
   contains_group (w_store w) p = false →
   group false chunk_store synchronizer path w =
     (Raise (GroupNotFoundError p), w)) ∧
  (∀ overwrite w0 w' g,
     group overwrite chunk_store synchronizer path w0 = (Ok g, w') →
     _read_only g = false ∧ _path g = p ∧ _chunk_store g = chunk_store ∧
     _synchronizer g = synchronizer).
Proof.
  intros Hroot p.
  assert (Hn : normalize_storage_path p = p) by apply normalize_idemp.
  assert (Hrun : group false chunk_store synchronizer path w =
    (__init__ (w_store w) p false chunk_store synchronizer, w)).
  { unfold Hierarchy.group, mbind, M_bind, get_store. fold p.
    by rewrite Hroot. }
  split_and!; [done| |].
  - intros Ha Hg. rewrite Hrun.
    by rewrite (proj2 (init_by_cases (w_store w) p false chunk_store
                         synchronizer Hn) Ha Hg).
  - intros overwrite w0 w' g.
    unfold Hierarchy.group, mbind, M_bind, get_store. fold p.
    destruct (_ w0) as [[[]|e] w1]; [|done].
    rewrite Group_new_run. intros [= Hinit <-].
    destruct (the_init_inv _ _ _ _ _ _ Hinit) as (_ & _ & Hp & Hr & Hc & Hs).
    by rewrite Hn in Hp.
Qed.

(** ** Groups below a group *)

Lemma write_op_run {A} (self : Group) (f : M A) (w : World) :
  _read_only self = false →
  Hierarchy._write_op group_meta_key self f w =
  match _synchronizer self with
  | None => f w
  | Some sync => with_lock sync group_meta_key f w
  end.
Proof.
  intros Hro. unfold Hierarchy._write_op. rewrite Hro.
  by destruct (_synchronizer self).
Qed.

(** What is known of a body run under the guard carries over to the
    guarded call: the result is the same and the stores are those the
    body leaves. *)
Lemma write_op_body {A} (self : Group) (f : M A) (w : World) :
  _read_only self = false →
  ∃ w0, w_store w0 = w_store w ∧ w_chunk_store w0 = w_chunk_store w ∧
    (Hierarchy._write_op group_meta_key self f w).1 = (f w0).1 ∧
    w_store (Hierarchy._write_op group_meta_key self f w).2
      = w_store (f w0).2 ∧
    w_chunk_store (Hierarchy._write_op group_meta_key self f w).2
      = w_chunk_store (f w0).2.
Proof.
  intros Hro. rewrite write_op_run by done.
  destruct (_synchronizer self) as [sync|].
  - exists (log (Acquire sync group_meta_key) w). unfold with_lock.
    by destruct (f _) as [r w1].
  - by exists w.
Qed.

(** X14. [require_group] on a name at which a group is stored
    initialises nothing: the stores are left as they were, the flag
    [overwrite] plays no part, and the handle returned is the one the
    constructor gives for the resolved path, with the configuration of
    the group; when no array is stored there as well, it is the group
    that [self[name]] returns. *)
Theorem require_group_existing_is_lookup
    (self : Group) (name : string) (overwrite : bool) (w : World) :
  _read_only self = false →
  let path := Hierarchy._item_path self name in
  contains_group (w_store w) path = true →
  (require_group self name overwrite w).1 =
    __init__ (w_store w) path false (_chunk_store self)
      (_synchronizer self) ∧
  w_store (require_group self name overwrite w).2 = w_store w ∧
  w_chunk_store (require_group self name overwrite w).2 = w_chunk_store w ∧
  (contains_array (w_store w) path = false →
   result_map NGroup (require_group self name overwrite w).1 =
     __getitem__ (w_store w) self name).
Proof.
  intros Hro path Hg.
  destruct (write_op_body self
              (Hierarchy._require_group_nosync group_meta_key array_meta_key
                 attrs_key decode_group_metadata init_group self name
                 overwrite) w Hro)
    as (w0 & Hs & Hc & Hr & Hs' & Hc').
  unfold Hierarchy.require_group. rewrite Hr, Hs', Hc'.
  unfold Hierarchy._require_group_nosync, mbind, M_bind, get_store.
  fold path. rewrite Hs, Hg. simpl. rewrite Hs, Hro.
  split_and!; try done.
  intros Ha. unfold Hierarchy.__getitem__. fold path.
  by rewrite Ha, Hg, Hro.
Qed.

Lemma create_group_ok (self : Group) (name : string) (overwrite : bool)
    (w w' : World) (g : Group) :
  create_group self name overwrite w = (Ok g, w') →
  _read_only self = false ∧
  _path g = normalize_storage_path (Hierarchy._item_path self name) ∧
  _read_only g = false ∧ _chunk_store g = _chunk_store self ∧
  _synchronizer g = _synchronizer self ∧
  contains_group (w_store w') (_path g) = true.
Proof.
  intros Hrun. destruct (_read_only self) eqn:Hro.
  { unfold Hierarchy.create_group, Hierarchy._write_op in Hrun.
    by rewrite Hro in Hrun. }
  split; [done|].
  destruct (write_op_body self
              (Hierarchy._create_group_nosync group_meta_key array_meta_key
                 attrs_key decode_group_metadata init_group self name
                 overwrite) w Hro)
    as (w0 & _ & _ & Hr & Hs' & _).
  unfold Hierarchy.create_group in Hrun. rewrite Hrun in Hr, Hs'.
  simpl in Hr, Hs'. rewrite Hs'. clear Hs' Hrun.
  unfold Hierarchy._create_group_nosync, mbind, M_bind in *.
  destruct (init_group _ _ _ w0) as [[[]|e] w1]; [|done].
  rewrite Group_new_run in *. simpl in *. symmetry in Hr.
  destruct (the_init_inv _ _ _ _ _ _ Hr) as (_ & Hg & Hp & Hr' & Hc & Hs).
  rewrite Hro in Hr'. rewrite Hp. by split_and!.
Qed.

Lemma require_group_ok (self : Group) (name : string) (overwrite : bool)
    (w w' : World) (g : Group) :
  require_group self name overwrite w = (Ok g, w') →
  _read_only self = false ∧
  _path g = normalize_storage_path (Hierarchy._item_path self name) ∧
  _read_only g = false ∧ _chunk_store g = _chunk_store self ∧
  _synchronizer g = _synchronizer self ∧
  contains_group (w_store w') (_path g) = true.
Proof.
  intros Hrun. destruct (_read_only self) eqn:Hro.
  { unfold Hierarchy.require_group, Hierarchy._write_op in Hrun.
    by rewrite Hro in Hrun. }
  split; [done|].
  destruct (write_op_body self
              (Hierarchy._require_group_nosync group_meta_key array_meta_key
                 attrs_key decode_group_metadata init_group self name
                 overwrite) w Hro)
    as (w0 & _ & _ & Hr & Hs' & _).
  unfold Hierarchy.require_group in Hrun. rewrite Hrun in Hr, Hs'.
  simpl in Hr, Hs'. rewrite Hs'. clear Hs' Hrun.
  unfold Hierarchy._require_group_nosync, mbind, M_bind, get_store in *.
  destruct (if negb _ then _ else _) as [[[]|e] w1]; [|done].
  rewrite Group_new_run in *. simpl in *. symmetry in Hr.
  destruct (the_init_inv _ _ _ _ _ _ Hr) as (_ & Hg & Hp & Hr' & Hc & Hs).
  rewrite Hro in Hr'. rewrite Hp. by split_and!.
Qed.

(** X15. [create_groups] returns one handle for each name, in the
    order of the names, each at the normal form of the path its name
    resolves to and with the chunk store and synchronizer of the
    group. With no name it returns the empty tuple and touches
    nothing, even through a read-only handle; with a name, a read-only
    handle raises [ReadOnlyError] and the world is left as it was. *)
Theorem create_groups_one_handle_per_name
    (self : Group) (names : list string) (overwrite : bool) (w : World) :
  create_groups self [] overwrite w = (Ok [], w) ∧
  (_read_only self = true → names ≠ [] →
   create_groups self names overwrite w = (Raise ReadOnlyError, w)) ∧
  (∀ gs w', create_groups self names overwrite w = (Ok gs, w') →
     Forall2
       (λ name g,
          _path g = normalize_storage_path (Hierarchy._item_path self name) ∧
          _read_only g = false ∧ _chunk_store g = _chunk_store self ∧
          _synchronizer g = _synchronizer self)
       names gs).
Proof.
  split_and!; [done| |].
  - intros Hro Hne. destruct names as [|name names]; [done|].
    simpl. unfold mbind, M_bind, Hierarchy.create_group.
    by rewrite Guard.write_op_read_only.
  - revert w. induction names as [|name names IH]; intros w gs w'.
    + intros [= <- <-]. constructor.
    + simpl. unfold mbind, M_bind.
      destruct (create_group self name overwrite w) as [[g|e] w1] eqn:Hg;
        [|done].
      destruct (create_groups self names overwrite w1) as [[gs'|e] w2]
        eqn:Hgs; [|done].
      intros [= <- <-].
      destruct (create_group_ok _ _ _ _ _ _ Hg) as (_ & ? & ? & ? & ? & _).
      constructor; [done|]. by eapply IH.
Qed.

(** X16. [require_groups] returns one handle for each name, in the
    order of the names, each at the normal form of the path its name
    resolves to and with the chunk store and synchronizer of the
    group. With no name it returns the empty tuple and touches
    nothing, even through a read-only handle; with a name, a read-only
    handle raises [ReadOnlyError] and the world is left as it was. *)
Theorem require_groups_one_handle_per_name
    (self : Group) (names : list string) (w : World) :
  require_groups self [] w = (Ok [], w) ∧
  (_read_only self = true → names ≠ [] →
   require_groups self names w = (Raise ReadOnlyError, w)) ∧
  (∀ gs w', require_groups self names w = (Ok gs, w') →
     Forall2
       (λ name g,
          _path g = normalize_storage_path (Hierarchy._item_path self name) ∧
          _read_only g = false ∧ _chunk_store g = _chunk_store self ∧
          _synchronizer g = _synchronizer self)
       names gs).
Proof.
  split_and!; [done| |].
  - intros Hro Hne. destruct names as [|name names]; [done|].
    simpl. unfold mbind, M_bind, Hierarchy.require_group.
    by rewrite Guard.write_op_read_only.
  - revert w. induction names as [|name names IH]; intros w gs w'.
    + intros [= <- <-]. constructor.
    + simpl. unfold mbind, M_bind.
      destruct (require_group self name false w) as [[g|e] w1] eqn:Hg;
        [|done].
      destruct (require_groups self names w1) as [[gs'|e] w2]
        eqn:Hgs; [|done].
      intros [= <- <-].
      destruct (require_group_ok _ _ _ _ _ _ Hg) as (_ & ? & ? & ? & ? & _).
      constructor; [done|]. by eapply IH.
Qed.

End Opening.
End Opening.

Module Arrays.
Import Str StrFacts SplitFacts Tree PathFacts TreeFacts LoopFacts Traversal
  Lookup Opening.

Section Arrays.

Context (group_meta_key array_meta_key attrs_key : string).
Context (decode_group_metadata : bytes → option Z).
Context (decode_array_metadata : bytes → option (list Z * dtype)).
Context (normalize_shape : shape_arg → list Z).
Context (init_group : string → bool → bool → M unit).
Context (creation : factory → creation_args → M Array).

Local Abbreviation contains_array := (contains_array array_meta_key).
Local Abbreviation contains_group := (contains_group group_meta_key).
Local Abbreviation call :=
  (Hierarchy.call group_meta_key array_meta_key attrs_key
     decode_group_metadata decode_array_metadata normalize_shape init_group
     creation).
Local Abbreviation nosync :=
  (Hierarchy.nosync group_meta_key array_meta_key attrs_key
     decode_group_metadata decode_array_metadata normalize_shape init_group
     creation).
Local Abbreviation require_dataset :=
  (Hierarchy.require_dataset group_meta_key array_meta_key
     decode_array_metadata normalize_shape creation).
Local Abbreviation create_dataset :=
  (Hierarchy.create_dataset group_meta_key creation).

Lemma setdefault_synchronizer_spec (sync : option Sync) (kw : kwargs) :
  let kw' := setdefault_synchronizer sync kw in
  kw_synchronizer kw' = Some (default sync (kw_synchronizer kw)) ∧
  kw_shape kw' = kw_shape kw ∧ kw_dtype kw' = kw_dtype kw ∧
  kw_data kw' = kw_data kw ∧
  kw_cache_metadata kw' = kw_cache_metadata kw ∧
  kw_overwrite kw' = kw_overwrite kw ∧ kw_rest kw' = kw_rest kw.
Proof.
  unfold setdefault_synchronizer.
  destruct (kw_synchronizer kw) as [s|] eqn:Hs; simpl; by rewrite ?Hs.
Qed.

(** X17. Every call that creates an array through a writable group
    ([create_dataset], [create], [empty], [zeros], [ones], [full],
    [array], the four [*_like] methods and [__setitem__]) is one call of
    an array factory, made under the lock of the group when it has a
    synchronizer. The factory is given the path the name resolves to
    from the group and the chunk store of the group; the synchronizer
    it is given is the caller's when the caller passes one, and the
    group's otherwise; the other keyword arguments reach it as the
    caller gave them, but for [data], which [create_dataset] takes out
    of them. *)
Theorem array_factories_get_group_context
    (self : Group) (c : Hierarchy.mutation) (kw : kwargs) (w : World) :
  _read_only self = false →
  Hierarchy.call_kwargs c = Some kw →
  ∃ f args,
    call self c w =
      match _synchronizer self with
      | None => Hierarchy.returning Hierarchy.RArray (creation f args) w
      | Some sync =>
          with_lock sync group_meta_key
            (Hierarchy.returning Hierarchy.RArray (creation f args)) w
      end ∧
    ca_path args = Hierarchy._item_path self (Hierarchy.call_name c) ∧
    ca_chunk_store args = _chunk_store self ∧
    kw_synchronizer (ca_kwargs args)
      = Some (default (_synchronizer self) (kw_synchronizer kw)) ∧
    kw_shape (ca_kwargs args) = kw_shape kw ∧
    kw_dtype (ca_kwargs args) = kw_dtype kw ∧
    kw_cache_metadata (ca_kwargs args) = kw_cache_metadata kw ∧
    kw_overwrite (ca_kwargs args) = kw_overwrite kw ∧
    kw_rest (ca_kwargs args) = kw_rest kw.
Proof.
  intros Hro Hkw.
  rewrite (Guard.call_guarded group_meta_key array_meta_key attrs_key
             decode_group_metadata decode_array_metadata normalize_shape
             init_group creation self c w Hro).
  assert (Hnosync : ∃ f args,
    nosync self c = Hierarchy.returning Hierarchy.RArray (creation f args) ∧
    ca_path args = Hierarchy._item_path self (Hierarchy.call_name c) ∧
    ca_chunk_store args = _chunk_store self ∧
    (ca_kwargs args = setdefault_synchronizer (_synchronizer self) kw ∨
     ca_kwargs args =
       setdefault_synchronizer (_synchronizer self) (pop_data kw))).
  { destruct c; simpl in Hkw; try done; injection Hkw as <-; simpl;
      try (by eexists _, _; split_and!; [reflexivity|done|done|by left]).
    unfold Hierarchy._create_dataset_nosync.
    destruct (kw_data kw0);
      by eexists _, _; split_and!; [reflexivity|done|done|by right]. }
  destruct Hnosync as (f & args & Hrun & Hpath & Hcs & Hargs).
  exists f, args. rewrite Hrun. split; [done|]. split; [done|].
  split; [done|].
  destruct Hargs as [->| ->].
  - destruct (setdefault_synchronizer_spec (_synchronizer self) kw)
      as (? & ? & ? & _ & ? & ? & ?).
    by split_and!.
  - destruct (setdefault_synchronizer_spec (_synchronizer self) (pop_data kw))
      as (? & ? & ? & _ & ? & ? & ?).
    by split_and!.
Qed.

(** X18. [require_dataset] on a name at which no array is stored is
    [create_dataset] with the shape and the dtype put among the keyword
    arguments (in place of any [shape] or [dtype] already there):
    nothing is compared, and [exact] plays no part. This holds through
    the guard as well, so for read-only and for synchronized handles. *)
Theorem require_dataset_absent_is_create_dataset
    (self : Group) (name : string) (shape : shape_arg) (dt : option dtype)
    (exact : bool) (kw : kwargs) (w : World) :
  contains_array (w_store w) (Hierarchy._item_path self name) = false →
  require_dataset self name shape dt exact kw w =
  create_dataset self name (set_shape_dtype shape dt kw) w.
Proof.
  intros Ha.
  unfold Hierarchy.require_dataset, Hierarchy.create_dataset,
    Hierarchy._write_op.
  destruct (_read_only self); [done|].
  destruct (_synchronizer self) as [sync|].
  - unfold with_lock, Hierarchy._require_dataset_nosync, mbind, M_bind,
      get_store.
    simpl. by rewrite Ha.
  - unfold Hierarchy._require_dataset_nosync, mbind, M_bind, get_store.
    by rewrite Ha.
Qed.

End Arrays.
End Arrays.

Module Deletion.
Import Str StrFacts SplitFacts Tree PathFacts Props Guard TreeFacts
  OrderFacts LoopFacts Traversal Lookup Opening.

Lemma strip_prefix_common (pre s t : string) :
  strip_prefix (pre +:+ s) (pre +:+ t) = strip_prefix s t.
Proof.
  induction pre as [|c pre IH]; [done|].
  rewrite !append_cons. simpl. by rewrite Ascii.eqb_refl.
Qed.

Lemma strip_prefix_cons (a b : ascii) (p s : string) :
  strip_prefix (String a p) (String b s) =
  if Ascii.eqb a b then strip_prefix p s else None.
Proof. done. Qed.

(** A key below one name is not below another, for names that hold no
    separator. *)
Lemma strip_prefix_sibling (k x r : string) :
  has_sep k = false → has_sep x = false → x ≠ k →
  strip_prefix (k +:+ "/") (x +:+ "/" +:+ r) = None.
Proof.
  revert x. induction k as [|a k IH]; intros x Hk Hx Hne.
  - destruct x as [|b x]; [done|].
    rewrite append_nil_l, append_cons, strip_prefix_cons.
    apply orb_false_elim in Hx as [Hb _].
    unfold is_sep in Hb. by rewrite Ascii.eqb_sym, Hb.
  - apply orb_false_elim in Hk as [Ha Hk].
    rewrite append_cons. destruct x as [|b x].
    + rewrite append_nil_l, append_cons, strip_prefix_cons.
      unfold is_sep in Ha. by rewrite Ha.
    + rewrite append_cons, strip_prefix_cons.
      apply orb_false_elim in Hx as [_ Hx].
      destruct (Ascii.eqb_spec a b) as [->|]; [|done].
      apply IH; [done..|]. by intros ->.
Qed.

Lemma filter_all {A} (P : A → Prop) `{∀ x, Decision (P x)} (l : list A) :
  Forall P l → filter P l = l.
Proof.
  induction 1 as [|x l Hx Hl IH]; [done|].
  by rewrite filter_cons, decide_True, IH.
Qed.

Lemma length_filter_remove (k : string) (l : list string) :
  NoDup l → k ∈ l → length (filter (λ x, x ≠ k) l) + 1 = length l.
Proof.
  induction 1 as [|x l Hx Hnd IH]; [by intros ?%elem_of_nil|].
  rewrite filter_cons. intros [->|Hin]%elem_of_cons.
  - rewrite decide_False by (by intros ?). simpl.
    assert (Hall : filter (λ y, y ≠ x) l = l); [|rewrite Hall; lia].
    apply filter_all, Forall_forall. by intros y Hy ->.
  - rewrite decide_True by (by intros ->). simpl. specialize (IH Hin). lia.
Qed.

Section Deletion.

Context (group_meta_key array_meta_key attrs_key : string).
Context (decode_group_metadata : bytes → option Z).

Local Abbreviation contains_array := (contains_array array_meta_key).
Local Abbreviation contains_group := (contains_group group_meta_key).
Local Abbreviation __init__ :=
  (Hierarchy.__init__ group_meta_key array_meta_key attrs_key
     decode_group_metadata).
Local Abbreviation __iter__ := (Hierarchy.__iter__ group_meta_key array_meta_key).
Local Abbreviation __len__ := (Hierarchy.__len__ group_meta_key array_meta_key).
Local Abbreviation __contains__ :=
  (Hierarchy.__contains__ group_meta_key array_meta_key).
Local Abbreviation __delitem__ :=
  (Hierarchy.__delitem__ group_meta_key array_meta_key).
Local Abbreviation the_init_inv :=
  (init_inv group_meta_key array_meta_key attrs_key decode_group_metadata).
Local Abbreviation the_init_handle_ok :=
  (init_handle_ok group_meta_key array_meta_key attrs_key
     decode_group_metadata).

(** Removing what lies below one member leaves the sentinels of the
    other members, and the keys that list them, where they were. *)
Lemma rmdir_sibling_lookup (store : gmap string bytes) (p k x r : string) :
  has_sep k = false → has_sep x = false → x ≠ k → k ≠ "" →
  rmdir store (_path_to_prefix p +:+ k)
    !! (_path_to_prefix p +:+ x +:+ "/" +:+ r)
  = store !! (_path_to_prefix p +:+ x +:+ "/" +:+ r).
Proof.
  intros Hk Hx Hne Hk0. apply rmdir_lookup_other.
  assert (Hpre : _path_to_prefix (_path_to_prefix p +:+ k)
                 = _path_to_prefix p +:+ k +:+ "/").
  { rewrite path_to_prefix_nonempty, append_assoc; [done|].
    destruct (_path_to_prefix p); [by rewrite append_nil_l|done]. }
  rewrite Hpre, strip_prefix_common. by apply strip_prefix_sibling.
Qed.

Lemma member_sentinel (store : gmap string bytes) (p x meta_key : string) :
  x ≠ "" →
  _path_to_prefix (_path_to_prefix p +:+ x) +:+ meta_key
  = _path_to_prefix p +:+ x +:+ "/" +:+ meta_key.
Proof.
  intros Hx. rewrite path_to_prefix_nonempty, !append_assoc; [done|].
  destruct (_path_to_prefix p); [by rewrite append_nil_l|done].
Qed.

Lemma iter_after_rmdir (store : gmap string bytes) (self : Group)
    (k : string) :
  store_wf store → handle_ok self → k ∈ __iter__ store self →
  __iter__ (rmdir store (_key_prefix self +:+ k)) self
  = filter (λ x, x ≠ k) (__iter__ store self).
Proof.
  intros Hwf [Hn Hp] Hk.
  apply list_elem_of_filter in Hk as [_ Hk]. apply elem_of_listing in Hk.
  destruct (listed_name_ok _ _ _ Hwf Hk) as [Hk0 Hks].
  rewrite Hp. set (c := _path_to_prefix (_path self) +:+ k).
  assert (Hin : ∀ x,
    x ∈ __iter__ (rmdir store c) self ↔
    x ∈ filter (λ x, x ≠ k) (__iter__ store self)).
  { intros x. unfold Hierarchy.__iter__.
    rewrite !list_elem_of_filter, !elem_of_listing, Hp. split.
    - intros [Hm Hx].
      assert (Hxk : x ≠ k).
      { intros ->. fold c in Hm.
        apply orb_prop_elim in Hm as [Hm|Hm];
          apply Is_true_true, bool_decide_eq_true in Hm as [b Hb];
          by rewrite (rmdir_not_contains _ store c c) in Hb by by left. }
      assert (Hxl : x ∈ listdir store (_path self)).
      { apply elem_of_listdir in Hx
          as (key & suffix & Hkey & -> & Hne & Hh).
        apply elem_of_listdir. exists (_path_to_prefix (_path self) +:+ suffix), suffix.
        split_and!; try done.
        apply elem_of_dom in Hkey as [b Hb]. apply elem_of_dom. exists b.
        unfold rmdir in Hb. by apply map_lookup_filter_Some in Hb as [? _]. }
      split_and!; try done.
      destruct (listed_name_ok _ _ _ Hwf Hxl) as [Hx0 Hxs].
      unfold Storage.contains_array, Storage.contains_group in *.
      rewrite !member_sentinel in * by done.
      by rewrite !(rmdir_sibling_lookup store (_path self) k x) in Hm by done.
    - intros (Hxk & Hm & Hx).
      destruct (listed_name_ok _ _ _ Hwf Hx) as [Hx0 Hxs].
      assert (Hm' :
        Is_true (contains_array (rmdir store c) (_path_to_prefix (_path self) +:+ x)
        || contains_group (rmdir store c) (_path_to_prefix (_path self) +:+ x))).
      { unfold Storage.contains_array, Storage.contains_group in *.
        rewrite !member_sentinel in * by done.
        by rewrite !(rmdir_sibling_lookup store (_path self) k x) by done. }
      split; [done|].
      apply elem_of_listdir.
      assert (∃ meta_key,
        is_Some (rmdir store c !!
          (_path_to_prefix (_path self) +:+ x +:+ "/" +:+ meta_key)))
        as [meta_key [b Hb]].
      { unfold Storage.contains_array, Storage.contains_group in Hm'.
        rewrite !member_sentinel in Hm' by done.
        apply orb_prop_elim in Hm' as [Hm'|Hm'];
          apply Is_true_true, bool_decide_eq_true in Hm'; by eexists. }
      exists (_path_to_prefix (_path self) +:+ x +:+ "/" +:+ meta_key),
        (x +:+ "/" +:+ meta_key).
      split_and!.
      + apply elem_of_dom. by exists b.
      + done.
      + destruct x; [done|]. by rewrite append_cons.
      + rewrite split_app_sep, split_sep_free by done. done. }
  apply (StronglySorted_unique String.le).
  - apply StronglySorted_filter, listing_sorted.
  - apply StronglySorted_filter, StronglySorted_filter, listing_sorted.
  - apply NoDup_Permutation; [| |done].
    + apply NoDup_filter, listing_NoDup.
    + apply NoDup_filter, NoDup_filter, listing_NoDup.
Qed.

(** X19. Deleting a member through a writable handle takes exactly
    its name out of the group: the call returns, the names the group
    yields afterwards are those it yielded before without the deleted
    one, in the same order, the deleted name is no longer contained,
    and the group is one member shorter. The chunk store is not
    touched. *)
Theorem delitem_removes_one_member
    (path : string) (chunk_store : bool) (synchronizer : option Sync)
    (self : Group) (k : string) (w : World) :
  __init__ (w_store w) path false chunk_store synchronizer = Ok self →
  store_wf (w_store w) →
  k ∈ __iter__ (w_store w) self →
  let w' := (__delitem__ self k w).2 in
  (__delitem__ self k w).1 = Ok () ∧
  __iter__ (w_store w') self = filter (λ x, x ≠ k) (__iter__ (w_store w) self) ∧
  __contains__ (w_store w') self k = false ∧
  __len__ (w_store w') self + 1 = __len__ (w_store w) self ∧
  w_chunk_store w' = w_chunk_store w.
Proof.
  intros Hinit Hwf Hk w'.
  destruct (the_init_handle_ok _ _ _ _ _ _ Hinit) as [Hok _].
  destruct (the_init_inv _ _ _ _ _ _ Hinit) as (_ & _ & _ & Hro & _ & _).
  assert (Hk' := Hk).
  apply list_elem_of_filter in Hk' as [Hm Hkl]. apply elem_of_listing in Hkl.
  destruct (listed_name_ok _ _ _ Hwf Hkl) as [Hk0 Hks].
  assert (Hpath := item_path_member self k Hok Hk0 Hks).
  apply Is_true_true in Hm. simpl in Hm.
  destruct (write_op_body group_meta_key self
              (Hierarchy._delitem_nosync group_meta_key array_meta_key self k)
              w Hro) as (w0 & Hs & Hc & Hr & Hs' & Hc').
  assert (Hrun : Hierarchy._delitem_nosync group_meta_key array_meta_key
                   self k w0
    = (Ok (), mkWorld (rmdir (w_store w) (_key_prefix self +:+ k))
                (w_chunk_store w0) (w_trace w0))).
  { rewrite Guard.delitem_nosync_run. simpl. by rewrite Hpath, Hs, Hm. }
  rewrite Hrun in Hr, Hs', Hc'. simpl in Hr, Hs', Hc'.
  unfold w', Hierarchy.__delitem__. rewrite Hs'.
  assert (Hiter := iter_after_rmdir (w_store w) self k Hwf Hok Hk).
  split_and!.
  - done.
  - done.
  - unfold Hierarchy.__contains__. rewrite Hpath.
    unfold Storage.contains_array, Storage.contains_group.
    by rewrite !(rmdir_not_contains _ (w_store w) _ (_key_prefix self +:+ k))
      by by left.
  - unfold Hierarchy.__len__. rewrite Hiter. apply length_filter_remove; [|done].
    apply NoDup_filter, listing_NoDup.
  - by rewrite Hc', Hc.
Qed.

End Deletion.
End Deletion.

Module Branches.
Import Str StrFacts SplitFacts Tree PathFacts TreeFacts LoopFacts Traversal
  Visiting OrderedDict.

(** ** Stripping separators *)

Lemma rstrip_sep_free (k : string) : has_sep k = false → rstrip k = k.
Proof.
  induction k as [|c k IH]; [done|]. simpl.
  intros [Hc Hk]%orb_false_elim. rewrite (IH Hk), Hc. by destruct k.
Qed.

Lemma rstrip_app (s k : string) :
  k ≠ "" → has_sep k = false → rstrip (s +:+ k) = s +:+ k.
Proof.
  intros Hne Hk. induction s as [|c s IH].
  - rewrite append_nil_l. by apply rstrip_sep_free.
  - rewrite append_cons. simpl. rewrite IH.
    destruct (s +:+ k) eqn:Hs; [|done].
    destruct s; [|by rewrite append_cons in Hs].
    by rewrite append_nil_l in Hs.
Qed.

Lemma join_last (segs : list string) :
  segs ≠ [] → Forall (λ k, k ≠ "" ∧ has_sep k = false) segs →
  ∃ s k, join segs = s +:+ k ∧ k ≠ "" ∧ has_sep k = false.
Proof.
  intros Hne Hall. induction Hall as [|x l [Hx Hs] Hl IH]; [done|].
  destruct l as [|y l].
  - exists "", x. by rewrite append_nil_l.
  - destruct IH as (s & k & Hj & Hk & Hks); [done|].
    exists (x +:+ "/" +:+ s), k. split; [|done].
    by rewrite join_cons, Hj, !append_assoc.
Qed.

Lemma strip_join (segs : list string) :
  Forall (λ k, k ≠ "" ∧ has_sep k = false) segs →
  strip (join segs) = join segs.
Proof.
  intros Hall. unfold strip.
  rewrite lstrip_id by by apply join_not_starts.
  destruct segs as [|x l]; [done|].
  destruct (join_last (x :: l)) as (s & k & -> & Hk & Hks); [done..|].
  by apply rstrip_app.
Qed.

Lemma strip_normal (p : string) :
  normalize_storage_path p = p → strip p = p.
Proof.
  intros <-. unfold normalize_storage_path. apply strip_join.
  apply Forall_forall. intros k [Hk Hin]%list_elem_of_filter.
  split; [done|]. by eapply split_segments_sep_free.
Qed.

(** ** Chains of keys in nested mappings *)

Lemma getitem_setdefault (e : string) (f : odict → odict)
    (its : list (string * odict)) :
  getitem e (setdefault e f its) = Some (f (default (ODict []) (getitem e its))).
Proof.
  induction its as [|[k v] its IH]; simpl.
  - by rewrite decide_True.
  - destruct (decide (k = e)) as [->|Hne]; simpl.
    + by rewrite decide_True.
    + by rewrite decide_False.
Qed.

Lemma getitem_setdefault_ne (e e' : string) (f : odict → odict)
    (its : list (string * odict)) :
  e ≠ e' → getitem e (setdefault e' f its) = getitem e its.
Proof.
  intros Hne. induction its as [|[k v] its IH]; simpl.
  - by rewrite decide_False.
  - destruct (decide (k = e')) as [->|Hk]; simpl.
    + by rewrite !decide_False.
    + by rewrite IH.
Qed.

(** After the loop of [setdefault] over a chain of keys, the chain
    leads through the mapping. *)
Lemma has_path_setdefault_path (g : list string) (sd : odict) :
  has_path g (setdefault_path g sd).
Proof.
  revert sd. induction g as [|e g IH]; intros sd; [done|]. simpl.
  eexists. split; [apply getitem_setdefault|]. apply IH.
Qed.

(** No chain is lost when another one is put in. *)
Lemma has_path_preserved (g g' : list string) (sd : odict) :
  has_path g sd → has_path g (setdefault_path g' sd).
Proof.
  revert g' sd. induction g as [|e g IH]; intros g' sd; [done|].
  intros (v & Hv & Hg). destruct g' as [|e' g']; simpl.
  { by exists v. }
  destruct (decide (e = e')) as [<-|Hne].
  - eexists. split; [apply getitem_setdefault|]. rewrite Hv. simpl.
    by apply IH.
  - exists v. split; [|done]. by rewrite getitem_setdefault_ne.
Qed.

Section Branches.

Context (group_meta_key array_meta_key attrs_key : string).
Context (decode_group_metadata : bytes → option Z).
Context (decode_array_metadata : bytes → option (list Z * dtype)).

Local Abbreviation __init__ :=
  (Hierarchy.__init__ group_meta_key array_meta_key attrs_key
     decode_group_metadata).
Local Abbreviation _visit :=
  (Hierarchy._visit group_meta_key array_meta_key attrs_key
     decode_group_metadata decode_array_metadata).
Local Abbreviation gen_tree :=
  (Hierarchy.gen_tree group_meta_key array_meta_key attrs_key
     decode_group_metadata decode_array_metadata).
Local Abbreviation store_wf := Tree.store_wf.
Local Abbreviation decodable :=
  (Tree.decodable group_meta_key array_meta_key decode_group_metadata
     decode_array_metadata).
Local Abbreviation descends :=
  (Tree.descends group_meta_key array_meta_key attrs_key
     decode_group_metadata decode_array_metadata).

(** A visitor that never returns a value is run over all the objects. *)
Lemma loop_fold {S} (step : Node → S → S) (objs : list Node) (s : S) :
  Hierarchy.visit_loop (λ o s, (Ok (None : option unit), step o s)) objs None s
  = (Ok None, foldl (λ s o, step o s) s objs).
Proof. revert s. induction objs as [|o objs IH]; intros s; [done|]. apply IH. Qed.

Lemma fold_branches (base_len : nat) (objs : list Node) (d : odict) :
  let step := λ d o,
    Hierarchy._gen_branch (Hierarchy.relative_name base_len o) o d in
  (∀ g, has_path g d → has_path g (foldl step d objs)) ∧
  (∀ x, x ∈ objs →
     has_path
       (add_to_last (match x with NArray _ => "[...]" | NGroup _ => "" end)
          (split (strip (Hierarchy.relative_name base_len x))))
       (foldl step d objs)).
Proof.
  intros step. revert d. induction objs as [|o objs IH]; intros d.
  - split; [done|]. by intros x ?%elem_of_nil.
  - destruct (IH (step d o)) as [IH1 IH2]. simpl. split.
    + intros g Hg. apply IH1. by apply has_path_preserved.
    + intros x [->|Hx]%elem_of_cons; [|by apply IH2].
      apply IH1, has_path_setdefault_path.
Qed.


End Branches.
End Branches.

Module Examples.
Import Str Tree.

Local Abbreviation demo_init :=
  (Hierarchy.__init__ Demo.group_meta_key Demo.array_meta_key Demo.attrs_key
     Demo.decode_group_metadata).
Local Abbreviation demo_groups :=
  (Hierarchy.groups Demo.group_meta_key Demo.array_meta_key Demo.attrs_key
     Demo.decode_group_metadata).
Local Abbreviation demo_arrays :=
  (Hierarchy.arrays Demo.array_meta_key Demo.decode_array_metadata).
Local Abbreviation demo_open_group :=
  (Hierarchy.open_group Demo.group_meta_key Demo.array_meta_key
     Demo.attrs_key Demo.decode_group_metadata Demo.init_group).
Local Abbreviation demo_group :=
  (Hierarchy.group Demo.group_meta_key Demo.array_meta_key Demo.attrs_key
     Demo.decode_group_metadata Demo.init_group).
Local Abbreviation demo_require_group :=
  (Hierarchy.require_group Demo.group_meta_key Demo.array_meta_key
     Demo.attrs_key Demo.decode_group_metadata Demo.init_group).
Local Abbreviation demo_call :=
  (Hierarchy.call Demo.group_meta_key Demo.array_meta_key Demo.attrs_key
     Demo.decode_group_metadata Demo.decode_array_metadata
     Demo.normalize_shape Demo.init_group Demo.creation).
Local Abbreviation demo_require_dataset :=
  (Hierarchy.require_dataset Demo.group_meta_key Demo.array_meta_key
     Demo.decode_array_metadata Demo.normalize_shape Demo.creation).
Local Abbreviation demo_create_dataset :=
  (Hierarchy.create_dataset Demo.group_meta_key Demo.creation).
Local Abbreviation demo_delitem :=
  (Hierarchy.__delitem__ Demo.group_meta_key Demo.array_meta_key).
Local Abbreviation demo_iter :=
  (Hierarchy.__iter__ Demo.group_meta_key Demo.array_meta_key).
Local Abbreviation demo_gen_tree :=
  (Hierarchy.gen_tree Demo.group_meta_key Demo.array_meta_key Demo.attrs_key
     Demo.decode_group_metadata Demo.decode_array_metadata).

Lemma setstate_getstate_round_trip_witness :
  Hierarchy.__setstate__ Demo.group_meta_key Demo.array_meta_key
    Demo.attrs_key Demo.decode_group_metadata Demo.store1
    (Hierarchy.__getstate__ Demo.bar) = Ok Demo.bar.
Proof.
  apply (Paths.setstate_getstate_round_trip Demo.group_meta_key
           Demo.array_meta_key Demo.attrs_key Demo.decode_group_metadata
           Demo.store1 "bar" false false None Demo.bar).
  by vm_compute.
Defined.

Lemma name_is_rooted_path_witness :
  Hierarchy.name Demo.bar = "/" +:+ _path Demo.bar.
Proof.
  destruct (Paths.name_is_rooted_path Demo.group_meta_key
              Demo.array_meta_key Demo.attrs_key Demo.decode_group_metadata
              Demo.store1 "bar" false false None Demo.bar) as [Hname _].
  - by vm_compute.
  - exact Hname.
Defined.

Lemma item_path_resolution_witness :
  Hierarchy._item_path Demo.bar "quux//baz" =
  _key_prefix Demo.bar +:+ normalize_storage_path "quux//baz".
Proof.
  destruct (Paths.item_path_resolution Demo.group_meta_key
              Demo.array_meta_key Demo.attrs_key Demo.decode_group_metadata
              Demo.store1 "bar" false false None Demo.bar "quux//baz")
    as (_ & Hrel & _).
  - by vm_compute.
  - apply Hrel. reflexivity.
Defined.

Lemma getitem_composes_witness :
  Hierarchy._item_path Demo.bar "quux" =
  Hierarchy._item_path Demo.root ("bar" +:+ "/" +:+ "quux").
Proof.
  destruct (Lookup.getitem_composes Demo.group_meta_key Demo.array_meta_key
              Demo.attrs_key Demo.decode_group_metadata
              Demo.decode_array_metadata Demo.store1 "" false false None
              Demo.root Demo.bar "bar" "quux") as [Hpath _].
  - by vm_compute.
  - discriminate.
  - reflexivity.
  - discriminate.
  - reflexivity.
  - by vm_compute.
  - exact Hpath.
Defined.

Lemma eq_compares_store_mode_and_path_witness :
  Hierarchy.__eq__ Demo.store1 Demo.root Demo.store1 (NGroup Demo.bar) =
  Hierarchy.__eq__ Demo.store1 Demo.bar Demo.store1 (NGroup Demo.root).
Proof.
  destruct (Lookup.eq_compares_store_mode_and_path Demo.group_meta_key
              Demo.array_meta_key Demo.attrs_key Demo.decode_group_metadata
              Demo.store1 Demo.store1 "" "bar" false false false false
              None None Demo.root Demo.bar) as (_ & Hsym & _).
  - by vm_compute.
  - by vm_compute.
  - exact Hsym.
Defined.

Lemma groups_pairs_group_keys_with_items_witness :
  (yields (demo_groups Demo.store1 Demo.root)).*1 =
  Hierarchy.group_keys Demo.group_meta_key Demo.store1 Demo.root.
Proof.
  destruct (Lookup.groups_pairs_group_keys_with_items Demo.group_meta_key
              Demo.array_meta_key Demo.attrs_key Demo.decode_group_metadata
              Demo.decode_array_metadata Demo.store1 "" false false None
              Demo.root) as [_ Hyields].
  - by vm_compute.
  - apply (bool_decide_unpack _). by vm_compute.
  - apply (bool_decide_unpack _). by vm_compute.
  - apply Hyields. by vm_compute.
Defined.

Lemma arrays_pairs_array_keys_with_items_witness :
  raised (demo_arrays Demo.store1 Demo.root) = None.
Proof.
  destruct (Lookup.arrays_pairs_array_keys_with_items Demo.group_meta_key
              Demo.array_meta_key Demo.attrs_key Demo.decode_group_metadata
              Demo.decode_array_metadata Demo.store1 "" false false None
              Demo.root) as [Hraised _].
  - by vm_compute.
  - apply (bool_decide_unpack _). by vm_compute.
  - apply (bool_decide_unpack _). by vm_compute.
  - exact Hraised.
Defined.

Lemma open_group_reading_modes_only_construct_witness :
  demo_open_group "r" None "/bar/" Demo.world1 =
  (demo_init (w_store Demo.world1) (normalize_storage_path "/bar/")
     (bool_decide ("r" = "r")) false None, Demo.world1).
Proof.
  destruct (Opening.open_group_reading_modes_only_construct
              Demo.group_meta_key Demo.array_meta_key Demo.attrs_key
              Demo.decode_group_metadata Demo.init_group "r" None "/bar/"
              Demo.world1) as [Hrun _].
  - apply (bool_decide_unpack _). by vm_compute.
  - exact Hrun.
Defined.

Lemma open_group_exclusive_refuses_existing_witness :
  demo_open_group "x" None "bar" Demo.world1 =
  (Raise (if contains_array Demo.array_meta_key (w_store Demo.world1)
               (normalize_storage_path "bar")
          then ContainsArrayError (normalize_storage_path "bar")
          else ContainsGroupError (normalize_storage_path "bar")),
   Demo.world1).
Proof.
  apply (Opening.open_group_exclusive_refuses_existing
           Demo.group_meta_key Demo.array_meta_key Demo.attrs_key
           Demo.decode_group_metadata Demo.init_group "x" None "bar"
           Demo.world1).
  - apply (bool_decide_unpack _). by vm_compute.
  - by vm_compute.
Defined.

Lemma open_group_append_keeps_existing_witness :
  demo_open_group "a" None "bar" Demo.world1 =
  (if contains_array Demo.array_meta_key (w_store Demo.world1)
        (normalize_storage_path "bar")
   then Raise (ContainsArrayError (normalize_storage_path "bar"))
   else demo_init (w_store Demo.world1) (normalize_storage_path "bar")
          false false None,
   Demo.world1).
Proof.
  apply (Opening.open_group_append_keeps_existing
           Demo.group_meta_key Demo.array_meta_key Demo.attrs_key
           Demo.decode_group_metadata Demo.init_group None "bar"
           Demo.world1).
  by vm_compute.
Defined.

Lemma open_group_handle_witness :
  _path Demo.bar = normalize_storage_path "bar".
Proof.
  destruct (Opening.open_group_handle Demo.group_meta_key
              Demo.array_meta_key Demo.attrs_key Demo.decode_group_metadata
              Demo.init_group "r+" None "bar" Demo.world1 Demo.world1
              Demo.bar) as [Hpath _].
  - by vm_compute.
  - exact Hpath.
Defined.

Lemma group_checks_the_root_witness :
  demo_group false false None "nope" Demo.world1 =
  (Raise (GroupNotFoundError (normalize_storage_path "nope")), Demo.world1).
Proof.
  destruct (Opening.group_checks_the_root Demo.group_meta_key
              Demo.array_meta_key Demo.attrs_key Demo.decode_group_metadata
              Demo.init_group false None "nope" Demo.world1)
    as (_ & Hmissing & _).
  - by vm_compute.
  - apply Hmissing; by vm_compute.
Defined.

Lemma require_group_existing_is_lookup_witness :
  w_store (demo_require_group Demo.root "bar" true Demo.world1).2
  = w_store Demo.world1.
Proof.
  destruct (Opening.require_group_existing_is_lookup Demo.group_meta_key
              Demo.array_meta_key Demo.attrs_key Demo.decode_group_metadata
              Demo.decode_array_metadata Demo.init_group Demo.root "bar" true
              Demo.world1) as (_ & Hstore & _).
  - reflexivity.
  - by vm_compute.
  - exact Hstore.
Defined.

Lemma array_factories_get_group_context_witness :
  ∃ f args,
    demo_call Demo.root (Hierarchy.Call_zeros "z" no_kwargs) Demo.world1 =
      Hierarchy.returning Hierarchy.RArray (Demo.creation f args)
        Demo.world1 ∧
    ca_path args = Hierarchy._item_path Demo.root "z".
Proof.
  destruct (Arrays.array_factories_get_group_context Demo.group_meta_key
              Demo.array_meta_key Demo.attrs_key Demo.decode_group_metadata
              Demo.decode_array_metadata Demo.normalize_shape
              Demo.init_group Demo.creation Demo.root
              (Hierarchy.Call_zeros "z" no_kwargs) no_kwargs Demo.world1)
    as (f & args & Hrun & Hpath & _).
  - reflexivity.
  - reflexivity.
  - exists f, args. split; [exact Hrun|exact Hpath].
Defined.

Lemma require_dataset_absent_is_create_dataset_witness :
  demo_require_dataset Demo.root "new" (ShapeInt 3) None true no_kwargs
    Demo.world1 =
  demo_create_dataset Demo.root "new"
    (set_shape_dtype (ShapeInt 3) None no_kwargs) Demo.world1.
Proof.
  apply (Arrays.require_dataset_absent_is_create_dataset
           Demo.group_meta_key Demo.array_meta_key
           Demo.decode_array_metadata Demo.normalize_shape Demo.creation
           Demo.root "new" (ShapeInt 3) None true no_kwargs Demo.world1).
  by vm_compute.
Defined.

Lemma delitem_removes_one_member_witness :
  demo_iter (w_store (demo_delitem Demo.root "bar" Demo.world1).2) Demo.root
  = filter (λ x, x ≠ "bar") (demo_iter (w_store Demo.world1) Demo.root).
Proof.
  destruct (Deletion.delitem_removes_one_member Demo.group_meta_key
              Demo.array_meta_key Demo.attrs_key Demo.decode_group_metadata
              "" false None Demo.root "bar" Demo.world1)
    as (_ & Hiter & _).
  - by vm_compute.
  - apply (bool_decide_unpack _). by vm_compute.
  - apply (bool_decide_unpack _). by vm_compute.
  - exact Hiter.
Defined.


End Examples.
